(** * Verification of the bounded MPMC ring-buffer queue

    Shallow embedding of [MPMCQueue<T>] from [src/mpmc_queue.cpp]
    (Vyukov's bounded queue): the constructor, [enqueue] and [dequeue],
    first run by one thread, then by the producer and consumer threads
    of the harness, interleaved at their accesses to shared memory.
    [size_t] is a 64-bit unsigned integer whose wrap-around is written
    out, [intptr_t] its two's-complement reading, the
    [std::vector<Cell>] a list accessed by index, and the retry loops of
    a call take fuel.  [MPMCQueue_ctor] is the constructor from the
    point where the vector has been built, with its assertion compiled
    in; [MPMCQueue_construct] is the constructor in full, with the
    exceptions of the vector and the build without the assertion.

    The first part holds the model, the abstract bounded FIFO queue of
    the specification and the invariants; the second part the lemmas
    and the theorems on the specification's claims. *)

From Stdlib Require Import ZArith Lia.
From stdpp Require Import base list.

Local Open Scope Z_scope.

(** * Part I: the model *)

(** ** Machine integers *)

(** [size_t] and [intptr_t] are 64 bits wide on the LP64 targets the
    benchmark is built for. *)
Definition SIZE_BITS : Z := 64.
Definition SIZE_MOD : Z := 2 ^ SIZE_BITS.
Definition INTPTR_HALF : Z := 2 ^ (SIZE_BITS - 1).

(** The value of a [size_t] expression: arithmetic modulo [2^64]. *)
Definition wrap (z : Z) : Z := z mod SIZE_MOD.

(** [(intptr_t)z] for a [size_t] value [z]. *)
Definition to_intptr (z : Z) : Z :=
  if z <? INTPTR_HALF then z else z - SIZE_MOD.

(** Subtraction of two [intptr_t] values in two's complement: where the
    difference leaves the range of [intptr_t], the value the hardware
    computes. *)
Definition intptr_sub (a b : Z) : Z :=
  (a - b + INTPTR_HALF) mod SIZE_MOD - INTPTR_HALF.

Definition is_size_t (z : Z) : Prop := 0 <= z < SIZE_MOD.

(** A power of two, as the constructor's comment has it. *)
Definition is_pow2 (n : Z) : Prop := exists k, 0 <= k /\ n = 2 ^ k.

(** The condition of the constructor's [assert]. *)
Definition valid_buffer_size (buffer_size : Z) : bool :=
  (2 <=? buffer_size) && (Z.land buffer_size (wrap (buffer_size - 1)) =? 0).

(** ** Outcomes of a call *)

(** What a call of the model yields: a result, or one of the two ways the
    C++ code fails to give one (a retry loop still spinning when the fuel
    is used up, a [buffer_] index outside the vector). *)
Inductive outcome (A : Type) : Type :=
  | Done (a : A)
  | Spinning
  | OutOfBounds.
Arguments Done {A} a.
Arguments Spinning {A}.
Arguments OutOfBounds {A}.

Definition outcome_bind {A B : Type} (m : outcome A) (f : A -> outcome B) : outcome B :=
  match m with
  | Done a => f a
  | Spinning => Spinning
  | OutOfBounds => OutOfBounds
  end.

Notation "'do' p <- m ; k" := (outcome_bind m (fun p => k))
  (at level 10, p pattern, m at level 100, k at level 200, only parsing).

(** ** The weak compare-exchange *)

(** [std::atomic<size_t>::compare_exchange_weak(expected, desired)] run by
    the only thread there is.  A weak exchange may fail although the
    object holds the expected value; [spurious] counts how many times the
    hardware still does so.  The result gives the success flag, the new
    contents of the object, the new contents of the caller's [expected]
    variable, and the spurious failures left. *)
Record cas_result : Type := mkCas {
  cas_ok : bool;
  cas_object : Z;
  cas_expected : Z;
  cas_spurious : nat
}.

Definition compare_exchange_weak
    (spurious : nat) (object expected desired : Z) : cas_result :=
  if object =? expected then
    match spurious with
    | S n => mkCas false object expected n
    | O => mkCas true desired expected O
    end
  else mkCas false object object spurious.

(** ** The queue: data model and operations *)

Section Queue.
Context {T : Type}.

(** The value-initialised [T] the vector's cells start with. *)
Variable T0 : T.

Record Cell : Type := mkCell {
  sequence : Z;
  data : T
}.

Record MPMCQueue : Type := mkQueue {
  buffer_ : list Cell;
  buffer_mask_ : Z;
  enqueue_pos_ : Z;
  dequeue_pos_ : Z
}.

(** [buffer_[i].sequence.store(s)] and [buffer_[i].data = v]. *)
Definition store_sequence (buf : list Cell) (i : nat) (s : Z) : list Cell :=
  alter (fun c => mkCell s (data c)) i buf.

Definition store_data (buf : list Cell) (i : nat) (v : T) : list Cell :=
  alter (fun c => mkCell (sequence c) v) i buf.

Definition with_buffer (q : MPMCQueue) (buf : list Cell) : MPMCQueue :=
  mkQueue buf (buffer_mask_ q) (enqueue_pos_ q) (dequeue_pos_ q).

Definition with_enqueue_pos (q : MPMCQueue) (pos : Z) : MPMCQueue :=
  mkQueue (buffer_ q) (buffer_mask_ q) pos (dequeue_pos_ q).

Definition with_dequeue_pos (q : MPMCQueue) (pos : Z) : MPMCQueue :=
  mkQueue (buffer_ q) (buffer_mask_ q) (enqueue_pos_ q) pos.

(** The constructor's loop [for (i = 0; i < buffer_size; ++i)
    buffer_[i].sequence.store(i)], over the indices in order. *)
Definition init_sequences (buf : list Cell) (buffer_size : nat) : list Cell :=
  fold_left (fun b i => store_sequence b i (Z.of_nat i)) (seq 0 buffer_size) buf.

(** [MPMCQueue(size_t buffer_size)] once the vector of [buffer_size]
    cells is built: the mask, then the [assert]; [None] is the failed
    assertion.  [MPMCQueue_construct] below adds the ways the vector's
    own constructor fails. *)
Definition MPMCQueue_ctor (buffer_size : Z) : option MPMCQueue :=
  let buffer := replicate (Z.to_nat buffer_size) (mkCell 0 T0) in
  let mask := wrap (buffer_size - 1) in
  if valid_buffer_size buffer_size then
    Some (mkQueue (init_sequences buffer (Z.to_nat buffer_size)) mask 0 0)
  else None.

(** The [while (true)] loop of [enqueue], one iteration per unit of
    fuel; [pos] is the local variable. *)
Fixpoint enqueue_loop (fuel spurious : nat) (q : MPMCQueue) (pos : Z) (value : T)
    : outcome (bool * MPMCQueue) :=
  match fuel with
  | O => Spinning
  | S fuel =>
    let idx := Z.to_nat (Z.land pos (buffer_mask_ q)) in
    match buffer_ q !! idx with
    | None => OutOfBounds
    | Some cell =>
      let seq := sequence cell in
      let dif := intptr_sub (to_intptr seq) (to_intptr pos) in
      if dif =? 0 then
        let r := compare_exchange_weak spurious (enqueue_pos_ q) pos (wrap (pos + 1)) in
        if cas_ok r then
          let q1 := with_enqueue_pos q (cas_object r) in
          let q2 := with_buffer q1 (store_data (buffer_ q1) idx value) in
          let q3 := with_buffer q2 (store_sequence (buffer_ q2) idx (wrap (pos + 1))) in
          Done (true, q3)
        else enqueue_loop fuel (cas_spurious r) q (cas_expected r) value
      else if dif <? 0 then Done (false, q)
      else enqueue_loop fuel spurious q (enqueue_pos_ q) value
    end
  end.

(** [bool enqueue(const T& data)]. *)
Definition enqueue (fuel spurious : nat) (q : MPMCQueue) (value : T)
    : outcome (bool * MPMCQueue) :=
  enqueue_loop fuel spurious q (enqueue_pos_ q) value.

(** The loop of [dequeue]; [out] is the caller's variable behind the
    reference parameter. *)
Fixpoint dequeue_loop (fuel spurious : nat) (q : MPMCQueue) (pos : Z) (out : T)
    : outcome (bool * T * MPMCQueue) :=
  match fuel with
  | O => Spinning
  | S fuel =>
    let idx := Z.to_nat (Z.land pos (buffer_mask_ q)) in
    match buffer_ q !! idx with
    | None => OutOfBounds
    | Some cell =>
      let seq := sequence cell in
      let dif := intptr_sub (to_intptr seq) (to_intptr (wrap (pos + 1))) in
      if dif =? 0 then
        let r := compare_exchange_weak spurious (dequeue_pos_ q) pos (wrap (pos + 1)) in
        if cas_ok r then
          let q1 := with_dequeue_pos q (cas_object r) in
          let out1 := data cell in
          let q2 := with_buffer q1
            (store_sequence (buffer_ q1) idx (wrap (pos + buffer_mask_ q + 1))) in
          Done (true, out1, q2)
        else dequeue_loop fuel (cas_spurious r) q (cas_expected r) out
      else if dif <? 0 then Done (false, out, q)
      else dequeue_loop fuel spurious q (dequeue_pos_ q) out
    end
  end.

(** [bool dequeue(T& data)]. *)
Definition dequeue (fuel spurious : nat) (q : MPMCQueue) (out : T)
    : outcome (bool * T * MPMCQueue) :=
  dequeue_loop fuel spurious q (dequeue_pos_ q) out.

(** The test [dif == 0] of [enqueue] for a producer at position [pos]. *)
Definition write_ready (cell : Cell) (pos : Z) : bool :=
  intptr_sub (to_intptr (sequence cell)) (to_intptr pos) =? 0.

(** The test [dif == 0] of [dequeue] for a consumer at position [pos]. *)
Definition read_ready (cell : Cell) (pos : Z) : bool :=
  intptr_sub (to_intptr (sequence cell)) (to_intptr (wrap (pos + 1))) =? 0.

(** The resident values read off the ring, oldest first: the data of the
    slots from [dequeue_pos_] up to [enqueue_pos_]. *)
Definition contents (q : MPMCQueue) : list T :=
  omap (fun j : nat =>
          data <$> buffer_ q !! Z.to_nat
            (Z.land (wrap (dequeue_pos_ q + Z.of_nat j)) (buffer_mask_ q)))
       (seq 0 (Z.to_nat (wrap (enqueue_pos_ q - dequeue_pos_ q)))).

End Queue.

Arguments Cell T : clear implicits.
Arguments MPMCQueue T : clear implicits.

(** ** Sequential executions *)

Section Sequential.
Context {T : Type}.

(** One call by the single thread.  [spurious] is the number of spurious
    failures its weak compare-exchange suffers; [out] is the value of the
    variable handed to [dequeue] by reference. *)
Inductive call : Type :=
  | Enqueue (value : T) (spurious : nat)
  | Dequeue (out : T) (spurious : nat).

(** What the caller sees: [enqueue]'s flag, and for [dequeue] the value
    when the flag is set. *)
Inductive answer : Type :=
  | Enqueued (ok : bool)
  | Dequeued (result : option T).

Definition call_spurious (c : call) : nat :=
  match c with
  | Enqueue _ spurious => spurious
  | Dequeue _ spurious => spurious
  end.

Definition step (fuel : nat) (q : MPMCQueue T) (c : call)
    : outcome (answer * MPMCQueue T) :=
  match c with
  | Enqueue value spurious =>
      do (ok, q') <- enqueue fuel spurious q value;
      Done (Enqueued ok, q')
  | Dequeue out spurious =>
      do (ok, out', q') <- dequeue fuel spurious q out;
      Done (Dequeued (if ok : bool then Some out' else None), q')
  end.

Fixpoint run (fuel : nat) (q : MPMCQueue T) (cs : list call)
    : outcome (list answer * MPMCQueue T) :=
  match cs with
  | [] => Done ([], q)
  | c :: cs =>
      do (a, q') <- step fuel q c;
      do (answers, q'') <- run fuel q' cs;
      Done (a :: answers, q'')
  end.

(** Successful enqueues and dequeues among the answers of a run, and the
    values resident after it. *)
Fixpoint enqueued (answers : list answer) : Z :=
  match answers with
  | [] => 0
  | Enqueued true :: rest => 1 + enqueued rest
  | _ :: rest => enqueued rest
  end.

Fixpoint dequeued (answers : list answer) : Z :=
  match answers with
  | [] => 0
  | Dequeued (Some _) :: rest => 1 + dequeued rest
  | _ :: rest => dequeued rest
  end.

Definition resident (answers : list answer) : Z :=
  enqueued answers - dequeued answers.

(** *** Reachable states *)

Variable T0 : T.

(** The states a single thread can bring a queue of capacity [n] into. *)
Inductive reachable (n : Z) : MPMCQueue T -> Prop :=
  | reach_ctor q :
      is_size_t n -> MPMCQueue_ctor T0 n = Some q -> reachable n q
  | reach_enqueue q fuel spurious value ok q' :
      reachable n q ->
      enqueue fuel spurious q value = Done (ok, q') ->
      reachable n q'
  | reach_dequeue q fuel spurious out ok out' q' :
      reachable n q ->
      dequeue fuel spurious q out = Done (ok, out', q') ->
      reachable n q'.

End Sequential.

Arguments call T : clear implicits.
Arguments answer T : clear implicits.

(** ** The abstract bounded FIFO queue of the specification *)

Section Fifo.
Context {T : Type}.

Record BoundedFifo : Type := mkFifo {
  fifo_capacity : Z;
  fifo_items : list T
}.

(** [tryEnqueue(value) -> bool]: append as the newest unless full. *)
Definition fifo_tryEnqueue (f : BoundedFifo) (value : T) : bool * BoundedFifo :=
  if Z.of_nat (length (fifo_items f)) <? fifo_capacity f
  then (true, mkFifo (fifo_capacity f) (fifo_items f ++ [value]))
  else (false, f).

(** [tryDequeue() -> Option<T>]: remove the oldest unless empty. *)
Definition fifo_tryDequeue (f : BoundedFifo) : option T * BoundedFifo :=
  match fifo_items f with
  | [] => (None, f)
  | oldest :: rest => (Some oldest, mkFifo (fifo_capacity f) rest)
  end.

Definition fifo_step (f : BoundedFifo) (c : call T) : answer T * BoundedFifo :=
  match c with
  | Enqueue value _ =>
      let '(ok, f') := fifo_tryEnqueue f value in (Enqueued ok, f')
  | Dequeue _ _ =>
      let '(result, f') := fifo_tryDequeue f in (Dequeued result, f')
  end.

Fixpoint fifo_run (f : BoundedFifo) (cs : list (call T)) : list (answer T) * BoundedFifo :=
  match cs with
  | [] => ([], f)
  | c :: cs =>
      let '(a, f') := fifo_step f c in
      let '(answers, f'') := fifo_run f' cs in
      (a :: answers, f'')
  end.

End Fifo.

Arguments BoundedFifo T : clear implicits.

(** ** The representation invariant *)

(** The capacities the constructor lets through. *)
Definition capacity_ok (n : Z) : Prop :=
  exists k, 1 <= k < SIZE_BITS /\ n = 2 ^ k.

Section InvariantDef.
Context {T : Type}.
Implicit Types (q : MPMCQueue T) (l : list T) (c : Cell T) (v : T).

(** The slot that position [p] maps to, in a queue whose producers
    have claimed the positions below [E], whose consumers have claimed
    those below [D], and whose resident values are [l], oldest first:
    published and holding its value when [p < E], free for writing
    otherwise. *)
Definition slot_state (n : Z) q (E D : Z) l (p : Z) : Prop :=
  exists c, buffer_ q !! Z.to_nat (p mod n) = Some c /\
    if p <? E
    then sequence c = wrap (p + 1) /\ l !! Z.to_nat (p - D) = Some (data c)
    else sequence c = wrap p.

(** [E] and [D] count the successful enqueues and dequeues so far; the
    machine counters are these counts modulo [2^64]. *)
Record Inv (n : Z) q (E D : Z) l : Prop := mkInv {
  inv_capacity : capacity_ok n;
  inv_length : length (buffer_ q) = Z.to_nat n;
  inv_mask : buffer_mask_ q = n - 1;
  inv_enqueue_pos : enqueue_pos_ q = wrap E;
  inv_dequeue_pos : dequeue_pos_ q = wrap D;
  inv_order : 0 <= D <= E /\ E <= D + n;
  inv_items : Z.of_nat (length l) = E - D;
  inv_slots : forall p, D <= p < D + n -> slot_state n q E D l p
}.

(** The state a successful enqueue at logical position [E] leaves. *)
Definition enqueue_post (n : Z) q (E : Z) v : MPMCQueue T :=
  let i := Z.to_nat (E mod n) in
  mkQueue
    (store_sequence (store_data (buffer_ q) i v) i (wrap (E + 1)))
    (buffer_mask_ q) (wrap (E + 1)) (dequeue_pos_ q).

(** The state a successful dequeue at logical position [D] leaves. *)
Definition dequeue_post (n : Z) q (D : Z) : MPMCQueue T :=
  let i := Z.to_nat (D mod n) in
  mkQueue
    (store_sequence (buffer_ q) i (wrap (D + n)))
    (buffer_mask_ q) (enqueue_pos_ q) (wrap (D + 1)).

End InvariantDef.

(** ** Runs that take the position counters around the wrap *)

(** [k] times: enqueue one value, dequeue it. *)
Fixpoint cycles (k : nat) : list (call Z) :=
  match k with
  | O => []
  | S k => Enqueue 0 0 :: Dequeue 0 0 :: cycles k
  end.

Fixpoint cycle_answers (k : nat) : list (answer Z) :=
  match k with
  | O => []
  | S k => Enqueued true :: Dequeued (Some 0) :: cycle_answers k
  end.

(** The number of cycles after which both counters stand at
    [SIZE_MAX]. *)
Definition WRAP_CYCLES : nat := Z.to_nat (SIZE_MOD - 1).

(** ** Values accepted and delivered along a run *)

Section Trace.
Context {T : Type}.

(** The values of the calls of [enqueue] that returned true, in call
    order. *)
Fixpoint accepted (cs : list (call T)) (answers : list (answer T)) : list T :=
  match cs, answers with
  | Enqueue value _ :: cs, Enqueued true :: answers => value :: accepted cs answers
  | _ :: cs, _ :: answers => accepted cs answers
  | _, _ => []
  end.

(** The values handed out by the calls of [dequeue] that returned true,
    in call order. *)
Fixpoint delivered (answers : list (answer T)) : list T :=
  match answers with
  | [] => []
  | Dequeued (Some value) :: answers => value :: delivered answers
  | _ :: answers => delivered answers
  end.

(** An [enqueue] that found the queue full. *)
Definition rejected (a : answer T) : bool :=
  match a with
  | Enqueued false => true
  | _ => false
  end.

End Trace.

(** ** Construction with the assertion compiled out *)

(** What the constructor builds when [NDEBUG] removes the [assert]: the
    member initialisers and the loop, for any [buffer_size]. *)
Definition MPMCQueue_ctor_NDEBUG {T : Type} (T0 : T) (buffer_size : Z) : MPMCQueue T :=
  let buffer := replicate (Z.to_nat buffer_size) (mkCell 0 T0) in
  let mask := wrap (buffer_size - 1) in
  mkQueue (init_sequences buffer (Z.to_nat buffer_size)) mask 0 0.

(** ** Construction in full: the vector, then the assertion *)

(** How a constructor call ends: with an object, in the failed [assert],
    or in one of the exceptions that the member initialiser
    [buffer_(buffer_size)] throws before the body is reached. *)
Inductive construction (A : Type) : Type :=
  | Constructed (a : A)
  | AssertionFailed
  | LengthError
  | BadAlloc.
Arguments Constructed {A} a.
Arguments AssertionFailed {A}.
Arguments LengthError {A}.
Arguments BadAlloc {A}.

(** What the constructor depends on besides its argument: whether the
    build defines [NDEBUG], the library's
    [std::vector<Cell>::max_size()], and the number of cells the
    allocator can provide when the constructor runs. *)
Record platform : Type := mkPlatform {
  NDEBUG : bool;
  vector_max_size : Z;
  allocator_room : Z
}.

(** A cell holds a [std::atomic<size_t>], 8 bytes aligned to 8, and a
    [T]: 16 bytes at least. *)
Definition CELL_BYTES_MIN : Z := 16.

(** No library's [max_size()] exceeds what the address space holds:
    [SIZE_MAX / sizeof(Cell)]. *)
Definition VECTOR_MAX_SIZE_BOUND : Z := (SIZE_MOD - 1) / CELL_BYTES_MIN.

(** [std::vector<A>(count)], every element [value]: [std::length_error]
    above [max_size()], [std::bad_alloc] when the allocator has no room. *)
Definition vector_ctor {A : Type} (p : platform) (count : Z) (value : A)
    : construction (list A) :=
  if vector_max_size p <? count then LengthError
  else if allocator_room p <? count then BadAlloc
  else Constructed (replicate (Z.to_nat count) value).

(** [MPMCQueue(size_t buffer_size)] from its first member initialiser
    on: the vector, the mask, the [assert] unless [NDEBUG] removes it,
    the loop and the two counters. *)
Definition MPMCQueue_construct {T : Type} (T0 : T) (p : platform) (buffer_size : Z)
    : construction (MPMCQueue T) :=
  match vector_ctor p buffer_size (mkCell 0 T0) with
  | Constructed buffer =>
      let mask := wrap (buffer_size - 1) in
      if NDEBUG p || valid_buffer_size buffer_size then
        Constructed (mkQueue (init_sequences buffer (Z.to_nat buffer_size)) mask 0 0)
      else AssertionFailed
  | AssertionFailed => AssertionFailed
  | LengthError => LengthError
  | BadAlloc => BadAlloc
  end.

(** ** The blocking queue of the benchmark *)

(** A call on the mutex-and-condition-variable queue returns, or waits
    on a condition variable that no other thread is there to signal. *)
Inductive blocking (A : Type) : Type :=
  | Returned (a : A)
  | Blocked.
Arguments Returned {A} a.
Arguments Blocked {A}.

Definition blocking_bind {A B : Type} (m : blocking A) (f : A -> blocking B)
    : blocking B :=
  match m with
  | Returned a => f a
  | Blocked => Blocked
  end.

(** [cv.wait(lock, pred)] by the only thread: goes on when the predicate
    holds, and waits for ever when it does not. *)
Definition cv_wait (pred : bool) : blocking unit :=
  if pred then Returned tt else Blocked.

Section Blocking.
Context {T : Type}.

(** [queue_] is the [std::queue], front first; the mutex and the
    condition variables carry no data. *)
Record BlockingQueue : Type := mkBlocking {
  queue_ : list T;
  capacity_ : Z
}.

(** [BlockingQueue(size_t capacity)]: no check of the capacity. *)
Definition BlockingQueue_ctor (capacity : Z) : BlockingQueue :=
  mkBlocking [] capacity.

(** [bool BlockingQueue::enqueue(const T& data)]. *)
Definition blocking_enqueue (b : BlockingQueue) (value : T)
    : blocking (bool * BlockingQueue) :=
  blocking_bind (cv_wait (Z.of_nat (length (queue_ b)) <? capacity_ b)) (fun _ =>
  Returned (true, mkBlocking (queue_ b ++ [value]) (capacity_ b))).

(** [bool BlockingQueue::dequeue(T& data)]: [wait_for] gives up at its
    timeout, with the predicate still false, exactly when the queue is
    empty. *)
Definition blocking_dequeue (b : BlockingQueue) (out : T)
    : blocking (bool * T * BlockingQueue) :=
  match queue_ b with
  | [] => Returned (false, out, b)
  | front :: rest => Returned (true, front, mkBlocking rest (capacity_ b))
  end.

Definition blocking_step (b : BlockingQueue) (c : call T)
    : blocking (answer T * BlockingQueue) :=
  match c with
  | Enqueue value _ =>
      blocking_bind (blocking_enqueue b value) (fun '(ok, b') =>
      Returned (Enqueued ok, b'))
  | Dequeue out _ =>
      blocking_bind (blocking_dequeue b out) (fun '(ok, out', b') =>
      Returned (Dequeued (if ok : bool then Some out' else None), b'))
  end.

Fixpoint blocking_run (b : BlockingQueue) (cs : list (call T))
    : blocking (list (answer T) * BlockingQueue) :=
  match cs with
  | [] => Returned ([], b)
  | c :: cs =>
      blocking_bind (blocking_step b c) (fun '(a, b') =>
      blocking_bind (blocking_run b' cs) (fun '(answers, b'') =>
      Returned (a :: answers, b'')))
  end.

End Blocking.

Arguments BlockingQueue T : clear implicits.
(** ** The test harness *)

(** [int] is 32 bits wide; its arithmetic is taken in two's
    complement. *)
Definition INT_HALF : Z := 2 ^ 31.

Definition to_int (z : Z) : Z := (z + INT_HALF) mod (2 * INT_HALF) - INT_HALF.

Definition is_int (z : Z) : Prop := - INT_HALF <= z < INT_HALF.

(** The constants at the head of a harness. *)
Record harness : Type := mkHarness {
  NUM_PRODUCERS : Z;
  NUM_CONSUMERS : Z;
  ITEMS_PER_PRODUCER : Z;
  QUEUE_SIZE : Z
}.

(** The constants of the test harness and of the benchmark. *)
Definition test_harness : harness := mkHarness 4 4 100000 1024.
Definition benchmark_harness : harness := mkHarness 16 16 250000 65536.

Section Harness.
Variable h : harness.

(** The fuel of the queue's retry loops, and the spurious failures that
    the compare-exchange of the [k]-th call on the queue suffers. *)
Variable fuel : nat.
Variable spur : nat -> nat.

(** [int val = id * ITEMS_PER_PRODUCER + i]. *)
Definition producer_value (id i : Z) : Z :=
  to_int (to_int (id * ITEMS_PER_PRODUCER h) + i).

(** [while (!q.enqueue(val)) yield();] with one unit of [patience] per
    attempt; [calls] counts the calls made on the queue so far. *)
Fixpoint enqueue_retry (patience calls : nat) (q : MPMCQueue Z) (val : Z)
    : outcome (nat * MPMCQueue Z) :=
  match patience with
  | O => Spinning
  | S patience =>
      do (ok, q') <- enqueue fuel (spur calls) q val;
      if ok : bool then Done (S calls, q')
      else enqueue_retry patience (S calls) q' val
  end.

(** The [for] loop of [producer], one test of [i < ITEMS_PER_PRODUCER]
    per step. *)
Fixpoint producer_loop (steps patience calls : nat) (q : MPMCQueue Z) (id i : Z)
    : outcome (nat * MPMCQueue Z) :=
  match steps with
  | O => Spinning
  | S steps =>
      if i <? ITEMS_PER_PRODUCER h then
        do (calls', q') <- enqueue_retry patience calls q (producer_value id i);
        producer_loop steps patience calls' q' id (to_int (i + 1))
      else Done (calls, q)
  end.

(** [void producer(MPMCQueue<int>& q, int id)]. *)
Definition producer (steps patience : nat) (q : MPMCQueue Z) (id : Z)
    : outcome (nat * MPMCQueue Z) :=
  producer_loop steps patience 0 q id 0.

(** What [consumer] leaves: the queue, the shared counter and its locals. *)
Record consumer_exit : Type := mkExit {
  exit_queue : MPMCQueue Z;
  exit_total_consumed : Z;
  exit_val : Z;
  exit_count : Z
}.

(** The [while] loop of [consumer], one test of the shared counter per
    step. *)
Fixpoint consumer_loop (steps calls : nat) (q : MPMCQueue Z)
    (total_consumed val count : Z) : outcome consumer_exit :=
  match steps with
  | O => Spinning
  | S steps =>
      if total_consumed <? to_int (NUM_PRODUCERS h * ITEMS_PER_PRODUCER h) then
        do (ok, val', q') <- dequeue fuel (spur calls) q val;
        if ok : bool then
          consumer_loop steps (S calls) q' (to_int (total_consumed + 1)) val'
            (to_int (count + 1))
        else consumer_loop steps (S calls) q' total_consumed val' count
      else Done (mkExit q total_consumed val count)
  end.

(** [void consumer(MPMCQueue<int>& q, std::atomic<int>& total_consumed)];
    [val] is what the uninitialised local happens to hold. *)
Definition consumer (steps : nat) (q : MPMCQueue Z) (total_consumed val : Z)
    : outcome consumer_exit :=
  consumer_loop steps 0 q total_consumed val 0.

End Harness.
(** ** Threads interleaved at their accesses to shared memory *)

(** The harness as [main] runs it: producer threads and consumer
    threads on one queue and one counter [total_consumed].  A thread's
    step is the code up to and including its next access to shared
    memory (an atomic load, store, compare-exchange or [fetch_add], or
    the read or write of a cell's [data]); a schedule names the thread
    that takes each step.  Memory is sequentially consistent: every
    access reads the latest value written. *)

Section Threads.
Context {T : Type}.

(** Where a thread running [producer] stands in [enqueue]: the access it
    makes next, with the value of the local [pos]. *)
Inductive producer_pc : Type :=
  | PLoadPos
  | PLoadSeq (pos : Z)
  | PCas (pos : Z)
  | PWriteData (pos : Z)
  | PStoreSeq (pos : Z).

(** A producer thread: the values its [for] loop still has to enqueue,
    the one of the current iteration first. *)
Record producer_thread : Type := mkProducer {
  p_values : list T;
  p_pc : producer_pc
}.

(** Where a thread running [consumer] stands: at the test of its
    [while] loop, in [dequeue], or at the [fetch_add] that follows a
    successful [dequeue]. *)
Inductive consumer_pc : Type :=
  | CLoadTotal
  | CLoadPos
  | CLoadSeq (pos : Z)
  | CCas (pos : Z)
  | CReadData (pos : Z)
  | CStoreSeq (pos : Z)
  | CFetchAdd
  | CReturned.

(** A consumer thread: its locals [val] and [count], and the values its
    calls of [dequeue] have returned so far. *)
Record consumer_thread : Type := mkConsumer {
  c_val : T;
  c_count : Z;
  c_received : list T;
  c_pc : consumer_pc
}.

(** [pos & buffer_mask_]. *)
Definition cell_index (q : MPMCQueue T) (pos : Z) : nat :=
  Z.to_nat (Z.land pos (buffer_mask_ q)).

(** The weak compare-exchange of one step fails spuriously when the
    schedule says so. *)
Definition spurious_failures (spurious : bool) : nat :=
  if spurious then 1%nat else 0%nat.

(** One step of a producer thread.  With no value left the thread has
    returned.  A failed [enqueue] ([dif < 0]) is followed by [yield] and
    the next call, which like the [dif > 0] branch starts by loading
    [enqueue_pos_]. *)
Definition producer_step (spurious : bool) (q : MPMCQueue T) (t : producer_thread)
    : MPMCQueue T * producer_thread :=
  match p_values t with
  | [] => (q, t)
  | value :: rest =>
    match p_pc t with
    | PLoadPos =>
        (q, mkProducer (p_values t) (PLoadSeq (enqueue_pos_ q)))
    | PLoadSeq pos =>
        match buffer_ q !! cell_index q pos with
        | None => (q, t)
        | Some cell =>
          let seq := sequence cell in
          let dif := intptr_sub (to_intptr seq) (to_intptr pos) in
          if dif =? 0 then (q, mkProducer (p_values t) (PCas pos))
          else if dif <? 0 then (q, mkProducer (p_values t) PLoadPos)
          else (q, mkProducer (p_values t) PLoadPos)
        end
    | PCas pos =>
        let r := compare_exchange_weak (spurious_failures spurious)
                   (enqueue_pos_ q) pos (wrap (pos + 1)) in
        if cas_ok r
        then (with_enqueue_pos q (cas_object r), mkProducer (p_values t) (PWriteData pos))
        else (q, mkProducer (p_values t) (PLoadSeq (cas_expected r)))
    | PWriteData pos =>
        (with_buffer q (store_data (buffer_ q) (cell_index q pos) value),
         mkProducer (p_values t) (PStoreSeq pos))
    | PStoreSeq pos =>
        (with_buffer q (store_sequence (buffer_ q) (cell_index q pos) (wrap (pos + 1))),
         mkProducer rest PLoadPos)
    end
  end.

(** The number the consumers compare the counter with:
    [NUM_PRODUCERS * ITEMS_PER_PRODUCER]. *)
Variable total : Z.

(** One step of a consumer thread, on the queue and [total_consumed].
    A failed [dequeue] ([dif < 0]) is followed by [yield] and the next
    test of the counter. *)
Definition consumer_step (spurious : bool) (q : MPMCQueue T) (total_consumed : Z)
    (t : consumer_thread) : MPMCQueue T * Z * consumer_thread :=
  let at_pc pc := mkConsumer (c_val t) (c_count t) (c_received t) pc in
  match c_pc t with
  | CLoadTotal =>
      if total_consumed <? total then (q, total_consumed, at_pc CLoadPos)
      else (q, total_consumed, at_pc CReturned)
  | CLoadPos =>
      (q, total_consumed, at_pc (CLoadSeq (dequeue_pos_ q)))
  | CLoadSeq pos =>
      match buffer_ q !! cell_index q pos with
      | None => (q, total_consumed, t)
      | Some cell =>
        let seq := sequence cell in
        let dif := intptr_sub (to_intptr seq) (to_intptr (wrap (pos + 1))) in
        if dif =? 0 then (q, total_consumed, at_pc (CCas pos))
        else if dif <? 0 then (q, total_consumed, at_pc CLoadTotal)
        else (q, total_consumed, at_pc CLoadPos)
      end
  | CCas pos =>
      let r := compare_exchange_weak (spurious_failures spurious)
                 (dequeue_pos_ q) pos (wrap (pos + 1)) in
      if cas_ok r
      then (with_dequeue_pos q (cas_object r), total_consumed, at_pc (CReadData pos))
      else (q, total_consumed, at_pc (CLoadSeq (cas_expected r)))
  | CReadData pos =>
      match buffer_ q !! cell_index q pos with
      | None => (q, total_consumed, t)
      | Some cell =>
          (q, total_consumed,
           mkConsumer (data cell) (c_count t) (c_received t) (CStoreSeq pos))
      end
  | CStoreSeq pos =>
      (with_buffer q
         (store_sequence (buffer_ q) (cell_index q pos) (wrap (pos + buffer_mask_ q + 1))),
       total_consumed,
       mkConsumer (c_val t) (c_count t) (c_received t ++ [c_val t]) CFetchAdd)
  | CFetchAdd =>
      (q, to_int (total_consumed + 1),
       mkConsumer (c_val t) (to_int (c_count t + 1)) (c_received t) CLoadTotal)
  | CReturned => (q, total_consumed, t)
  end.

(** The shared memory and the threads. *)
Record system : Type := mkSystem {
  sys_queue : MPMCQueue T;
  sys_total_consumed : Z;
  sys_producers : list producer_thread;
  sys_consumers : list consumer_thread
}.

Inductive thread_id : Type :=
  | Producer (i : nat)
  | Consumer (j : nat).

(** One turn of the schedule: the thread that steps, and whether its
    compare-exchange, if that is its step, fails spuriously.  The turn
    of a thread that does not exist changes nothing. *)
Definition system_step (s : system) (turn : thread_id * bool) : system :=
  match turn with
  | (Producer i, spurious) =>
      match sys_producers s !! i with
      | None => s
      | Some t =>
          let '(q, t') := producer_step spurious (sys_queue s) t in
          mkSystem q (sys_total_consumed s) (<[i := t']> (sys_producers s))
            (sys_consumers s)
      end
  | (Consumer j, spurious) =>
      match sys_consumers s !! j with
      | None => s
      | Some t =>
          let '(q, total_consumed, t') :=
            consumer_step spurious (sys_queue s) (sys_total_consumed s) t in
          mkSystem q total_consumed (sys_producers s) (<[j := t']> (sys_consumers s))
      end
  end.

Definition system_run (s : system) (schedule : list (thread_id * bool)) : system :=
  fold_left system_step schedule s.

(** What [main] starts: one producer thread for each list of values, one
    consumer thread for each initial content of its uninitialised
    [val]. *)
Definition system_start (q : MPMCQueue T) (values : list (list T)) (vals : list T)
    : system :=
  mkSystem q 0
    (map (fun vs => mkProducer vs PLoadPos) values)
    (map (fun val => mkConsumer val 0 [] CLoadTotal) vals).

(** The values that the calls of [dequeue] have returned, over all
    consumers. *)
Definition received (s : system) : list T :=
  concat (map c_received (sys_consumers s)).

(** The values that the producers still have to enqueue. *)
Definition unsent (s : system) : list T :=
  concat (map p_values (sys_producers s)).

End Threads.

Arguments producer_thread T : clear implicits.
Arguments consumer_thread T : clear implicits.
Arguments system T : clear implicits.

(** ** The invariant of the interleaved executions *)

(** The sum of an integer measure over a list of threads. *)
Definition sum_with {A : Type} (f : A -> Z) (l : list A) : Z :=
  fold_right (fun t acc => f t + acc) 0 l.

(** Some thread of [threads] holds position [pos], and no two do. *)
Definition held {A : Type} (holds : A -> option Z) (threads : list A) (pos : Z) : Prop :=
  exists i t, threads !! i = Some t /\ holds t = Some pos.

Definition exclusive {A : Type} (holds : A -> option Z) (threads : list A) : Prop :=
  forall i j t t' pos,
    threads !! i = Some t -> threads !! j = Some t' ->
    holds t = Some pos -> holds t' = Some pos -> i = j.

Section SystemInvariant.
Context {T : Type}.
Implicit Types (q : MPMCQueue T) (s : system T).

(** The position a producer has claimed by its compare-exchange and not
    yet published, and the position a consumer has claimed and not yet
    released. *)
Definition p_holds (t : producer_thread T) : option Z :=
  match p_pc t with
  | PWriteData pos | PStoreSeq pos => Some pos
  | _ => None
  end.

Definition c_holds (t : consumer_thread T) : option Z :=
  match c_pc t with
  | CReadData pos | CStoreSeq pos => Some pos
  | _ => None
  end.

(** The values of a producer that have no position yet. *)
Definition unclaimed (t : producer_thread T) : Z :=
  Z.of_nat (length (p_values t)) -
  match p_holds t with Some _ => 1 | None => 0 end.

(** A value that [dequeue] has returned and [fetch_add] has not yet
    counted. *)
Definition uncounted (t : consumer_thread T) : Z :=
  match c_pc t with
  | CFetchAdd => 1
  | _ => 0
  end.

(** The value a slot holds for the consumers: its data while its
    sequence is one past a position of the slot, that is, from the
    producer's store of [pos + 1] to the consumer's store of
    [pos + capacity]. *)
Definition stored_at (n : Z) (i : nat) (c : Cell T) : list T :=
  if sequence c mod n =? (Z.of_nat i + 1) mod n then [data c] else [].

Definition stored (n : Z) (buf : list (Cell T)) : list T :=
  concat (imap (stored_at n) buf).

(** The state of the slot whose current position is [cur], with the
    producers having claimed the positions below [E] and the consumers
    those below [D]: free or being written (the sequence is [cur]), or
    published or being read (the sequence is [cur + 1]). *)
Definition slot_phase (n E D : Z) (hp hc : Z -> Prop) (seq cur : Z) : Prop :=
  (seq = cur /\ D <= cur < D + n /\ (hp cur <-> cur < E)) \/
  (seq = cur + 1 /\ cur < E /\ E <= cur + n /\ ~ hp cur /\ (hc cur <-> cur < D)).

(** What a producer knows at each point of [enqueue]: its [pos] was
    loaded from the counter; before the compare-exchange the slot's
    sequence had reached [pos]; after it the slot is the thread's own. *)
Definition producer_ok (n : Z) q (t : producer_thread T) : Prop :=
  match p_pc t with
  | PLoadPos => True
  | PLoadSeq pos => 0 <= pos <= enqueue_pos_ q
  | PCas pos =>
      0 <= pos <= enqueue_pos_ q /\
      exists cell, buffer_ q !! Z.to_nat (pos mod n) = Some cell /\
                   pos <= sequence cell
  | PWriteData pos =>
      0 <= pos < enqueue_pos_ q /\ p_values t <> [] /\
      exists cell, buffer_ q !! Z.to_nat (pos mod n) = Some cell /\
                   sequence cell = pos
  | PStoreSeq pos =>
      0 <= pos < enqueue_pos_ q /\
      exists cell, buffer_ q !! Z.to_nat (pos mod n) = Some cell /\
                   sequence cell = pos /\ head (p_values t) = Some (data cell)
  end.

Definition consumer_ok (n : Z) q (t : consumer_thread T) : Prop :=
  match c_pc t with
  | CLoadSeq pos => 0 <= pos <= dequeue_pos_ q
  | CCas pos =>
      0 <= pos <= dequeue_pos_ q /\
      exists cell, buffer_ q !! Z.to_nat (pos mod n) = Some cell /\
                   pos + 1 <= sequence cell
  | CReadData pos =>
      0 <= pos < dequeue_pos_ q /\
      exists cell, buffer_ q !! Z.to_nat (pos mod n) = Some cell /\
                   sequence cell = pos + 1
  | CStoreSeq pos =>
      0 <= pos < dequeue_pos_ q /\
      exists cell, buffer_ q !! Z.to_nat (pos mod n) = Some cell /\
                   sequence cell = pos + 1 /\ data cell = c_val t
  | _ => True
  end.

(** The invariant of a system of capacity [n] whose producers started
    with the values [all], [total] of them. *)
Record SysInv (n total : Z) (all : list T) s : Prop := mkSysInv {
  si_capacity : capacity_ok n;
  si_length : length (buffer_ (sys_queue s)) = Z.to_nat n;
  si_mask : buffer_mask_ (sys_queue s) = n - 1;
  si_total : total = Z.of_nat (length all) /\ total < INT_HALF;
  si_order :
    0 <= dequeue_pos_ (sys_queue s) <= enqueue_pos_ (sys_queue s) /\
    enqueue_pos_ (sys_queue s) <= dequeue_pos_ (sys_queue s) + n;
  si_claimed :
    enqueue_pos_ (sys_queue s) + sum_with unclaimed (sys_producers s) = total;
  si_slots : forall i, 0 <= i < n ->
    exists cell cur,
      buffer_ (sys_queue s) !! Z.to_nat i = Some cell /\
      cur mod n = i /\ 0 <= cur /\
      slot_phase n (enqueue_pos_ (sys_queue s)) (dequeue_pos_ (sys_queue s))
        (held p_holds (sys_producers s)) (held c_holds (sys_consumers s))
        (sequence cell) cur;
  si_producers : forall i t,
    sys_producers s !! i = Some t -> producer_ok n (sys_queue s) t;
  si_consumers : forall j t,
    sys_consumers s !! j = Some t -> consumer_ok n (sys_queue s) t;
  si_producers_exclusive : exclusive p_holds (sys_producers s);
  si_consumers_exclusive : exclusive c_holds (sys_consumers s);
  si_conservation :
    all ≡ₚ unsent s ++ stored n (buffer_ (sys_queue s)) ++ received s;
  si_counted :
    0 <= sys_total_consumed s /\
    sys_total_consumed s + sum_with uncounted (sys_consumers s) =
    Z.of_nat (length (received s));
  si_returned : forall j t,
    sys_consumers s !! j = Some t -> c_pc t = CReturned ->
    total <= sys_total_consumed s
}.

End SystemInvariant.

(** A schedule for two producers and two consumers: six rounds in which
    one turn of the second producer and one of the first consumer let
    a compare-exchange fail spuriously, then sixteen rounds without
    such failures. *)
Definition example_schedule : list (thread_id * bool) :=
  concat (replicate 6
    [(Producer 0%nat, false); (Producer 1%nat, false); (Consumer 0%nat, false);
     (Producer 1%nat, true); (Consumer 1%nat, false); (Consumer 0%nat, true);
     (Producer 0%nat, false); (Consumer 1%nat, false)]) ++
  concat (replicate 16
    [(Consumer 1%nat, false); (Producer 1%nat, false); (Producer 0%nat, false);
     (Consumer 0%nat, false)]).

(** The turns in which producer [i] alone goes through one call of
    [enqueue], and then the first consumer alone through one round of
    its loop with a call of [dequeue]. *)
Definition handoff_schedule (i : nat) : list (thread_id * bool) :=
  replicate 5 (Producer i, false) ++ replicate 7 (Consumer 0%nat, false).

(** The value of the local [pos] of a thread that is inside [enqueue]
    or [dequeue] past its load of the position counter. *)
Definition p_pos {T : Type} (t : producer_thread T) : option Z :=
  match p_pc t with
  | PLoadPos => None
  | PLoadSeq pos | PCas pos | PWriteData pos | PStoreSeq pos => Some pos
  end.

Definition c_pos {T : Type} (t : consumer_thread T) : option Z :=
  match c_pc t with
  | CLoadSeq pos | CCas pos | CReadData pos | CStoreSeq pos => Some pos
  | _ => None
  end.

(** * Part II: lemmas and theorems *)

(** ** Facts on machine integers *)

Lemma SIZE_MOD_eq : SIZE_MOD = 18446744073709551616.
Proof. reflexivity. Qed.

Lemma INTPTR_HALF_eq : INTPTR_HALF = 9223372036854775808.
Proof. reflexivity. Qed.

Lemma SIZE_MOD_half : SIZE_MOD = 2 * INTPTR_HALF.
Proof. reflexivity. Qed.

Lemma INTPTR_HALF_pos : 0 < INTPTR_HALF.
Proof. reflexivity. Qed.

Lemma SIZE_MOD_pos : 0 < SIZE_MOD.
Proof. reflexivity. Qed.

Global Opaque SIZE_MOD INTPTR_HALF.

Ltac size_t_range := split; vm_compute; [discriminate|reflexivity].

Lemma wrap_range z : is_size_t (wrap z).
Proof. apply Z.mod_pos_bound, SIZE_MOD_pos. Qed.

Lemma wrap_small z : is_size_t z -> wrap z = z.
Proof. apply Z.mod_small. Qed.

Lemma wrap_wrap z : wrap (wrap z) = wrap z.
Proof. apply wrap_small, wrap_range. Qed.

Lemma wrap_add_l a b : wrap (wrap a + b) = wrap (a + b).
Proof. unfold wrap. apply Zplus_mod_idemp_l. Qed.

Lemma wrap_add_r a b : wrap (a + wrap b) = wrap (a + b).
Proof. unfold wrap. apply Zplus_mod_idemp_r. Qed.

(** Adding one changes a [size_t] value. *)
Lemma wrap_succ_ne z : wrap (z + 1) <> wrap z.
Proof.
  unfold wrap. intros H. pose proof SIZE_MOD_pos as HM.
  assert (Hd : (z + 1 - z) mod SIZE_MOD = 0).
  { rewrite Zminus_mod, H, Z.sub_diag. apply Z.mod_0_l. lia. }
  replace (z + 1 - z) with 1 in Hd by ring.
  rewrite Z.mod_small in Hd; [lia|]. rewrite SIZE_MOD_eq. lia.
Qed.

(** The two's-complement difference of two [size_t] values only depends
    on their difference modulo [2^64]. *)
Lemma intptr_sub_cast a b :
  is_size_t a -> is_size_t b ->
  intptr_sub (to_intptr a) (to_intptr b) =
  (a - b + INTPTR_HALF) mod SIZE_MOD - INTPTR_HALF.
Proof.
  intros Ha Hb. unfold intptr_sub, to_intptr.
  pose proof SIZE_MOD_pos as HM.
  f_equal.
  destruct (a <? INTPTR_HALF), (b <? INTPTR_HALF).
  - reflexivity.
  - replace (a - (b - SIZE_MOD) + INTPTR_HALF)
      with (a - b + INTPTR_HALF + 1 * SIZE_MOD) by ring.
    apply Z_mod_plus_full.
  - replace (a - SIZE_MOD - b + INTPTR_HALF)
      with (a - b + INTPTR_HALF + (-1) * SIZE_MOD) by ring.
    apply Z_mod_plus_full.
  - f_equal. ring.
Qed.

(** When the wrapped difference of [a] and [b] is a small signed number
    [d], the code's [dif] is [d]. *)
Lemma intptr_sub_diff a b d :
  is_size_t a -> is_size_t b ->
  - INTPTR_HALF <= d < INTPTR_HALF ->
  wrap (a - b) = wrap d ->
  intptr_sub (to_intptr a) (to_intptr b) = d.
Proof.
  intros Ha Hb Hd Hab. rewrite intptr_sub_cast by assumption.
  unfold wrap in Hab.
  assert (E : (a - b + INTPTR_HALF) mod SIZE_MOD = (d + INTPTR_HALF) mod SIZE_MOD).
  { rewrite <- (Zplus_mod_idemp_l (a - b)), Hab, Zplus_mod_idemp_l. reflexivity. }
  rewrite E, Z.mod_small; [lia|]. rewrite SIZE_MOD_half. lia.
Qed.

Lemma intptr_sub_zero a b :
  is_size_t a -> is_size_t b ->
  intptr_sub (to_intptr a) (to_intptr b) = 0 <-> a = b.
Proof.
  intros Ha Hb. split.
  - rewrite intptr_sub_cast by assumption. intros H.
    pose proof SIZE_MOD_pos as HM. pose proof INTPTR_HALF_pos as HH.
    pose proof (Z.div_mod (a - b + INTPTR_HALF) SIZE_MOD ltac:(lia)) as Hdm.
    unfold is_size_t in *. rewrite SIZE_MOD_half in *.
    set (k := (a - b + INTPTR_HALF) / (2 * INTPTR_HALF)) in *.
    assert (k = 0) by (destruct (Z.lt_trichotomy k 0) as [|[|]]; nia).
    subst k. lia.
  - intros ->. apply intptr_sub_diff; try assumption.
    + pose proof INTPTR_HALF_pos. lia.
    + rewrite Z.sub_diag. reflexivity.
Qed.

(** ** Powers of two and the mask test *)

Lemma land_double_odd a b : Z.land (2 * a) (2 * b + 1) = 2 * Z.land a b.
Proof.
  apply Z.bits_inj'. intros n Hn. rewrite Z.land_spec.
  destruct (Z.eq_dec n 0) as [->|Hne].
  - rewrite !Z.testbit_even_0. reflexivity.
  - replace n with (Z.succ (n - 1)) by lia.
    rewrite !Z.testbit_even_succ, Z.testbit_odd_succ, Z.land_spec by lia.
    reflexivity.
Qed.

Lemma land_odd_double a : Z.land (2 * a + 1) (2 * a) = 2 * a.
Proof.
  apply Z.bits_inj'. intros n Hn. rewrite Z.land_spec.
  destruct (Z.eq_dec n 0) as [->|Hne].
  - rewrite Z.testbit_even_0, Z.testbit_odd_0. reflexivity.
  - replace n with (Z.succ (n - 1)) by lia.
    rewrite Z.testbit_even_succ, Z.testbit_odd_succ by lia.
    apply andb_diag.
Qed.

Lemma is_pow2_double n : 0 < n -> is_pow2 (2 * n) <-> is_pow2 n.
Proof.
  intros Hn. split; intros (k & Hk & E).
  - destruct (Z.eq_dec k 0) as [->|Hk0]; [simpl in E; lia|].
    exists (k - 1). split; [lia|].
    replace k with (Z.succ (k - 1)) in E by lia.
    rewrite Z.pow_succ_r in E by lia. lia.
  - exists (Z.succ k). split; [lia|]. rewrite Z.pow_succ_r by lia. lia.
Qed.

Lemma is_pow2_odd n : 0 < n -> ~ is_pow2 (2 * n + 1).
Proof.
  intros Hn (k & Hk & E).
  destruct (Z.eq_dec k 0) as [->|Hk0]; [simpl in E; lia|].
  replace k with (Z.succ (k - 1)) in E by lia.
  rewrite Z.pow_succ_r in E by lia. lia.
Qed.

(** The classic bit trick: a positive number has no bit in common with
    its predecessor exactly when it is a power of two. *)
Lemma land_pred_pow2 (p : positive) :
  Z.land (Z.pos p) (Z.pos p - 1) = 0 <-> is_pow2 (Z.pos p).
Proof.
  induction p as [p IH|p IH|].
  - rewrite Pos2Z.inj_xI.
    replace (2 * Z.pos p + 1 - 1) with (2 * Z.pos p) by lia.
    rewrite land_odd_double. split; [lia|].
    intros H. exfalso. revert H. apply is_pow2_odd. lia.
  - rewrite Pos2Z.inj_xO.
    replace (2 * Z.pos p - 1) with (2 * (Z.pos p - 1) + 1) by lia.
    rewrite land_double_odd, is_pow2_double by lia.
    rewrite <- IH. lia.
  - split; [|reflexivity]. intros _. exists 0. split; [lia|reflexivity].
Qed.

Lemma is_pow2_log n :
  is_pow2 n -> 2 <= n < SIZE_MOD ->
  exists k, 1 <= k < SIZE_BITS /\ n = 2 ^ k.
Proof.
  intros (k & Hk & ->) [Hlo Hhi]. exists k. split; [|reflexivity].
  rewrite SIZE_MOD_eq in Hhi. unfold SIZE_BITS. split.
  - destruct (Z.eq_dec k 0) as [->|]; [simpl in Hlo; lia|lia].
  - destruct (Z_lt_le_dec k 64) as [|Hge]; [assumption|exfalso].
    pose proof (Z.pow_le_mono_r 2 64 k ltac:(lia) Hge) as Hp.
    change (2 ^ 64) with 18446744073709551616 in Hp. lia.
Qed.

(** The constructor's [assert] accepts exactly the powers of two from 2
    up, as far as [size_t] reaches. *)
Lemma valid_buffer_size_spec n :
  is_size_t n ->
  valid_buffer_size n = true <-> 2 <= n /\ is_pow2 n.
Proof.
  intros Hn. unfold valid_buffer_size.
  rewrite andb_true_iff, Z.leb_le, Z.eqb_eq.
  split; intros [H2 H]; (split; [assumption|]).
  - rewrite wrap_small in H by (unfold is_size_t in *; lia).
    destruct n as [|p|p]; try lia. apply land_pred_pow2, H.
  - rewrite wrap_small by (unfold is_size_t in *; lia).
    destruct n as [|p|p]; try lia. apply land_pred_pow2, H.
Qed.

Lemma valid_buffer_size_log n :
  is_size_t n -> valid_buffer_size n = true ->
  exists k, 1 <= k < SIZE_BITS /\ n = 2 ^ k.
Proof.
  intros Hn Hv. apply valid_buffer_size_spec in Hv as [H2 Hp]; [|assumption].
  apply is_pow2_log; [assumption|]. unfold is_size_t in Hn. lia.
Qed.

(** ** Ring arithmetic *)

Lemma capacity_ok_bounds n : capacity_ok n -> 2 <= n <= INTPTR_HALF.
Proof.
  intros (k & [Hk1 Hk2] & ->). unfold SIZE_BITS in Hk2. split.
  - change 2 with (2 ^ 1) at 1. apply Z.pow_le_mono_r; lia.
  - rewrite INTPTR_HALF_eq. change 9223372036854775808 with (2 ^ 63).
    apply Z.pow_le_mono_r; lia.
Qed.

Lemma capacity_ok_divide n : capacity_ok n -> (n | SIZE_MOD).
Proof.
  intros (k & [Hk1 Hk2] & ->). unfold SIZE_BITS in Hk2.
  exists (2 ^ (64 - k)). rewrite <- Z.pow_add_r by lia.
  replace (64 - k + k) with 64 by lia. rewrite SIZE_MOD_eq. reflexivity.
Qed.

Lemma capacity_ok_size_t n : capacity_ok n -> is_size_t n.
Proof.
  intros H. apply capacity_ok_bounds in H.
  unfold is_size_t. rewrite SIZE_MOD_half. pose proof INTPTR_HALF_pos. lia.
Qed.

Lemma valid_buffer_size_capacity n :
  is_size_t n -> valid_buffer_size n = true -> capacity_ok n.
Proof. apply valid_buffer_size_log. Qed.

(** [pos & buffer_mask_] is the position modulo the capacity, also for a
    position that has wrapped. *)
Lemma land_mask n z :
  capacity_ok n -> Z.land (wrap z) (n - 1) = z mod n.
Proof.
  intros Hn. pose proof (capacity_ok_divide n Hn) as Hdiv.
  pose proof (capacity_ok_bounds n Hn) as Hb.
  destruct Hn as (k & [Hk1 Hk2] & ->).
  replace (2 ^ k - 1) with (Z.ones k) by (rewrite Z.ones_equiv; lia).
  rewrite Z.land_ones by lia. unfold wrap.
  apply Z.mod_mod_divide. assumption.
Qed.

Lemma mod_window_inj n D p p' :
  0 < n -> D <= p < D + n -> D <= p' < D + n ->
  p mod n = p' mod n -> p = p'.
Proof.
  intros Hn Hp Hp' E.
  assert (Hd : (p - p') mod n = 0).
  { rewrite Zminus_mod, E, Z.sub_diag. apply Z.mod_0_l. lia. }
  apply Z.mod_divide in Hd; [|lia]. destruct Hd as [c Hc].
  assert (c = 0) by (destruct (Z.lt_trichotomy c 0) as [|[|]]; nia).
  subst c. lia.
Qed.

Lemma mod_index_lt n p : 0 < n -> (Z.to_nat (p mod n) < Z.to_nat n)%nat.
Proof. intros Hn. pose proof (Z.mod_pos_bound p n Hn). lia. Qed.

Lemma mod_index_inj n D p p' :
  0 < n -> D <= p < D + n -> D <= p' < D + n ->
  Z.to_nat (p mod n) = Z.to_nat (p' mod n) -> p = p'.
Proof.
  intros Hn Hp Hp' E. apply (mod_window_inj n D); try assumption.
  pose proof (Z.mod_pos_bound p n Hn). pose proof (Z.mod_pos_bound p' n Hn). lia.
Qed.

Lemma wrap_shift_cap n z : capacity_ok n -> (z + n) mod n = z mod n.
Proof.
  intros Hn. apply capacity_ok_bounds in Hn.
  replace (z + n) with (z + 1 * n) by ring. apply Z_mod_plus_full.
Qed.

Lemma window_position n D i :
  0 < n -> 0 <= D -> 0 <= i < n ->
  exists k, 0 <= k /\ D <= k * n + i < D + n.
Proof.
  intros Hn HD Hi. set (p := D + (i - D) mod n).
  pose proof (Z.mod_pos_bound (i - D) n Hn) as Hm.
  assert (Hp : p mod n = i).
  { unfold p. rewrite Zplus_mod_idemp_r.
    replace (D + (i - D)) with i by ring. apply Z.mod_small. assumption. }
  exists (p / n). split.
  - apply Z.div_pos; lia.
  - pose proof (Z.div_mod p n ltac:(lia)) as Hdm. rewrite Hp in Hdm.
    replace (p / n * n + i) with p by lia. unfold p. lia.
Qed.

(** ** The loops on an arbitrary state *)

Section AnyState.
Context {T : Type}.
Implicit Types (q : MPMCQueue T) (v out : T) (cell : Cell T).

(** Whatever the state, a returning [enqueue] either claimed the
    position the producer counter held, wrote the value and published
    the slot, or changed nothing. *)
Lemma enqueue_loop_result fuel : forall spurious q v ok q',
  enqueue_loop fuel spurious q (enqueue_pos_ q) v = Done (ok, q') ->
  let pos := enqueue_pos_ q in
  let idx := Z.to_nat (Z.land pos (buffer_mask_ q)) in
  if ok
  then is_Some (buffer_ q !! idx) /\
       q' = mkQueue
              (store_sequence (store_data (buffer_ q) idx v) idx (wrap (pos + 1)))
              (buffer_mask_ q) (wrap (pos + 1)) (dequeue_pos_ q)
  else q' = q.
Proof.
  induction fuel as [|fuel IH]; intros spurious q v ok q'; [discriminate|].
  simpl enqueue_loop.
  destruct (buffer_ q !! Z.to_nat (Z.land (enqueue_pos_ q) (buffer_mask_ q)))
    as [cell|] eqn:Hcell; [|discriminate].
  destruct (_ =? 0).
  - unfold compare_exchange_weak. rewrite Z.eqb_refl.
    destruct spurious as [|s]; simpl.
    + intros [= <- <-]. simpl. rewrite Hcell. split; [eauto|reflexivity].
    + apply IH.
  - destruct (_ <? 0).
    + intros [= <- <-]. reflexivity.
    + apply IH.
Qed.

(** The same for [dequeue]; a failing call also leaves [out] alone. *)
Lemma dequeue_loop_result fuel : forall spurious q out ok out' q',
  dequeue_loop fuel spurious q (dequeue_pos_ q) out = Done (ok, out', q') ->
  let pos := dequeue_pos_ q in
  let idx := Z.to_nat (Z.land pos (buffer_mask_ q)) in
  if ok
  then (exists cell, buffer_ q !! idx = Some cell /\ out' = data cell) /\
       q' = mkQueue
              (store_sequence (buffer_ q) idx (wrap (pos + buffer_mask_ q + 1)))
              (buffer_mask_ q) (enqueue_pos_ q) (wrap (pos + 1))
  else out' = out /\ q' = q.
Proof.
  induction fuel as [|fuel IH]; intros spurious q out ok out' q'; [discriminate|].
  simpl dequeue_loop.
  destruct (buffer_ q !! Z.to_nat (Z.land (dequeue_pos_ q) (buffer_mask_ q)))
    as [cell|] eqn:Hcell; [|discriminate].
  destruct (_ =? 0).
  - unfold compare_exchange_weak. rewrite Z.eqb_refl.
    destruct spurious as [|s]; simpl.
    + intros [= <- <- <-]. simpl. rewrite Hcell. split; [eauto|reflexivity].
    + apply IH.
  - destruct (_ <? 0).
    + intros [= <- <- <-]. split; reflexivity.
    + apply IH.
Qed.

Lemma write_ready_iff cell pos :
  is_size_t (sequence cell) -> is_size_t pos ->
  write_ready cell pos = true <-> sequence cell = pos.
Proof.
  intros Hs Hp. unfold write_ready. rewrite Z.eqb_eq.
  apply intptr_sub_zero; assumption.
Qed.

Lemma read_ready_iff cell pos :
  is_size_t (sequence cell) ->
  read_ready cell pos = true <-> sequence cell = wrap (pos + 1).
Proof.
  intros Hs. unfold read_ready. rewrite Z.eqb_eq.
  apply intptr_sub_zero; [assumption|apply wrap_range].
Qed.

End AnyState.

(** ** The loops on a state that satisfies the invariant *)

Section Invariant.
Context {T : Type}.
Implicit Types (q : MPMCQueue T) (l : list T) (c : Cell T) (v : T).

Lemma Inv_index n q E D l z :
  Inv n q E D l ->
  Z.to_nat (Z.land (wrap z) (buffer_mask_ q)) = Z.to_nat (z mod n).
Proof. intros H. rewrite (inv_mask _ _ _ _ _ H), land_mask; [reflexivity|apply H]. Qed.

Lemma enqueue_loop_room n q E D l v fuel spurious :
  Inv n q E D l -> E < D + n ->
  enqueue_loop fuel spurious q (wrap E) v =
  if (spurious <? fuel)%nat then Done (true, enqueue_post n q E v) else Spinning.
Proof.
  intros HI Hroom. revert spurious.
  destruct (inv_slots _ _ _ _ _ HI E) as (c & Hc & Hs);
    [pose proof (inv_order _ _ _ _ _ HI); lia|].
  rewrite (proj2 (Z.ltb_ge E E)) in Hs by lia.
  assert (Hdif : intptr_sub (to_intptr (wrap E)) (to_intptr (wrap E)) = 0).
  { apply intptr_sub_diff; try apply wrap_range.
    - pose proof INTPTR_HALF_pos; lia.
    - rewrite Z.sub_diag. reflexivity. }
  induction fuel as [|fuel IH]; intros spurious; [reflexivity|].
  simpl enqueue_loop.
  rewrite (Inv_index n q E D l E HI), Hc, Hs, Hdif. simpl.
  unfold compare_exchange_weak.
  rewrite (inv_enqueue_pos _ _ _ _ _ HI), Z.eqb_refl.
  destruct spurious as [|s]; simpl.
  - unfold enqueue_post, with_buffer, with_enqueue_pos. simpl.
    rewrite wrap_add_l. reflexivity.
  - apply IH.
Qed.

Lemma enqueue_loop_full n q E D l v fuel spurious :
  Inv n q E D l -> E = D + n ->
  enqueue_loop (S fuel) spurious q (wrap E) v = Done (false, q).
Proof.
  intros HI Hfull. pose proof (inv_capacity _ _ _ _ _ HI) as Hn.
  pose proof (capacity_ok_bounds n Hn) as Hb.
  destruct (inv_slots _ _ _ _ _ HI D) as (c & Hc & Hs); [lia|].
  rewrite (proj2 (Z.ltb_lt D E)) in Hs by lia. destruct Hs as [Hs _].
  simpl. rewrite (Inv_index n q E D l E HI).
  replace (E mod n) with (D mod n) by (subst E; symmetry; apply wrap_shift_cap, Hn).
  rewrite Hc, Hs.
  rewrite (intptr_sub_diff _ _ (1 - n)).
  - destruct (Z.eqb_spec (1 - n) 0); [lia|].
    destruct (Z.ltb_spec (1 - n) 0); [reflexivity|lia].
  - apply wrap_range.
  - apply wrap_range.
  - lia.
  - unfold wrap. rewrite <- Zminus_mod. f_equal. lia.
Qed.

Lemma store_lookup_eq (buf : list (Cell T)) i c v s :
  buf !! i = Some c ->
  store_sequence (store_data buf i v) i s !! i = Some (mkCell s v).
Proof.
  intros Hc. unfold store_sequence, store_data.
  rewrite !list_lookup_alter_eq, Hc. reflexivity.
Qed.

Lemma store_lookup_ne (buf : list (Cell T)) i j v s :
  i <> j -> store_sequence (store_data buf i v) i s !! j = buf !! j.
Proof.
  intros Hne. unfold store_sequence, store_data.
  rewrite !list_lookup_alter_ne by assumption. reflexivity.
Qed.

Lemma enqueue_post_Inv n q E D l v :
  Inv n q E D l -> E < D + n -> Inv n (enqueue_post n q E v) (E + 1) D (l ++ [v]).
Proof.
  intros HI Hroom. pose proof (inv_order _ _ _ _ _ HI) as Ho.
  pose proof (inv_items _ _ _ _ _ HI) as Hl.
  pose proof (capacity_ok_bounds n (inv_capacity _ _ _ _ _ HI)) as Hb.
  split; simpl; try apply HI.
  - unfold store_sequence, store_data. rewrite !length_alter. apply HI.
  - reflexivity.
  - lia.
  - rewrite length_app. simpl. lia.
  - intros p Hp. destruct (Z.eq_dec p E) as [->|Hne].
    + destruct (inv_slots _ _ _ _ _ HI E) as (c & Hc & _); [lia|].
      exists (mkCell (wrap (E + 1)) v). split.
      * unfold enqueue_post. simpl. eapply store_lookup_eq, Hc.
      * rewrite (proj2 (Z.ltb_lt E (E + 1))) by lia. simpl. split; [reflexivity|].
        rewrite lookup_app_r by lia.
        replace (Z.to_nat (E - D) - length l)%nat with 0%nat by lia. reflexivity.
    + destruct (inv_slots _ _ _ _ _ HI p Hp) as (c & Hc & Hs).
      exists c. split.
      * unfold enqueue_post. simpl. rewrite store_lookup_ne; [assumption|].
        intros Hi. apply Hne. symmetry.
        apply (mod_index_inj n D); [lia|lia|assumption|assumption].
      * destruct (Z.ltb_spec p E) as [Hlt|Hge].
        -- rewrite (proj2 (Z.ltb_lt p (E + 1))) by lia.
           destruct Hs as [Hs Hd]. split; [assumption|].
           rewrite lookup_app_l by lia. assumption.
        -- rewrite (proj2 (Z.ltb_ge p (E + 1))) by lia. assumption.
Qed.

Lemma dequeue_loop_ready n q E D x l out fuel spurious :
  Inv n q E D (x :: l) ->
  dequeue_loop fuel spurious q (wrap D) out =
  if (spurious <? fuel)%nat then Done (true, x, dequeue_post n q D) else Spinning.
Proof.
  intros HI. revert spurious.
  pose proof (inv_order _ _ _ _ _ HI) as Ho.
  pose proof (inv_items _ _ _ _ _ HI) as Hl. simpl length in Hl.
  pose proof (capacity_ok_bounds n (inv_capacity _ _ _ _ _ HI)) as Hb.
  destruct (inv_slots _ _ _ _ _ HI D) as (c & Hc & Hs); [lia|].
  rewrite (proj2 (Z.ltb_lt D E)) in Hs by lia. destruct Hs as [Hs Hd].
  rewrite Z.sub_diag in Hd. simpl in Hd. injection Hd as Hd.
  assert (Hdif : intptr_sub (to_intptr (wrap (D + 1)))
                            (to_intptr (wrap (wrap D + 1))) = 0).
  { apply intptr_sub_diff; try apply wrap_range.
    - pose proof INTPTR_HALF_pos; lia.
    - rewrite wrap_add_l, Z.sub_diag. reflexivity. }
  induction fuel as [|fuel IH]; intros spurious; [reflexivity|].
  simpl dequeue_loop.
  rewrite (Inv_index n q E D (x :: l) D HI), Hc, Hs, Hdif. simpl.
  unfold compare_exchange_weak.
  rewrite (inv_dequeue_pos _ _ _ _ _ HI), Z.eqb_refl.
  destruct spurious as [|s]; simpl.
  - unfold dequeue_post, with_buffer, with_dequeue_pos. simpl.
    rewrite (inv_mask _ _ _ _ _ HI), wrap_add_l.
    replace (wrap D + (n - 1) + 1) with (wrap D + n) by ring.
    rewrite wrap_add_l, Hd. reflexivity.
  - apply IH.
Qed.

Lemma dequeue_loop_empty n q E D l out fuel spurious :
  Inv n q E D l -> D = E ->
  dequeue_loop (S fuel) spurious q (wrap D) out = Done (false, out, q).
Proof.
  intros HI Hempty.
  pose proof (capacity_ok_bounds n (inv_capacity _ _ _ _ _ HI)) as Hb.
  destruct (inv_slots _ _ _ _ _ HI D) as (c & Hc & Hs); [lia|].
  rewrite (proj2 (Z.ltb_ge D E)) in Hs by lia.
  simpl. rewrite (Inv_index n q E D l D HI), Hc, Hs.
  rewrite (intptr_sub_diff _ _ (-1)).
  - reflexivity.
  - apply wrap_range.
  - apply wrap_range.
  - pose proof INTPTR_HALF_pos. lia.
  - rewrite wrap_add_l. unfold wrap. rewrite <- Zminus_mod. f_equal. lia.
Qed.

Lemma dequeue_post_Inv n q E D x l :
  Inv n q E D (x :: l) -> Inv n (dequeue_post n q D) E (D + 1) l.
Proof.
  intros HI. pose proof (inv_order _ _ _ _ _ HI) as Ho.
  pose proof (inv_items _ _ _ _ _ HI) as Hl. simpl length in Hl.
  pose proof (inv_capacity _ _ _ _ _ HI) as Hn.
  pose proof (capacity_ok_bounds n Hn) as Hb.
  split; simpl; try apply HI.
  - unfold store_sequence. rewrite length_alter. apply HI.
  - reflexivity.
  - lia.
  - lia.
  - intros p Hp. destruct (Z.eq_dec p (D + n)) as [->|Hne].
    + destruct (inv_slots _ _ _ _ _ HI D) as (c & Hc & _); [lia|].
      exists (mkCell (wrap (D + n)) (data c)). split.
      * unfold dequeue_post, store_sequence. simpl.
        rewrite wrap_shift_cap by assumption.
        rewrite list_lookup_alter_eq, Hc. reflexivity.
      * rewrite (proj2 (Z.ltb_ge (D + n) E)) by lia. reflexivity.
    + destruct (inv_slots _ _ _ _ _ HI p) as (c & Hc & Hs); [lia|].
      exists c. split.
      * unfold dequeue_post, store_sequence. simpl.
        rewrite list_lookup_alter_ne; [assumption|].
        intros Hi. apply (mod_index_inj n D) in Hi; lia.
      * destruct (p <? E); [|assumption].
        destruct Hs as [Hs Hd]. split; [assumption|].
        replace (Z.to_nat (p - D)) with (S (Z.to_nat (p - (D + 1)))) in Hd by lia.
        exact Hd.
Qed.

Lemma omap_seq_lookup (f : nat -> option T) l : forall k,
  (forall j x, l !! j = Some x -> f (k + j)%nat = Some x) ->
  omap f (seq k (length l)) = l.
Proof.
  induction l as [|x l IH]; intros k Hf; [reflexivity|].
  simpl. rewrite <- (Nat.add_0_r k) at 1. rewrite (Hf 0%nat x eq_refl).
  f_equal. apply IH. intros j y Hj.
  replace (S k + j)%nat with (k + S j)%nat by lia. apply Hf. exact Hj.
Qed.

Lemma Inv_resident n q E D l :
  Inv n q E D l -> wrap (enqueue_pos_ q - dequeue_pos_ q) = E - D.
Proof.
  intros HI. rewrite (inv_enqueue_pos _ _ _ _ _ HI), (inv_dequeue_pos _ _ _ _ _ HI).
  pose proof (inv_order _ _ _ _ _ HI) as Ho.
  pose proof (capacity_ok_bounds n (inv_capacity _ _ _ _ _ HI)) as Hb.
  unfold wrap. rewrite <- Zminus_mod. apply Z.mod_small.
  rewrite SIZE_MOD_half. pose proof INTPTR_HALF_pos. lia.
Qed.

Lemma Inv_contents n q E D l : Inv n q E D l -> contents q = l.
Proof.
  intros HI. unfold contents.
  rewrite (Inv_resident n q E D l HI), <- (inv_items _ _ _ _ _ HI), Nat2Z.id.
  apply omap_seq_lookup. intros j x Hj. simpl.
  pose proof (lookup_lt_Some _ _ _ Hj) as Hlt.
  pose proof (inv_items _ _ _ _ _ HI) as Hl.
  rewrite (inv_dequeue_pos _ _ _ _ _ HI), wrap_add_l.
  rewrite (Inv_index n q E D l _ HI).
  destruct (inv_slots _ _ _ _ _ HI (D + Z.of_nat j)) as (c & Hc & Hs).
  { pose proof (inv_order _ _ _ _ _ HI). lia. }
  rewrite Hc. simpl.
  rewrite (proj2 (Z.ltb_lt _ _)) in Hs by lia. destruct Hs as [_ Hd].
  replace (Z.to_nat (D + Z.of_nat j - D)) with j in Hd by lia.
  congruence.
Qed.

End Invariant.

(** ** The freshly constructed queue *)

Section Fresh.
Context {T : Type}.
Variable T0 : T.
Implicit Types (q : MPMCQueue T) (buf : list (Cell T)).

Lemma init_sequences_length buf m :
  length (init_sequences buf m) = length buf.
Proof.
  unfold init_sequences. induction m as [|m IH]; [reflexivity|].
  rewrite seq_S, fold_left_app. simpl.
  unfold store_sequence at 1. rewrite length_alter. exact IH.
Qed.

Lemma init_sequences_lookup buf m i :
  init_sequences buf m !! i =
  if decide (i < m)%nat
  then (fun c => mkCell (Z.of_nat i) (data c)) <$> buf !! i
  else buf !! i.
Proof.
  unfold init_sequences. induction m as [|m IH].
  - simpl. destruct (decide (i < 0)%nat); [lia|reflexivity].
  - rewrite seq_S, fold_left_app. simpl. unfold store_sequence at 1.
    destruct (decide (i = m)) as [->|Hne].
    + rewrite list_lookup_alter_eq, IH.
      destruct (decide (m < m)%nat); [lia|].
      destruct (decide (m < S m)%nat); [|lia].
      destruct (buf !! m); reflexivity.
    + rewrite list_lookup_alter_ne by congruence. rewrite IH.
      destruct (decide (i < m)%nat), (decide (i < S m)%nat); try lia; reflexivity.
Qed.

Lemma ctor_Some n q :
  MPMCQueue_ctor T0 n = Some q ->
  valid_buffer_size n = true /\
  q = mkQueue
        (init_sequences (replicate (Z.to_nat n) (mkCell 0 T0)) (Z.to_nat n))
        (wrap (n - 1)) 0 0.
Proof.
  unfold MPMCQueue_ctor. destruct (valid_buffer_size n); [|discriminate].
  intros [= <-]. split; reflexivity.
Qed.

Lemma ctor_lookup n q i :
  MPMCQueue_ctor T0 n = Some q -> 0 <= i < n ->
  buffer_ q !! Z.to_nat i = Some (mkCell i T0).
Proof.
  intros Hq Hi. apply ctor_Some in Hq as [_ ->]. simpl.
  rewrite init_sequences_lookup.
  destruct (decide (Z.to_nat i < Z.to_nat n)%nat); [|lia].
  rewrite lookup_replicate_2 by assumption. simpl.
  rewrite Z2Nat.id by lia. reflexivity.
Qed.

(** A fresh queue satisfies the invariant with nothing enqueued. *)
Lemma ctor_Inv n q :
  is_size_t n -> MPMCQueue_ctor T0 n = Some q -> Inv n q 0 0 [].
Proof.
  intros Hn Hq. pose proof (ctor_Some n q Hq) as [Hv Eq].
  pose proof (valid_buffer_size_capacity n Hn Hv) as Hc.
  pose proof (capacity_ok_bounds n Hc) as Hb.
  split.
  - exact Hc.
  - subst q. simpl. rewrite init_sequences_length. apply length_replicate.
  - subst q. simpl. apply wrap_small. unfold is_size_t in *. lia.
  - subst q. reflexivity.
  - subst q. reflexivity.
  - lia.
  - reflexivity.
  - intros p Hp. exists (mkCell p T0). split.
    + rewrite Z.mod_small by lia. apply (ctor_lookup n); [assumption|lia].
    + rewrite (proj2 (Z.ltb_ge p 0)) by lia. simpl.
      symmetry. apply wrap_small. unfold is_size_t in *. lia.
Qed.

End Fresh.

(** ** One call on a state that satisfies the invariant *)

Section Simulation.
Context {T : Type}.
Implicit Types (q : MPMCQueue T) (l : list T) (v : T) (c : call T).

Lemma Inv_full_or_room n q E D l :
  Inv n q E D l -> {E < D + n} + {E = D + n}.
Proof.
  intros HI. destruct (Z_lt_le_dec E (D + n)); [left; assumption|right].
  pose proof (inv_order _ _ _ _ _ HI). lia.
Qed.

Lemma enqueue_Done_inv n q E D l v fuel spurious ok q' :
  Inv n q E D l ->
  enqueue fuel spurious q v = Done (ok, q') ->
  (ok = true /\ E < D + n /\ q' = enqueue_post n q E v) \/
  (ok = false /\ E = D + n /\ q' = q).
Proof.
  intros HI. unfold enqueue. rewrite (inv_enqueue_pos _ _ _ _ _ HI).
  destruct (Inv_full_or_room n q E D l HI) as [Hroom|Hfull].
  - rewrite (enqueue_loop_room n q E D l) by assumption.
    destruct (spurious <? fuel)%nat; [|discriminate].
    intros [= <- <-]. left. auto.
  - destruct fuel as [|fuel]; [discriminate|].
    rewrite (enqueue_loop_full n q E D l) by assumption.
    intros [= <- <-]. right. auto.
Qed.

Lemma enqueue_total n q E D l v fuel spurious :
  Inv n q E D l -> (spurious < fuel)%nat ->
  enqueue fuel spurious q v =
  if E <? D + n then Done (true, enqueue_post n q E v) else Done (false, q).
Proof.
  intros HI Hf. unfold enqueue. rewrite (inv_enqueue_pos _ _ _ _ _ HI).
  destruct (Inv_full_or_room n q E D l HI) as [Hroom|Hfull].
  - rewrite (enqueue_loop_room n q E D l) by assumption.
    rewrite (proj2 (Nat.ltb_lt _ _) Hf), (proj2 (Z.ltb_lt _ _) Hroom). reflexivity.
  - destruct fuel as [|fuel]; [lia|].
    rewrite (enqueue_loop_full n q E D l) by assumption.
    rewrite (proj2 (Z.ltb_ge _ _)) by lia. reflexivity.
Qed.

Lemma Inv_empty n q E D : Inv n q E D [] -> D = E.
Proof. intros HI. pose proof (inv_items _ _ _ _ _ HI) as H. simpl in H. lia. Qed.

Lemma dequeue_Done_inv n q E D l out fuel spurious ok out' q' :
  Inv n q E D l ->
  dequeue fuel spurious q out = Done (ok, out', q') ->
  match l with
  | [] => ok = false /\ out' = out /\ q' = q
  | x :: _ => ok = true /\ out' = x /\ q' = dequeue_post n q D
  end.
Proof.
  intros HI. unfold dequeue. rewrite (inv_dequeue_pos _ _ _ _ _ HI).
  destruct l as [|x l].
  - destruct fuel as [|fuel]; [discriminate|].
    rewrite (dequeue_loop_empty n q E D [])
      by first [assumption | apply (Inv_empty n q), HI].
    intros [= <- <- <-]. auto.
  - rewrite (dequeue_loop_ready n q E D x l) by assumption.
    destruct (spurious <? fuel)%nat; [|discriminate].
    intros [= <- <- <-]. auto.
Qed.

Lemma dequeue_total n q E D l out fuel spurious :
  Inv n q E D l -> (spurious < fuel)%nat ->
  dequeue fuel spurious q out =
  match l with
  | [] => Done (false, out, q)
  | x :: _ => Done (true, x, dequeue_post n q D)
  end.
Proof.
  intros HI Hf. unfold dequeue. rewrite (inv_dequeue_pos _ _ _ _ _ HI).
  destruct l as [|x l].
  - destruct fuel as [|fuel]; [lia|].
    apply (dequeue_loop_empty n q E D []); [assumption|].
    apply (Inv_empty n q), HI.
  - rewrite (dequeue_loop_ready n q E D x l) by assumption.
    rewrite (proj2 (Nat.ltb_lt _ _) Hf). reflexivity.
Qed.

(** A call that returns moves the queue as the abstract FIFO moves, and
    gives the abstract answer. *)
Lemma step_simulation n q E D l c fuel a q' :
  Inv n q E D l ->
  step fuel q c = Done (a, q') ->
  a = fst (fifo_step (mkFifo n l) c) /\
  fifo_capacity (snd (fifo_step (mkFifo n l) c)) = n /\
  Inv n q' (E + enqueued [a]) (D + dequeued [a])
      (fifo_items (snd (fifo_step (mkFifo n l) c))).
Proof.
  intros HI. pose proof (inv_items _ _ _ _ _ HI) as Hl.
  destruct c as [v spurious|out spurious]; simpl.
  - destruct (enqueue fuel spurious q v) as [[ok q1]| |] eqn:He; try discriminate.
    simpl. intros [= <- <-].
    unfold fifo_tryEnqueue. simpl fifo_items. simpl fifo_capacity.
    apply (enqueue_Done_inv n q E D l) in He; [|assumption].
    destruct He as [(-> & Hroom & ->)|(-> & Hfull & ->)].
    + rewrite (proj2 (Z.ltb_lt _ _)) by lia. simpl.
      split; [reflexivity|split; [reflexivity|]]. replace (D + 0) with D by lia.
      apply enqueue_post_Inv; assumption.
    + rewrite (proj2 (Z.ltb_ge _ _)) by lia. simpl.
      split; [reflexivity|split; [reflexivity|]]. replace (E + 0) with E by lia. replace (D + 0) with D by lia.
      assumption.
  - destruct (dequeue fuel spurious q out) as [[[ok out1] q1]| |] eqn:Hd;
      try discriminate.
    simpl. intros [= <- <-].
    apply (dequeue_Done_inv n q E D l) in Hd; [|assumption].
    unfold fifo_tryDequeue. simpl fifo_items.
    destruct l as [|x l]; destruct Hd as (-> & -> & ->); simpl.
    + split; [reflexivity|split; [reflexivity|]]. replace (E + 0) with E by lia. replace (D + 0) with D by lia.
      assumption.
    + split; [reflexivity|split; [reflexivity|]]. replace (E + 0) with E by lia.
      apply (dequeue_post_Inv n q E D x l). assumption.
Qed.

(** With fuel beyond its spurious failures, a call returns. *)
Lemma step_total n q E D l c fuel :
  Inv n q E D l -> (call_spurious c < fuel)%nat ->
  exists a q', step fuel q c = Done (a, q').
Proof.
  intros HI Hf. destruct c as [v spurious|out spurious]; simpl in *.
  - rewrite (enqueue_total n q E D l) by assumption.
    destruct (E <? D + n); simpl; eauto.
  - rewrite (dequeue_total n q E D l) by assumption.
    destruct l; simpl; eauto.
Qed.

End Simulation.

(** ** Runs of calls *)

Section Runs.
Context {T : Type}.
Variable T0 : T.
Implicit Types (q : MPMCQueue T) (l : list T) (v : T) (c : call T).
Implicit Types (cs : list (call T)) (answers : list (answer T)).

Lemma enqueued_cons (a : answer T) answers :
  enqueued (a :: answers) = enqueued [a] + enqueued answers.
Proof. destruct a as [[|]|r]; simpl; lia. Qed.

Lemma dequeued_cons (a : answer T) answers :
  dequeued (a :: answers) = dequeued [a] + dequeued answers.
Proof. destruct a as [ok|[x|]]; simpl; lia. Qed.

Lemma enqueued_app answers1 answers2 :
  enqueued (answers1 ++ answers2) = enqueued answers1 + enqueued answers2.
Proof.
  induction answers1 as [|a r IH]; [reflexivity|].
  simpl app. rewrite (enqueued_cons a (r ++ _)), (enqueued_cons a r), IH. lia.
Qed.

Lemma dequeued_app answers1 answers2 :
  dequeued (answers1 ++ answers2) = dequeued answers1 + dequeued answers2.
Proof.
  induction answers1 as [|a r IH]; [reflexivity|].
  simpl app. rewrite (dequeued_cons a (r ++ _)), (dequeued_cons a r), IH. lia.
Qed.

Lemma run_cons fuel q c cs a q1 answers q2 :
  step fuel q c = Done (a, q1) ->
  run fuel q1 cs = Done (answers, q2) ->
  run fuel q (c :: cs) = Done (a :: answers, q2).
Proof. intros Hs Hr. simpl. rewrite Hs. simpl. rewrite Hr. reflexivity. Qed.

Lemma run_cons_inv fuel q c cs answers q2 :
  run fuel q (c :: cs) = Done (answers, q2) ->
  exists a q1 rest,
    step fuel q c = Done (a, q1) /\
    run fuel q1 cs = Done (rest, q2) /\
    answers = a :: rest.
Proof.
  simpl. destruct (step fuel q c) as [[a q1]| |]; try discriminate. simpl.
  destruct (run fuel q1 cs) as [[rest q3]| |] eqn:Hr; try discriminate. simpl.
  intros [= <- <-]. exists a, q1, rest. split; [reflexivity|]. split; [exact Hr|reflexivity].
Qed.

Lemma run_app fuel q cs1 cs2 answers1 q1 answers2 q2 :
  run fuel q cs1 = Done (answers1, q1) ->
  run fuel q1 cs2 = Done (answers2, q2) ->
  run fuel q (cs1 ++ cs2) = Done (answers1 ++ answers2, q2).
Proof.
  revert q answers1. induction cs1 as [|c cs1 IH]; intros q answers1 H1 H2.
  - simpl in H1. injection H1 as <- <-. exact H2.
  - apply run_cons_inv in H1 as (a & q' & rest & Hs & Hr & ->).
    simpl app. eapply run_cons; [exact Hs|]. eapply IH; eassumption.
Qed.

Lemma fifo_step_shape n l c :
  snd (fifo_step (mkFifo n l) c) =
  mkFifo n (fifo_items (snd (fifo_step (mkFifo n l) c))).
Proof.
  destruct c as [v s|out s]; simpl.
  - unfold fifo_tryEnqueue. simpl. destruct (_ <? _); reflexivity.
  - unfold fifo_tryDequeue. simpl. destruct l; reflexivity.
Qed.

(** Simulation along a run: the answers are the abstract queue's, and
    the invariant holds at the end with the counts of the run. *)
Lemma run_simulation n cs : forall q E D l fuel answers q',
  Inv n q E D l ->
  run fuel q cs = Done (answers, q') ->
  answers = fst (fifo_run (mkFifo n l) cs) /\
  Inv n q' (E + enqueued answers) (D + dequeued answers)
      (fifo_items (snd (fifo_run (mkFifo n l) cs))).
Proof.
  induction cs as [|c cs IH]; intros q E D l fuel answers q' HI Hrun.
  - simpl in Hrun. injection Hrun as <- <-. simpl.
    split; [reflexivity|]. replace (E + 0) with E by lia.
    replace (D + 0) with D by lia. assumption.
  - apply run_cons_inv in Hrun as (a & q1 & rest & Hs & Hr & ->).
    apply (step_simulation n q E D l) in Hs as (Ha & _ & HI1); [|assumption].
    simpl fifo_run. rewrite (surjective_pairing (fifo_step (mkFifo n l) c)).
    rewrite fifo_step_shape.
    apply IH with (fuel := fuel) (answers := rest) (q' := q') in HI1 as [Hrest HI2];
      [|assumption].
    rewrite (surjective_pairing (fifo_run _ cs)). cbn [fst snd].
    split; [congruence|].
    rewrite (enqueued_cons a rest), (dequeued_cons a rest), !Z.add_assoc.
    exact HI2.
Qed.

Lemma run_total n cs : forall q E D l fuel,
  Inv n q E D l ->
  Forall (fun c => (call_spurious c < fuel)%nat) cs ->
  exists answers q', run fuel q cs = Done (answers, q').
Proof.
  induction cs as [|c cs IH]; intros q E D l fuel HI Hf.
  - simpl. eauto.
  - apply Forall_cons_1 in Hf as [Hc Hcs].
    destruct (step_total n q E D l c fuel HI Hc) as (a & q1 & Hs).
    pose proof (step_simulation n q E D l c fuel a q1 HI Hs) as (_ & _ & HI1).
    destruct (IH _ _ _ _ fuel HI1 Hcs) as (rest & q2 & Hr).
    exists (a :: rest), q2. eapply run_cons; eassumption.
Qed.

(** Every state a single thread can reach satisfies the invariant. *)
Lemma reachable_Inv n q :
  reachable T0 n q -> exists E D l, Inv n q E D l.
Proof.
  induction 1 as [q Hn Hq|q fuel s v ok q' _ (E & D & l & HI) He
                 |q fuel s out ok out' q' _ (E & D & l & HI) Hd].
  - exists 0, 0, []. apply (ctor_Inv T0); assumption.
  - apply (enqueue_Done_inv n q E D l) in He; [|assumption].
    destruct He as [(_ & Hroom & ->)|(_ & _ & ->)].
    + exists (E + 1), D, (l ++ [v]). apply enqueue_post_Inv; assumption.
    + eauto.
  - apply (dequeue_Done_inv n q E D l) in Hd; [|assumption].
    destruct l as [|x l]; destruct Hd as (_ & _ & ->).
    + eauto.
    + exists E, (D + 1), l. apply (dequeue_post_Inv n q E D x l). assumption.
Qed.

Lemma step_reachable n q c fuel a q' :
  reachable T0 n q -> step fuel q c = Done (a, q') -> reachable T0 n q'.
Proof.
  intros Hr. destruct c as [v s|out s]; simpl.
  - destruct (enqueue fuel s q v) as [[ok q1]| |] eqn:He; try discriminate.
    simpl. intros [= _ <-]. eapply reach_enqueue; eassumption.
  - destruct (dequeue fuel s q out) as [[[ok out1] q1]| |] eqn:Hd; try discriminate.
    simpl. intros [= _ <-]. eapply reach_dequeue; eassumption.
Qed.

Lemma run_reachable n cs : forall q fuel answers q',
  reachable T0 n q -> run fuel q cs = Done (answers, q') -> reachable T0 n q'.
Proof.
  induction cs as [|c cs IH]; intros q fuel answers q' Hr Hrun.
  - simpl in Hrun. injection Hrun as _ <-. assumption.
  - apply run_cons_inv in Hrun as (a & q1 & rest & Hs & Hrest & _).
    eapply IH; [|exact Hrest]. eapply step_reachable; eassumption.
Qed.

End Runs.

Lemma enqueued_single_range {T : Type} (a : answer T) : 0 <= enqueued [a] <= 1.
Proof. destruct a as [[|]|r]; simpl; lia. Qed.

Lemma dequeued_single_range {T : Type} (a : answer T) : 0 <= dequeued [a] <= 1.
Proof. destruct a as [ok|[x|]]; simpl; lia. Qed.

Lemma fifo_run_enqueues {T : Type} (n : Z) (vs : list (T * nat)) : forall l,
  Z.of_nat (length l) + Z.of_nat (length vs) <= n ->
  fifo_run (mkFifo n l) (map (fun vs => Enqueue (fst vs) (snd vs)) vs) =
  (map (fun _ => Enqueued true) vs, mkFifo n (l ++ map fst vs)).
Proof.
  induction vs as [|[v s] vs IH]; intros l Hl.
  - simpl. rewrite app_nil_r. reflexivity.
  - simpl in *. unfold fifo_tryEnqueue. simpl.
    rewrite (proj2 (Z.ltb_lt _ _)) by lia.
    rewrite IH by (rewrite length_app; simpl; lia).
    rewrite <- app_assoc. reflexivity.
Qed.

Lemma cycles_spurious k :
  Forall (fun c => (call_spurious c < 1)%nat) (cycles k).
Proof. induction k; simpl; repeat constructor; assumption. Qed.

Lemma fifo_run_cycles n k :
  0 < n -> fifo_run (mkFifo n []) (cycles k) = (cycle_answers k, mkFifo n []).
Proof.
  intros Hn. destruct n as [|p|p]; try lia.
  induction k as [|k IH]; [reflexivity|].
  simpl. unfold fifo_tryEnqueue. simpl. rewrite IH. reflexivity.
Qed.

Lemma enqueued_cycle_answers k : enqueued (cycle_answers k) = Z.of_nat k.
Proof. induction k as [|k IH]; [reflexivity|]. simpl enqueued. lia. Qed.

Lemma dequeued_cycle_answers k : dequeued (cycle_answers k) = Z.of_nat k.
Proof. induction k as [|k IH]; [reflexivity|]. simpl dequeued. lia. Qed.

(** After [k] cycles on a fresh queue both counters stand at [k]
    modulo [2^64], and the queue is empty. *)
Lemma run_cycles n q0 k :
  is_size_t n -> MPMCQueue_ctor 0 n = Some q0 ->
  exists q,
    run 1 q0 (cycles k) = Done (cycle_answers k, q) /\
    Inv n q (Z.of_nat k) (Z.of_nat k) [].
Proof.
  intros Hn Hq. pose proof (ctor_Inv 0 n q0 Hn Hq) as HI.
  pose proof (capacity_ok_bounds n (inv_capacity _ _ _ _ _ HI)) as Hb.
  destruct (run_total n (cycles k) q0 0 0 [] 1 HI (cycles_spurious k))
    as (answers & q & Hrun).
  destruct (run_simulation n _ q0 0 0 [] 1 answers q HI Hrun) as [Ha HI'].
  rewrite fifo_run_cycles in Ha, HI' by lia. simpl in Ha, HI'. subst answers.
  rewrite enqueued_cycle_answers, dequeued_cycle_answers in HI'.
  exists q. split; [exact Hrun|exact HI'].
Qed.

(** ** Concrete runs *)

Example ctor_capacity_2 :
  MPMCQueue_ctor 0 2 = Some (mkQueue [mkCell 0 0; mkCell 1 0] 1 0 0).
Proof. reflexivity. Qed.

(** Capacity 2: the third enqueue finds the ring full, the values come
    out in the order they went in, the last dequeue finds it empty.  The
    second call suffers two spurious compare-exchange failures. *)
Example run_capacity_2 :
  run 3 (mkQueue [mkCell 0 0; mkCell 1 0] 1 0 0)
    [Enqueue 10 0; Enqueue 20 2; Enqueue 30 0; Dequeue 0 1;
     Enqueue 40 1; Dequeue 0 0; Dequeue 0 0; Dequeue 0 0] =
  Done ([Enqueued true; Enqueued true; Enqueued false; Dequeued (Some 10);
         Enqueued true; Dequeued (Some 20); Dequeued (Some 40); Dequeued None],
        mkQueue [mkCell 4 40; mkCell 3 20] 1 3 3).
Proof. vm_compute. reflexivity. Qed.

(** With too little fuel for the spurious failures the model reports
    the loop as still spinning. *)
Example run_out_of_fuel :
  enqueue 2 2 (mkQueue [mkCell 0 0; mkCell 1 0] 1 0 0) 10 = Spinning.
Proof. vm_compute. reflexivity. Qed.

Example enqueue_on_full_ring :
  enqueue 1 0 (mkQueue [mkCell 1 10; mkCell 2 20] 1 2 0) 30 =
  Done (false, mkQueue [mkCell 1 10; mkCell 2 20] 1 2 0).
Proof. vm_compute. reflexivity. Qed.

(** The producer counter at [SIZE_MAX]: the enqueue succeeds, the counter
    and the published sequence wrap to 0, and the dequeue that follows
    still finds the slot read-ready. *)
Example enqueue_dequeue_at_wrap :
  run 1 (mkQueue [mkCell 0 0; mkCell 18446744073709551615 0] 1
           18446744073709551615 18446744073709551615)
    [Enqueue 7 0; Dequeue 0 0] =
  Done ([Enqueued true; Dequeued (Some 7)],
        mkQueue [mkCell 0 0; mkCell 1 7] 1 0 0).
Proof. vm_compute. reflexivity. Qed.

(** ** A state off the protocol *)

(** Reachability matters for termination: when a slot's sequence is
    ahead of the producer counter, which a single thread never brings
    about, [enqueue] reloads the counter and retries for ever. *)
Lemma enqueue_spins_off_protocol (fuel : nat) :
  enqueue fuel 0 (mkQueue [mkCell 1 0; mkCell 1 0] 1 0 0) 7 = Spinning.
Proof.
  unfold enqueue. simpl enqueue_pos_.
  induction fuel as [|fuel IH]; [reflexivity|].
  simpl enqueue_loop.
  change (intptr_sub (to_intptr 1) (to_intptr 0)) with 1. simpl.
  exact IH.
Qed.

(** ** The claims of the specification *)

(** C1. Run by a single thread on a queue constructed with a valid
    capacity, every sequence of [enqueue]/[dequeue] calls returns (given
    fuel beyond the spurious compare-exchange failures of each call),
    gives exactly the answers of the abstract bounded FIFO queue of that
    capacity, and leaves in the ring exactly the abstract queue's items.
    In the state it leaves, an [enqueue] succeeds unless the ring holds
    [n] values and then appends its value as the newest, and a [dequeue]
    succeeds unless the ring is empty and then returns and removes the
    oldest.  Whatever a run returns with any fuel is the abstract
    answers. *)
Theorem sequential_refines_bounded_fifo {T : Type} (T0 : T) (n : Z)
    (q0 : MPMCQueue T) (cs : list (call T)) (fuel : nat) :
  is_size_t n ->
  MPMCQueue_ctor T0 n = Some q0 ->
  Forall (fun c => (call_spurious c < fuel)%nat) cs ->
  (exists q,
     run fuel q0 cs = Done (fst (fifo_run (mkFifo n []) cs), q) /\
     contents q = fifo_items (snd (fifo_run (mkFifo n []) cs)) /\
     (forall v spurious, (spurious < fuel)%nat ->
        exists ok q',
          enqueue fuel spurious q v = Done (ok, q') /\
          ok = (Z.of_nat (length (contents q)) <? n) /\
          contents q' = if ok then contents q ++ [v] else contents q) /\
     (forall out spurious, (spurious < fuel)%nat ->
        exists ok out' q',
          dequeue fuel spurious q out = Done (ok, out', q') /\
          match contents q with
          | [] => ok = false /\ contents q' = []
          | oldest :: rest => ok = true /\ out' = oldest /\ contents q' = rest
          end)) /\
  (forall fuel' answers q,
     run fuel' q0 cs = Done (answers, q) ->
     answers = fst (fifo_run (mkFifo n []) cs) /\
     contents q = fifo_items (snd (fifo_run (mkFifo n []) cs))).
Proof.
  intros Hn Hq Hf. pose proof (ctor_Inv T0 n q0 Hn Hq) as HI.
  assert (Hany : forall fuel' answers q,
     run fuel' q0 cs = Done (answers, q) ->
     answers = fst (fifo_run (mkFifo n []) cs) /\
     contents q = fifo_items (snd (fifo_run (mkFifo n []) cs))).
  { intros fuel' answers q Hrun.
    destruct (run_simulation n cs q0 0 0 [] fuel' answers q HI Hrun) as [Ha HI'].
    split; [exact Ha|]. eapply Inv_contents, HI'. }
  split; [|exact Hany].
  destruct (run_total n cs q0 0 0 [] fuel HI Hf) as (answers & q & Hrun).
  destruct (run_simulation n cs q0 0 0 [] fuel answers q HI Hrun) as [Ha HI'].
  set (E := 0 + enqueued answers) in HI'. set (D := 0 + dequeued answers) in HI'.
  set (l := fifo_items _) in *.
  pose proof (Inv_contents n q E D l HI') as Hc.
  pose proof (inv_items _ _ _ _ _ HI') as Hl.
  exists q. rewrite Hc. subst answers.
  split; [exact Hrun|]. split; [reflexivity|]. split.
  - intros v spurious Hs.
    rewrite (enqueue_total n q E D l v fuel spurious HI' Hs).
    replace (Z.of_nat (length l) <? n) with (E <? D + n)
      by (destruct (Z.ltb_spec E (D + n)), (Z.ltb_spec (Z.of_nat (length l)) n);
          lia || reflexivity).
    destruct (Z.ltb_spec E (D + n)) as [Hroom|Hfull].
    + exists true, (enqueue_post n q E v). split; [reflexivity|].
      split; [reflexivity|].
      apply (Inv_contents n _ (E + 1) D). apply enqueue_post_Inv; assumption.
    + exists false, q. split; [reflexivity|]. split; [reflexivity|exact Hc].
  - intros out spurious Hs.
    rewrite (dequeue_total n q E D l out fuel spurious HI' Hs).
    destruct l as [|x l'] eqn:El.
    + exists false, out, q. split; [reflexivity|]. split; [reflexivity|exact Hc].
    + exists true, x, (dequeue_post n q D). split; [reflexivity|].
      split; [reflexivity|]. split; [reflexivity|].
      apply (Inv_contents n _ E (D + 1)).
      apply (dequeue_post_Inv n q E D x l'). exact HI'.
Qed.

Lemma sequential_refines_bounded_fifo_witness :
  let cs := [Enqueue 10 0; Enqueue 20 2; Enqueue 30 0; Dequeue 0 1;
             Enqueue 40 1; Dequeue 0 0; Dequeue 0 0; Dequeue 0 0] in
  let q0 := mkQueue [mkCell 0 0; mkCell 1 0] 1 0 0 in
  (exists q,
     run 3 q0 cs = Done (fst (fifo_run (mkFifo 2 []) cs), q) /\
     contents q = fifo_items (snd (fifo_run (mkFifo 2 []) cs)) /\
     (forall v spurious, (spurious < 3)%nat ->
        exists ok q',
          enqueue 3 spurious q v = Done (ok, q') /\
          ok = (Z.of_nat (length (contents q)) <? 2) /\
          contents q' = if ok then contents q ++ [v] else contents q) /\
     (forall out spurious, (spurious < 3)%nat ->
        exists ok out' q',
          dequeue 3 spurious q out = Done (ok, out', q') /\
          match contents q with
          | [] => ok = false /\ contents q' = []
          | oldest :: rest => ok = true /\ out' = oldest /\ contents q' = rest
          end)) /\
  (forall fuel' answers q,
     run fuel' q0 cs = Done (answers, q) ->
     answers = fst (fifo_run (mkFifo 2 []) cs) /\
     contents q = fifo_items (snd (fifo_run (mkFifo 2 []) cs))).
Proof.
  apply (sequential_refines_bounded_fifo 0 2).
  - size_t_range.
  - reflexivity.
  - repeat constructor.
Defined.

(** The slot the producer counter points at passes the write-ready test
    of [enqueue] exactly when the ring has room, and the slot the
    consumer counter points at passes the read-ready test of [dequeue]
    exactly when a value is resident. *)
Lemma Inv_enqueue_slot {T : Type} n (q : MPMCQueue T) E D l :
  Inv n q E D l ->
  exists cell,
    buffer_ q !! Z.to_nat (Z.land (enqueue_pos_ q) (buffer_mask_ q)) = Some cell /\
    write_ready cell (enqueue_pos_ q) = (E <? D + n).
Proof.
  intros HI. pose proof (inv_capacity _ _ _ _ _ HI) as Hn.
  pose proof (capacity_ok_bounds n Hn) as Hb.
  pose proof (inv_order _ _ _ _ _ HI) as Ho.
  rewrite (inv_enqueue_pos _ _ _ _ _ HI), (Inv_index n q E D l E HI).
  destruct (Z.ltb_spec E (D + n)) as [Hroom|Hfull].
  - destruct (inv_slots _ _ _ _ _ HI E) as (c & Hc & Hs); [lia|].
    rewrite (proj2 (Z.ltb_ge E E)) in Hs by lia.
    exists c. split; [exact Hc|].
    apply write_ready_iff; [rewrite Hs| |exact Hs]; apply wrap_range.
  - assert (E = D + n) as -> by lia.
    destruct (inv_slots _ _ _ _ _ HI D) as (c & Hc & Hs); [lia|].
    rewrite (proj2 (Z.ltb_lt D (D + n))) in Hs by lia. destruct Hs as [Hs _].
    rewrite wrap_shift_cap by assumption.
    exists c. split; [exact Hc|].
    unfold write_ready. rewrite Hs, (intptr_sub_diff _ _ (1 - n)).
    + apply Z.eqb_neq. lia.
    + apply wrap_range.
    + apply wrap_range.
    + lia.
    + unfold wrap. rewrite <- Zminus_mod. f_equal. lia.
Qed.

Lemma Inv_dequeue_slot {T : Type} n (q : MPMCQueue T) E D l :
  Inv n q E D l ->
  exists cell,
    buffer_ q !! Z.to_nat (Z.land (dequeue_pos_ q) (buffer_mask_ q)) = Some cell /\
    read_ready cell (dequeue_pos_ q) = (D <? E) /\
    (D < E -> l !! 0%nat = Some (data cell)).
Proof.
  intros HI. pose proof (inv_capacity _ _ _ _ _ HI) as Hn.
  pose proof (capacity_ok_bounds n Hn) as Hb.
  pose proof (inv_order _ _ _ _ _ HI) as Ho.
  rewrite (inv_dequeue_pos _ _ _ _ _ HI), (Inv_index n q E D l D HI).
  destruct (inv_slots _ _ _ _ _ HI D) as (c & Hc & Hs); [lia|].
  exists c. split; [exact Hc|].
  destruct (Z.ltb_spec D E) as [Hlt|Hge].
  - destruct Hs as [Hs Hd]. rewrite Z.sub_diag in Hd. split; [|intros _; exact Hd].
    apply read_ready_iff; [rewrite Hs; apply wrap_range|].
    rewrite wrap_add_l. exact Hs.
  - split; [|lia]. unfold read_ready.
    rewrite Hs, (intptr_sub_diff _ _ (-1)).
    + reflexivity.
    + apply wrap_range.
    + apply wrap_range.
    + pose proof INTPTR_HALF_pos. lia.
    + rewrite wrap_add_l. unfold wrap. rewrite <- Zminus_mod. f_equal. lia.
Qed.

(** C2. In every state a single thread can reach there are counts [E]
    of successful enqueues and [D] of successful dequeues, the position
    counters modulo [2^64], such that the slot at each ring index [i]
    is on the lap [k] whose position [k*capacity + i] lies within one
    capacity from [D], and holds [k*capacity + i], the value for which a
    producer at that position finds it write-ready, when the position is
    not yet claimed by a producer, and [k*capacity + i + 1], the value
    for which a consumer at that position finds it read-ready, when it
    is; for every lap the write-ready test of [enqueue] succeeds exactly
    on the first value and the read-ready test of [dequeue] exactly on
    the second (all in [size_t] arithmetic).  A successful [enqueue] at
    position [pos] stores [pos + 1] and the value into the slot of
    [pos], which makes it read-ready at [pos]; a successful [dequeue] at
    [pos] stores [pos + mask + 1], which is [pos + capacity]: the value
    that makes the same slot write-ready at the position one lap
    later.  And the calls do succeed on these tests: given fuel beyond
    its spurious compare-exchange failures, an [enqueue] returns, with
    true exactly when the slot of the producer counter is write-ready,
    which is when the ring holds fewer than [capacity] values, and a
    [dequeue] returns, with true exactly when the slot of the consumer
    counter is read-ready, which is when a value is resident, and then
    hands out that slot's data. *)
Theorem slot_readiness_invariant {T : Type} (T0 : T) (n : Z) (q : MPMCQueue T) :
  reachable T0 n q ->
  (exists E D,
     enqueue_pos_ q = wrap E /\ dequeue_pos_ q = wrap D /\
     0 <= D <= E /\ E <= D + n /\
     forall i, 0 <= i < n ->
       exists cell k,
         buffer_ q !! Z.to_nat i = Some cell /\
         0 <= k /\ D <= k * n + i < D + n /\
         (sequence cell = wrap (k * n + i) \/
          sequence cell = wrap (k * n + i + 1)) /\
         (sequence cell = wrap (k * n + i + 1) <-> k * n + i < E) /\
         forall lap, 0 <= lap ->
           (write_ready cell (wrap (lap * n + i)) = true <->
            sequence cell = wrap (lap * n + i)) /\
           (read_ready cell (wrap (lap * n + i)) = true <->
            sequence cell = wrap (lap * n + i + 1))) /\
  (forall fuel spurious v q',
     enqueue fuel spurious q v = Done (true, q') ->
     let pos := enqueue_pos_ q in
     exists cell,
       buffer_ q' !! Z.to_nat (Z.land pos (buffer_mask_ q)) = Some cell /\
       sequence cell = wrap (pos + 1) /\ data cell = v /\
       read_ready cell pos = true) /\
  (forall fuel spurious out out' q',
     dequeue fuel spurious q out = Done (true, out', q') ->
     let pos := dequeue_pos_ q in
     exists cell,
       buffer_ q' !! Z.to_nat (Z.land pos (buffer_mask_ q)) = Some cell /\
       sequence cell = wrap (pos + buffer_mask_ q + 1) /\
       sequence cell = wrap (pos + n) /\
       write_ready cell (wrap (pos + n)) = true /\
       Z.land (wrap (pos + n)) (buffer_mask_ q) = Z.land pos (buffer_mask_ q)) /\
  (forall fuel spurious v, (spurious < fuel)%nat ->
     exists cell ok q',
       buffer_ q !! Z.to_nat (Z.land (enqueue_pos_ q) (buffer_mask_ q)) = Some cell /\
       enqueue fuel spurious q v = Done (ok, q') /\
       ok = write_ready cell (enqueue_pos_ q) /\
       (ok = true <-> Z.of_nat (length (contents q)) < n)) /\
  (forall fuel spurious out, (spurious < fuel)%nat ->
     exists cell ok out' q',
       buffer_ q !! Z.to_nat (Z.land (dequeue_pos_ q) (buffer_mask_ q)) = Some cell /\
       dequeue fuel spurious q out = Done (ok, out', q') /\
       ok = read_ready cell (dequeue_pos_ q) /\
       (ok = true <-> contents q <> []) /\
       (ok = true -> out' = data cell)).
Proof.
  intros Hr. destruct (reachable_Inv T0 n q Hr) as (E & D & l & HI).
  pose proof (inv_capacity _ _ _ _ _ HI) as Hn.
  pose proof (capacity_ok_bounds n Hn) as Hb.
  pose proof (inv_order _ _ _ _ _ HI) as Ho.
  pose proof (inv_items _ _ _ _ _ HI) as Hl.
  split; [|split; [|split; [|split]]].
  - exists E, D.
    split; [apply HI|]. split; [apply HI|]. split; [lia|]. split; [lia|].
    intros i Hi.
    destruct (window_position n D i) as (k & Hk & Hp); try lia.
    destruct (inv_slots _ _ _ _ _ HI (k * n + i) Hp) as (cell & Hc & Hs).
    rewrite Z.add_comm, Z_mod_plus_full, Z.mod_small in Hc by assumption.
    exists cell, k. split; [exact Hc|]. split; [exact Hk|]. split; [exact Hp|].
    assert (Hsz : is_size_t (sequence cell)).
    { destruct (_ <? E); [destruct Hs as [-> _]| rewrite Hs]; apply wrap_range. }
    split; [|split].
    + destruct (_ <? E); [right; apply Hs|left; exact Hs].
    + destruct (Z.ltb_spec (k * n + i) E) as [Hlt|Hge].
      * split; [intros _; exact Hlt|intros _; apply Hs].
      * split; [|lia]. rewrite Hs. intros Heq. exfalso.
        apply (wrap_succ_ne (k * n + i)). symmetry. exact Heq.
    + intros lap Hlap. split.
      * apply write_ready_iff; [assumption|apply wrap_range].
      * rewrite read_ready_iff, wrap_add_l by assumption. reflexivity.
  - intros fuel spurious v q' He pos.
    apply enqueue_loop_result in He. destruct He as [[c Hc] ->]. simpl.
    exists (mkCell (wrap (enqueue_pos_ q + 1)) v).
    split; [eapply store_lookup_eq, Hc|].
    split; [reflexivity|]. split; [reflexivity|].
    apply read_ready_iff; [apply wrap_range|reflexivity].
  - intros fuel spurious out out' q' Hd pos.
    apply dequeue_loop_result in Hd. destruct Hd as [(c & Hc & _) ->]. simpl.
    exists (mkCell (wrap (dequeue_pos_ q + buffer_mask_ q + 1)) (data c)).
    assert (Hcap : wrap (dequeue_pos_ q + buffer_mask_ q + 1) = wrap (pos + n)).
    { rewrite (inv_mask _ _ _ _ _ HI). f_equal. unfold pos. ring. }
    split; [|split; [reflexivity|split; [exact Hcap|split]]].
    + unfold store_sequence. rewrite list_lookup_alter_eq, Hc. reflexivity.
    + apply write_ready_iff; [apply wrap_range..|]. exact Hcap.
    + unfold pos. rewrite (inv_dequeue_pos _ _ _ _ _ HI), (inv_mask _ _ _ _ _ HI).
      rewrite wrap_add_l, !land_mask by assumption.
      apply wrap_shift_cap, Hn.
  - intros fuel spurious v Hs.
    destruct (Inv_enqueue_slot n q E D l HI) as (cell & Hc & Hw).
    rewrite (enqueue_total n q E D l v fuel spurious HI Hs).
    rewrite (Inv_contents n q E D l HI).
    destruct (Z.ltb_spec E (D + n)) as [Hroom|Hfull].
    + exists cell, true, (enqueue_post n q E v).
      split; [exact Hc|]. split; [reflexivity|]. split; [symmetry; exact Hw|].
      split; [lia|reflexivity].
    + exists cell, false, q.
      split; [exact Hc|]. split; [reflexivity|]. split; [symmetry; exact Hw|].
      split; [discriminate|lia].
  - intros fuel spurious out Hs.
    destruct (Inv_dequeue_slot n q E D l HI) as (cell & Hc & Hrd & Hd).
    rewrite (dequeue_total n q E D l out fuel spurious HI Hs).
    rewrite (Inv_contents n q E D l HI).
    destruct l as [|x l'].
    + simpl in Hl. exists cell, false, out, q.
      split; [exact Hc|]. split; [reflexivity|].
      split; [rewrite Hrd; symmetry; apply Z.ltb_ge; lia|].
      split; [split; [discriminate|congruence]|discriminate].
    + simpl length in Hl. exists cell, true, x, (dequeue_post n q D).
      split; [exact Hc|]. split; [reflexivity|].
      split; [rewrite Hrd; symmetry; apply Z.ltb_lt; lia|].
      split; [split; [discriminate|reflexivity]|].
      intros _. specialize (Hd ltac:(lia)). simpl in Hd. congruence.
Qed.

(** The state of a capacity-2 queue after two enqueues and a dequeue:
    slot 0 is free for the position of the second lap, slot 1 still
    holds the second value. *)
Lemma slot_readiness_invariant_witness :
  let q := mkQueue [mkCell 2 10; mkCell 2 20] 1 2 1 in
  (reachable 0 2 q /\
   enqueue 1 0 q 30 = Done (true, mkQueue [mkCell 3 30; mkCell 2 20] 1 3 1) /\
   dequeue 1 0 q 0 = Done (true, 20, mkQueue [mkCell 2 10; mkCell 3 20] 1 2 2)) /\
  ((exists E D,
     enqueue_pos_ q = wrap E /\ dequeue_pos_ q = wrap D /\
     0 <= D <= E /\ E <= D + 2 /\
     forall i, 0 <= i < 2 ->
       exists cell k,
         buffer_ q !! Z.to_nat i = Some cell /\
         0 <= k /\ D <= k * 2 + i < D + 2 /\
         (sequence cell = wrap (k * 2 + i) \/
          sequence cell = wrap (k * 2 + i + 1)) /\
         (sequence cell = wrap (k * 2 + i + 1) <-> k * 2 + i < E) /\
         forall lap, 0 <= lap ->
           (write_ready cell (wrap (lap * 2 + i)) = true <->
            sequence cell = wrap (lap * 2 + i)) /\
           (read_ready cell (wrap (lap * 2 + i)) = true <->
            sequence cell = wrap (lap * 2 + i + 1))) /\
  (forall fuel spurious v q',
     enqueue fuel spurious q v = Done (true, q') ->
     let pos := enqueue_pos_ q in
     exists cell,
       buffer_ q' !! Z.to_nat (Z.land pos (buffer_mask_ q)) = Some cell /\
       sequence cell = wrap (pos + 1) /\ data cell = v /\
       read_ready cell pos = true) /\
  (forall fuel spurious out out' q',
     dequeue fuel spurious q out = Done (true, out', q') ->
     let pos := dequeue_pos_ q in
     exists cell,
       buffer_ q' !! Z.to_nat (Z.land pos (buffer_mask_ q)) = Some cell /\
       sequence cell = wrap (pos + buffer_mask_ q + 1) /\
       sequence cell = wrap (pos + 2) /\
       write_ready cell (wrap (pos + 2)) = true /\
       Z.land (wrap (pos + 2)) (buffer_mask_ q) = Z.land pos (buffer_mask_ q)) /\
  (forall fuel spurious v, (spurious < fuel)%nat ->
     exists cell ok q',
       buffer_ q !! Z.to_nat (Z.land (enqueue_pos_ q) (buffer_mask_ q)) = Some cell /\
       enqueue fuel spurious q v = Done (ok, q') /\
       ok = write_ready cell (enqueue_pos_ q) /\
       (ok = true <-> Z.of_nat (length (contents q)) < 2)) /\
  (forall fuel spurious out, (spurious < fuel)%nat ->
     exists cell ok out' q',
       buffer_ q !! Z.to_nat (Z.land (dequeue_pos_ q) (buffer_mask_ q)) = Some cell /\
       dequeue fuel spurious q out = Done (ok, out', q') /\
       ok = read_ready cell (dequeue_pos_ q) /\
       (ok = true <-> contents q <> []) /\
       (ok = true -> out' = data cell))).
Proof.
  assert (H : reachable 0 2 (mkQueue [mkCell 2 10; mkCell 2 20] 1 2 1)).
  { apply (reach_dequeue 0 2 (mkQueue [mkCell 1 10; mkCell 2 20] 1 2 0) 1 0 0 true 10).
    - apply (reach_enqueue 0 2 (mkQueue [mkCell 1 10; mkCell 1 0] 1 1 0) 1 0 20 true).
      + apply (reach_enqueue 0 2 (mkQueue [mkCell 0 0; mkCell 1 0] 1 0 0) 1 0 10 true).
        * apply reach_ctor; [size_t_range|reflexivity].
        * vm_compute. reflexivity.
      + vm_compute. reflexivity.
    - vm_compute. reflexivity. }
  split.
  - split; [exact H|]. split; vm_compute; reflexivity.
  - exact (slot_readiness_invariant 0 2 _ H).
Defined.

(** C3. From a fresh queue of capacity [n], after every run of calls the
    number of values enqueued and not yet dequeued lies between 0 and
    [n], and it is the number of values the ring holds; and [n]
    successful enqueues in a row with no dequeue do succeed, fill the
    ring with their values, and make every further [enqueue] return
    false. *)
Theorem resident_never_exceeds_capacity {T : Type} (T0 : T) (n : Z)
    (q0 : MPMCQueue T) :
  is_size_t n ->
  MPMCQueue_ctor T0 n = Some q0 ->
  (forall fuel cs answers q,
     run fuel q0 cs = Done (answers, q) ->
     0 <= resident answers <= n /\
     Z.of_nat (length (contents q)) = resident answers) /\
  (forall fuel (vs : list (T * nat)),
     Z.of_nat (length vs) = n ->
     Forall (fun vs => (snd vs < fuel)%nat) vs ->
     exists q,
       run fuel q0 (map (fun vs => Enqueue (fst vs) (snd vs)) vs) =
       Done (map (fun _ => Enqueued true) vs, q) /\
       contents q = map fst vs /\
       forall fuel' spurious v, enqueue (S fuel') spurious q v = Done (false, q)).
Proof.
  intros Hn Hq. pose proof (ctor_Inv T0 n q0 Hn Hq) as HI. split.
  - intros fuel cs answers q Hrun.
    destruct (run_simulation n cs q0 0 0 [] fuel answers q HI Hrun) as [_ HI'].
    pose proof (inv_order _ _ _ _ _ HI') as Ho.
    pose proof (inv_items _ _ _ _ _ HI') as Hl.
    rewrite (Inv_contents _ _ _ _ _ HI'). unfold resident. lia.
  - intros fuel vs Hlen Hf.
    set (cs := map (fun vs => Enqueue (fst vs) (snd vs)) vs).
    assert (Hcs : Forall (fun c => (call_spurious c < fuel)%nat) cs).
    { unfold cs. rewrite Forall_map. eapply Forall_impl; [exact Hf|].
      intros [v s]; simpl; auto. }
    destruct (run_total n cs q0 0 0 [] fuel HI Hcs) as (answers & q & Hrun).
    destruct (run_simulation n cs q0 0 0 [] fuel answers q HI Hrun) as [Ha HI'].
    unfold cs in Ha, HI'. rewrite fifo_run_enqueues in Ha, HI' by (simpl; lia).
    simpl in Ha, HI'. subst answers. exists q.
    split; [exact Hrun|]. split; [apply (Inv_contents _ _ _ _ _ HI')|].
    intros fuel' spurious v. unfold enqueue.
    rewrite (inv_enqueue_pos _ _ _ _ _ HI').
    apply (enqueue_loop_full _ _ _ _ _ v fuel' spurious HI').
    pose proof (inv_items _ _ _ _ _ HI') as Hl. rewrite length_map in Hl. lia.
Qed.

Lemma resident_never_exceeds_capacity_witness :
  let q0 := mkQueue [mkCell 0 0; mkCell 1 0] 1 0 0 in
  (forall fuel cs answers q,
     run fuel q0 cs = Done (answers, q) ->
     0 <= resident answers <= 2 /\
     Z.of_nat (length (contents q)) = resident answers) /\
  (forall fuel (vs : list (Z * nat)),
     Z.of_nat (length vs) = 2 ->
     Forall (fun vs => (snd vs < fuel)%nat) vs ->
     exists q,
       run fuel q0 (map (fun vs => Enqueue (fst vs) (snd vs)) vs) =
       Done (map (fun _ => Enqueued true) vs, q) /\
       contents q = map fst vs /\
       forall fuel' spurious v, enqueue (S fuel') spurious q v = Done (false, q)).
Proof.
  apply (resident_never_exceeds_capacity 0 2).
  - size_t_range.
  - reflexivity.
Defined.

(** C4. A failed call has no effect.  In every reachable state: an
    [enqueue] that returns false leaves the whole queue (both counters,
    every slot's sequence and data) as it was, and so does a [dequeue]
    that returns false, which also leaves the caller's variable; on a
    full queue [enqueue] returns false and on an empty queue [dequeue]
    returns false; any number of [dequeue] calls on an empty queue all
    answer empty and leave the queue as it was; and after them an
    [enqueue] succeeds and the next [dequeue] returns the value it
    enqueued, leaving the queue empty again. *)
Theorem failed_call_has_no_effect {T : Type} (T0 : T) (n : Z) (q : MPMCQueue T) :
  reachable T0 n q ->
  (forall fuel spurious v q',
     enqueue fuel spurious q v = Done (false, q') -> q' = q) /\
  (forall fuel spurious out out' q',
     dequeue fuel spurious q out = Done (false, out', q') -> out' = out /\ q' = q) /\
  (Z.of_nat (length (contents q)) = n ->
   forall fuel spurious v, enqueue (S fuel) spurious q v = Done (false, q)) /\
  (contents q = [] ->
   (forall fuel spurious out,
      dequeue (S fuel) spurious q out = Done (false, out, q)) /\
   (forall fuel cs,
      Forall (fun c => exists out spurious, c = Dequeue out spurious) cs ->
      run (S fuel) q cs = Done (map (fun _ => Dequeued None) cs, q)) /\
   (forall fuel spurious1 spurious2 v out,
      (spurious1 < fuel)%nat -> (spurious2 < fuel)%nat ->
      exists q1 q2,
        enqueue fuel spurious1 q v = Done (true, q1) /\
        dequeue fuel spurious2 q1 out = Done (true, v, q2) /\
        contents q2 = [])).
Proof.
  intros Hr. destruct (reachable_Inv T0 n q Hr) as (E & D & l & HI).
  pose proof (Inv_contents n q E D l HI) as Hc.
  pose proof (inv_items _ _ _ _ _ HI) as Hl.
  pose proof (capacity_ok_bounds n (inv_capacity _ _ _ _ _ HI)) as Hb.
  split; [|split; [|split]].
  - intros fuel spurious v q' H. apply enqueue_loop_result in H. exact H.
  - intros fuel spurious out out' q' H. apply dequeue_loop_result in H. exact H.
  - rewrite Hc. intros Hfull fuel spurious v.
    unfold enqueue. rewrite (inv_enqueue_pos _ _ _ _ _ HI).
    apply (enqueue_loop_full n q E D l); [assumption|lia].
  - rewrite Hc. intros ->.
    assert (Hdeq : forall fuel spurious out,
              dequeue (S fuel) spurious q out = Done (false, out, q)).
    { intros fuel spurious out.
      unfold dequeue. rewrite (inv_dequeue_pos _ _ _ _ _ HI).
      apply (dequeue_loop_empty n q E D []); [assumption|].
      apply (Inv_empty n q), HI. }
    split; [exact Hdeq|split].
    + intros fuel cs Hcs. induction Hcs as [|c cs (out & s & ->) _ IH].
      * reflexivity.
      * simpl. rewrite Hdeq. simpl. rewrite IH. reflexivity.
    + intros fuel s1 s2 v out Hs1 Hs2. simpl in Hl.
      exists (enqueue_post n q E v), (dequeue_post n (enqueue_post n q E v) D).
      assert (HI1 : Inv n (enqueue_post n q E v) (E + 1) D ([] ++ [v]))
        by (apply enqueue_post_Inv; [assumption|lia]).
      split; [|split].
      * rewrite (enqueue_total n q E D []) by assumption.
        rewrite (proj2 (Z.ltb_lt _ _)) by lia. reflexivity.
      * apply (dequeue_total n _ (E + 1) D [v]); assumption.
      * apply (Inv_contents n _ (E + 1) (D + 1)).
        apply (dequeue_post_Inv n _ (E + 1) D v []). exact HI1.
Qed.

Lemma failed_call_has_no_effect_witness :
  let q := mkQueue [mkCell 0 0; mkCell 1 0] 1 0 0 in
  reachable 0 2 q /\
  ((forall fuel spurious v q',
      enqueue fuel spurious q v = Done (false, q') -> q' = q) /\
   (forall fuel spurious out out' q',
      dequeue fuel spurious q out = Done (false, out', q') -> out' = out /\ q' = q) /\
   (Z.of_nat (length (contents q)) = 2 ->
    forall fuel spurious v, enqueue (S fuel) spurious q v = Done (false, q)) /\
   (contents q = [] ->
    (forall fuel spurious out,
       dequeue (S fuel) spurious q out = Done (false, out, q)) /\
    (forall fuel cs,
       Forall (fun c => exists out spurious, c = Dequeue out spurious) cs ->
       run (S fuel) q cs = Done (map (fun _ => Dequeued None) cs, q)) /\
    (forall fuel spurious1 spurious2 v out,
       (spurious1 < fuel)%nat -> (spurious2 < fuel)%nat ->
       exists q1 q2,
         enqueue fuel spurious1 q v = Done (true, q1) /\
         dequeue fuel spurious2 q1 out = Done (true, v, q2) /\
         contents q2 = []))).
Proof.
  assert (H : reachable 0 2 (mkQueue [mkCell 0 0; mkCell 1 0] 1 0 0)).
  { apply reach_ctor; [size_t_range|reflexivity]. }
  split; [exact H|]. exact (failed_call_has_no_effect 0 2 _ H).
Defined.

(** What the full constructor does, case by case. *)
Lemma MPMCQueue_construct_cases {T : Type} (T0 : T) (p : platform) (n : Z) :
  MPMCQueue_construct T0 p n =
  if vector_max_size p <? n then LengthError
  else if allocator_room p <? n then BadAlloc
  else if NDEBUG p || valid_buffer_size n
       then Constructed (MPMCQueue_ctor_NDEBUG T0 n)
       else AssertionFailed.
Proof.
  unfold MPMCQueue_construct, vector_ctor.
  destruct (vector_max_size p <? n); [reflexivity|].
  destruct (allocator_room p <? n); reflexivity.
Qed.

(** C5, refuted as it stands: [2^63] is a [size_t] value, a power of two
    and at least 2, and the condition of the [assert] holds for it, yet
    no queue is constructed: the vector's constructor, which runs first,
    throws [std::length_error], whatever the platform's [max_size()]
    within the address space.  Where the allocator has room for 1024
    cells only, the capacity 65536 ends in [std::bad_alloc]; and in a
    build with [NDEBUG] the capacity 3 is not rejected. *)
Lemma construction_rejects_large_power_of_two :
  is_size_t (2 ^ 63) /\ 2 <= 2 ^ 63 /\ is_pow2 (2 ^ 63) /\
  valid_buffer_size (2 ^ 63) = true /\
  (forall debug room max_size,
     max_size <= VECTOR_MAX_SIZE_BOUND ->
     MPMCQueue_construct 0 (mkPlatform debug max_size room) (2 ^ 63) = LengthError) /\
  MPMCQueue_construct 0 (mkPlatform false VECTOR_MAX_SIZE_BOUND (2 ^ 63)) (2 ^ 63) =
    LengthError /\
  MPMCQueue_construct 0 (mkPlatform false VECTOR_MAX_SIZE_BOUND 1024) 65536 =
    BadAlloc /\
  MPMCQueue_construct 0 (mkPlatform true VECTOR_MAX_SIZE_BOUND 1024) 3 =
    Constructed (mkQueue [mkCell 0 0; mkCell 1 0; mkCell 2 0] 2 0 0).
Proof.
  split; [size_t_range|]. split; [vm_compute; discriminate|].
  split; [exists 63; split; [lia|reflexivity]|].
  split; [vm_compute; reflexivity|].
  split; [|split; [|split]; vm_compute; reflexivity].
  intros debug room max_size Hmax. rewrite MPMCQueue_construct_cases. simpl.
  rewrite (proj2 (Z.ltb_lt max_size (2 ^ 63))); [reflexivity|].
  assert (VECTOR_MAX_SIZE_BOUND < 2 ^ 63) by (vm_compute; reflexivity). lia.
Qed.

(** C5, amended.  In a build that keeps the assertion, for a [size_t]
    argument: no queue is constructed for a capacity below 2 or not a
    power of two; a queue is constructed exactly for the powers of two
    from 2 up that do not exceed the vector's [max_size()] and that the
    allocator has room for; the call ends in [std::length_error] exactly
    above [max_size()], in [std::bad_alloc] exactly when the size is
    within [max_size()] and beyond the allocator's room, and in the
    failed assertion exactly when the vector could be built and the
    capacity is below 2 or not a power of two.  A queue that is
    constructed is the one the constructor's body gives for that
    capacity, and has the capacity asked for and the mask that goes with
    it: a capacity is never replaced by another.  So 3, 0 and 1 are
    rejected, and 2 and 65536 are accepted where the vector has room for
    65536 cells. *)
Theorem construction_validates_capacity {T : Type} (T0 : T) (p : platform) (n : Z) :
  is_size_t n ->
  NDEBUG p = false ->
  (n < 2 \/ ~ is_pow2 n -> forall q, MPMCQueue_construct T0 p n <> Constructed q) /\
  ((exists q, MPMCQueue_construct T0 p n = Constructed q) <->
   2 <= n /\ is_pow2 n /\ n <= vector_max_size p /\ n <= allocator_room p) /\
  (MPMCQueue_construct T0 p n = LengthError <-> vector_max_size p < n) /\
  (MPMCQueue_construct T0 p n = BadAlloc <->
   n <= vector_max_size p /\ allocator_room p < n) /\
  (MPMCQueue_construct T0 p n = AssertionFailed <->
   (n < 2 \/ ~ is_pow2 n) /\ n <= vector_max_size p /\ n <= allocator_room p) /\
  (forall q, MPMCQueue_construct T0 p n = Constructed q ->
     MPMCQueue_ctor T0 n = Some q /\
     Z.of_nat (length (buffer_ q)) = n /\ buffer_mask_ q = n - 1) /\
  (forall q, MPMCQueue_construct T0 p 3 <> Constructed q) /\
  (forall q, MPMCQueue_construct T0 p 0 <> Constructed q) /\
  (forall q, MPMCQueue_construct T0 p 1 <> Constructed q) /\
  (65536 <= vector_max_size p -> 65536 <= allocator_room p ->
   MPMCQueue_construct T0 p 2 = Constructed (MPMCQueue_ctor_NDEBUG T0 2) /\
   MPMCQueue_construct T0 p 65536 = Constructed (MPMCQueue_ctor_NDEBUG T0 65536)).
Proof.
  intros Hn Hdebug. pose proof (valid_buffer_size_spec n Hn) as Hv.
  assert (Hsmall : forall m q, valid_buffer_size m = false ->
            MPMCQueue_construct T0 p m <> Constructed q).
  { intros m q Hm. rewrite MPMCQueue_construct_cases, Hdebug, Hm. simpl.
    destruct (_ <? m); [discriminate|]. destruct (_ <? m); discriminate. }
  assert (Hnot : n < 2 \/ ~ is_pow2 n <-> valid_buffer_size n = false).
  { rewrite <- not_true_iff_false, Hv. split.
    - intros [H|H] [H2 Hp]; [lia|contradiction].
    - intros H. destruct (Z_lt_le_dec n 2); [left; assumption|right].
      intros Hp. apply H. split; assumption. }
  assert (H3 : forall q, MPMCQueue_construct T0 p 3 <> Constructed q)
    by (intros q; apply Hsmall; reflexivity).
  assert (H0 : forall q, MPMCQueue_construct T0 p 0 <> Constructed q)
    by (intros q; apply Hsmall; reflexivity).
  assert (H1 : forall q, MPMCQueue_construct T0 p 1 <> Constructed q)
    by (intros q; apply Hsmall; reflexivity).
  revert H3 H0 H1. rewrite !MPMCQueue_construct_cases, Hdebug. simpl.
  intros H3 H0 H1.
  split; [|split; [|split; [|split; [|split; [|split; [|split; [|split; [|split]]]]]]]];
    [| | | | | |exact H3|exact H0|exact H1|].
  - intros H q. apply Hnot in H. rewrite H.
    destruct (_ <? n); [discriminate|]. destruct (_ <? n); discriminate.
  - destruct (Z.ltb_spec (vector_max_size p) n);
      [split; [intros [q Hq]; discriminate|lia]|].
    destruct (Z.ltb_spec (allocator_room p) n);
      [split; [intros [q Hq]; discriminate|lia]|].
    destruct (valid_buffer_size n) eqn:Hvn.
    + split; [|eauto]. intros _.
      assert (2 <= n /\ is_pow2 n) by (apply Hv; reflexivity). tauto.
    + split; [intros [q Hq]; discriminate|].
      intros (Hge & Hp & _). assert (false = true) by (apply Hv; tauto). discriminate.
  - destruct (Z.ltb_spec (vector_max_size p) n); [tauto|].
    split; [|lia].
    destruct (_ <? n); [discriminate|]. destruct (valid_buffer_size n); discriminate.
  - destruct (Z.ltb_spec (vector_max_size p) n); [split; [discriminate|lia]|].
    destruct (Z.ltb_spec (allocator_room p) n); [tauto|].
    split; [|lia]. destruct (valid_buffer_size n); discriminate.
  - rewrite Hnot.
    destruct (Z.ltb_spec (vector_max_size p) n); [split; [discriminate|lia]|].
    destruct (Z.ltb_spec (allocator_room p) n); [split; [discriminate|lia]|].
    destruct (valid_buffer_size n); [split; [discriminate|]|tauto].
    intros [Hf _]. discriminate.
  - intros q.
    destruct (_ <? n); [discriminate|]. destruct (_ <? n); [discriminate|].
    destruct (valid_buffer_size n) eqn:Hvn; [|discriminate].
    intros [= <-].
    assert (Hq : MPMCQueue_ctor T0 n = Some (MPMCQueue_ctor_NDEBUG T0 n)).
    { unfold MPMCQueue_ctor. rewrite Hvn. reflexivity. }
    split; [exact Hq|].
    pose proof (ctor_Inv T0 n _ Hn Hq) as HI.
    pose proof (capacity_ok_bounds n (inv_capacity _ _ _ _ _ HI)).
    rewrite (inv_length _ _ _ _ _ HI), (inv_mask _ _ _ _ _ HI). lia.
  - intros Hmax Hroom.
    change (valid_buffer_size 2) with true.
    change (valid_buffer_size 65536) with true.
    rewrite (proj2 (Z.ltb_ge (vector_max_size p) 2)) by lia.
    rewrite (proj2 (Z.ltb_ge (allocator_room p) 2)) by lia.
    rewrite (proj2 (Z.ltb_ge (vector_max_size p) 65536)) by lia.
    rewrite (proj2 (Z.ltb_ge (allocator_room p) 65536)) by lia.
    split; reflexivity.
Qed.

Lemma construction_validates_capacity_witness :
  let p := mkPlatform false VECTOR_MAX_SIZE_BOUND 1048576 in
  (1024 < 2 \/ ~ is_pow2 1024 -> forall q, MPMCQueue_construct 0 p 1024 <> Constructed q) /\
  ((exists q, MPMCQueue_construct 0 p 1024 = Constructed q) <->
   2 <= 1024 /\ is_pow2 1024 /\ 1024 <= vector_max_size p /\ 1024 <= allocator_room p) /\
  (MPMCQueue_construct 0 p 1024 = LengthError <-> vector_max_size p < 1024) /\
  (MPMCQueue_construct 0 p 1024 = BadAlloc <->
   1024 <= vector_max_size p /\ allocator_room p < 1024) /\
  (MPMCQueue_construct 0 p 1024 = AssertionFailed <->
   (1024 < 2 \/ ~ is_pow2 1024) /\ 1024 <= vector_max_size p /\ 1024 <= allocator_room p) /\
  (forall q, MPMCQueue_construct 0 p 1024 = Constructed q ->
     MPMCQueue_ctor 0 1024 = Some q /\
     Z.of_nat (length (buffer_ q)) = 1024 /\ buffer_mask_ q = 1024 - 1) /\
  (forall q, MPMCQueue_construct 0 p 3 <> Constructed q) /\
  (forall q, MPMCQueue_construct 0 p 0 <> Constructed q) /\
  (forall q, MPMCQueue_construct 0 p 1 <> Constructed q) /\
  (65536 <= vector_max_size p -> 65536 <= allocator_room p ->
   MPMCQueue_construct 0 p 2 = Constructed (MPMCQueue_ctor_NDEBUG 0 2) /\
   MPMCQueue_construct 0 p 65536 = Constructed (MPMCQueue_ctor_NDEBUG 0 65536)).
Proof.
  apply (construction_validates_capacity 0 (mkPlatform false VECTOR_MAX_SIZE_BOUND 1048576) 1024).
  - size_t_range.
  - reflexivity.
Defined.

(** C6. A freshly constructed queue is empty: it has [buffer_size]
    slots, slot [i] has sequence [i], both position counters are 0, no
    value is resident, and a first [dequeue] returns false, touching
    neither the queue nor the caller's variable. *)
Theorem fresh_queue_is_empty {T : Type} (T0 : T) (n : Z) (q : MPMCQueue T) :
  is_size_t n ->
  MPMCQueue_ctor T0 n = Some q ->
  Z.of_nat (length (buffer_ q)) = n /\
  (forall i, 0 <= i < n ->
     exists cell, buffer_ q !! Z.to_nat i = Some cell /\ sequence cell = i) /\
  enqueue_pos_ q = 0 /\
  dequeue_pos_ q = 0 /\
  contents q = [] /\
  (forall fuel spurious out,
     dequeue (S fuel) spurious q out = Done (false, out, q)).
Proof.
  intros Hn Hq. pose proof (ctor_Inv T0 n q Hn Hq) as HI.
  pose proof (capacity_ok_bounds n (inv_capacity _ _ _ _ _ HI)) as Hb.
  split; [|split; [|split; [|split; [|split]]]].
  - rewrite (inv_length _ _ _ _ _ HI). lia.
  - intros i Hi. exists (mkCell i T0). split; [|reflexivity].
    apply (ctor_lookup T0 n); assumption.
  - apply ctor_Some in Hq as [_ ->]. reflexivity.
  - apply ctor_Some in Hq as [_ ->]. reflexivity.
  - apply (Inv_contents n q 0 0), HI.
  - intros fuel spurious out.
    unfold dequeue. rewrite (inv_dequeue_pos _ _ _ _ _ HI).
    apply (dequeue_loop_empty n q 0 0 []); [assumption|reflexivity].
Qed.

Lemma fresh_queue_is_empty_witness :
  let q := mkQueue [mkCell 0 0; mkCell 1 0; mkCell 2 0; mkCell 3 0] 3 0 0 in
  Z.of_nat (length (buffer_ q)) = 4 /\
  (forall i, 0 <= i < 4 ->
     exists cell, buffer_ q !! Z.to_nat i = Some cell /\ sequence cell = i) /\
  enqueue_pos_ q = 0 /\
  dequeue_pos_ q = 0 /\
  contents q = [] /\
  (forall fuel spurious out,
     dequeue (S fuel) spurious q out = Done (false, out, q)).
Proof.
  apply (fresh_queue_is_empty 0 4).
  - size_t_range.
  - reflexivity.
Defined.

(** C7. In every state a single thread can reach, [enqueue] and
    [dequeue] return: however many times the weak compare-exchange fails
    spuriously, one more iteration of the retry loop than that ends the
    call, with success or with the full/empty answer, and more fuel
    changes nothing. *)
Theorem calls_terminate {T : Type} (T0 : T) (n : Z) (q : MPMCQueue T)
    (spurious : nat) :
  reachable T0 n q ->
  (forall v, exists ok q',
     forall fuel, (spurious < fuel)%nat ->
       enqueue fuel spurious q v = Done (ok, q')) /\
  (forall out, exists ok out' q',
     forall fuel, (spurious < fuel)%nat ->
       dequeue fuel spurious q out = Done (ok, out', q')).
Proof.
  intros Hr. destruct (reachable_Inv T0 n q Hr) as (E & D & l & HI). split.
  - intros v. destruct (E <? D + n) eqn:Hroom.
    + exists true, (enqueue_post n q E v). intros fuel Hf.
      rewrite (enqueue_total n q E D l) by assumption. rewrite Hroom. reflexivity.
    + exists false, q. intros fuel Hf.
      rewrite (enqueue_total n q E D l) by assumption. rewrite Hroom. reflexivity.
  - intros out. destruct l as [|x l].
    + exists false, out, q. intros fuel Hf.
      apply (dequeue_total n q E D []); assumption.
    + exists true, x, (dequeue_post n q D). intros fuel Hf.
      apply (dequeue_total n q E D (x :: l)); assumption.
Qed.

Lemma calls_terminate_witness :
  let q := mkQueue [mkCell 0 0; mkCell 1 0] 1 0 0 in
  reachable 0 2 q /\
  ((forall v, exists ok q',
      forall fuel, (3 < fuel)%nat -> enqueue fuel 3 q v = Done (ok, q')) /\
   (forall out, exists ok out' q',
      forall fuel, (3 < fuel)%nat -> dequeue fuel 3 q out = Done (ok, out', q'))).
Proof.
  assert (H : reachable 0 2 (mkQueue [mkCell 0 0; mkCell 1 0] 1 0 0)).
  { apply reach_ctor; [size_t_range|reflexivity]. }
  split; [exact H|]. exact (calls_terminate 0 2 _ 3 H).
Defined.

(** C9. A [dequeue] that returns false leaves the caller's variable
    behind the reference parameter as it was (and the queue too); the
    variable is assigned only by a call that returns true, which advanced
    the consumer counter by one and hands out the data of the slot that
    the claimed position maps to. *)
Theorem dequeue_failure_keeps_out {T : Type} (fuel spurious : nat)
    (q : MPMCQueue T) (out : T) (ok : bool) (out' : T) (q' : MPMCQueue T) :
  dequeue fuel spurious q out = Done (ok, out', q') ->
  if ok
  then dequeue_pos_ q' = wrap (dequeue_pos_ q + 1) /\
       exists cell,
         buffer_ q !! Z.to_nat (Z.land (dequeue_pos_ q) (buffer_mask_ q)) = Some cell /\
         out' = data cell
  else out' = out /\ q' = q.
Proof.
  intros H. apply dequeue_loop_result in H. destruct ok.
  - destruct H as [Hcell ->]. split; [reflexivity|exact Hcell].
  - exact H.
Qed.

Lemma dequeue_failure_keeps_out_witness :
  let q := mkQueue [mkCell 0 5; mkCell 1 6] 1 0 0 in
  dequeue 1 0 q 77 = Done (false, 77, q) /\ (77 = 77 /\ q = q).
Proof.
  split; [reflexivity|].
  exact (dequeue_failure_keeps_out 1 0
           (mkQueue [mkCell 0 5; mkCell 1 6] 1 0 0) 77 false 77 _ eq_refl).
Defined.

(** C10, as stated, fails when a counter wraps.  On a queue of capacity
    2, [2^64 - 1] enqueue/dequeue cycles leave both counters at
    [2^64 - 1]; the next [enqueue] succeeds and takes [enqueue_pos_] to
    0: the producer counter went down, and it is now below
    [dequeue_pos_]. *)
Lemma counters_wrap_counterexample :
  let q0 := mkQueue [mkCell 0 0; mkCell 1 0] 1 0 0 in
  MPMCQueue_ctor 0 2 = Some q0 /\
  exists q q',
    run 1 q0 (cycles WRAP_CYCLES) = Done (cycle_answers WRAP_CYCLES, q) /\
    enqueue 1 0 q 7 = Done (true, q') /\
    enqueue_pos_ q = 18446744073709551615 /\
    dequeue_pos_ q = 18446744073709551615 /\
    enqueue_pos_ q' = 0 /\
    dequeue_pos_ q' = 18446744073709551615 /\
    ~ (dequeue_pos_ q' <= enqueue_pos_ q') /\
    ~ (enqueue_pos_ q <= enqueue_pos_ q').
Proof.
  intros q0. split; [reflexivity|].
  assert (Hn : is_size_t 2) by size_t_range.
  destruct (run_cycles 2 q0 WRAP_CYCLES Hn eq_refl) as (q & Hrun & HI).
  assert (Hk : Z.of_nat WRAP_CYCLES = SIZE_MOD - 1).
  { unfold WRAP_CYCLES. pose proof SIZE_MOD_pos. lia. }
  rewrite Hk in HI.
  assert (Hmax : wrap (SIZE_MOD - 1) = 18446744073709551615).
  { rewrite wrap_small; [rewrite SIZE_MOD_eq; reflexivity|].
    unfold is_size_t. rewrite SIZE_MOD_eq. lia. }
  assert (Hzero : wrap (SIZE_MOD - 1 + 1) = 0).
  { replace (SIZE_MOD - 1 + 1) with SIZE_MOD by ring.
    unfold wrap. apply Z.mod_same. pose proof SIZE_MOD_pos. lia. }
  exists q, (enqueue_post 2 q (SIZE_MOD - 1) 7).
  assert (He : enqueue 1 0 q 7 = Done (true, enqueue_post 2 q (SIZE_MOD - 1) 7)).
  { rewrite (enqueue_total 2 q _ _ [] 7 1 0 HI) by lia.
    rewrite (proj2 (Z.ltb_lt _ _)) by lia. reflexivity. }
  pose proof (inv_enqueue_pos _ _ _ _ _ HI) as Hq.
  pose proof (inv_dequeue_pos _ _ _ _ _ HI) as Hd.
  rewrite Hmax in Hq, Hd.
  split; [exact Hrun|]. split; [exact He|].
  split; [exact Hq|]. split; [exact Hd|].
  unfold enqueue_post. cbn [enqueue_pos_ dequeue_pos_].
  rewrite Hzero, Hq, Hd. repeat split; lia.
Qed.

(** C10, amended.  After any run of calls on a fresh queue of capacity
    [n], the position counters are the numbers of successful enqueues
    and of successful dequeues of the run modulo [2^64]; these numbers
    satisfy [dequeued <= enqueued <= dequeued + n], so the resident
    count, which is [enqueue_pos_ - dequeue_pos_] in [size_t]
    arithmetic, lies between 0 and [n]; a further call adds 0 or 1 to
    each counter modulo [2^64].  While fewer than [2^64] enqueues have
    succeeded the counters themselves satisfy
    [dequeue_pos_ <= enqueue_pos_ <= dequeue_pos_ + n], and a call that
    keeps the number of successful enqueues below [2^64] decreases
    neither counter. *)
Theorem counters_bounded_until_wrap {T : Type} (T0 : T) (n : Z)
    (q0 : MPMCQueue T) (fuel : nat) (cs : list (call T))
    (answers : list (answer T)) (q : MPMCQueue T)
    (c : call T) (a : answer T) (q' : MPMCQueue T) :
  is_size_t n ->
  MPMCQueue_ctor T0 n = Some q0 ->
  run fuel q0 cs = Done (answers, q) ->
  step fuel q c = Done (a, q') ->
  (enqueue_pos_ q = wrap (enqueued answers) /\
   dequeue_pos_ q = wrap (dequeued answers)) /\
  (0 <= dequeued answers <= enqueued answers /\
   enqueued answers <= dequeued answers + n) /\
  (wrap (enqueue_pos_ q - dequeue_pos_ q) = resident answers /\
   0 <= resident answers <= n) /\
  (enqueue_pos_ q' = wrap (enqueue_pos_ q + enqueued [a]) /\
   dequeue_pos_ q' = wrap (dequeue_pos_ q + dequeued [a]) /\
   0 <= enqueued [a] <= 1 /\ 0 <= dequeued [a] <= 1) /\
  (enqueued answers < SIZE_MOD ->
   dequeue_pos_ q <= enqueue_pos_ q <= dequeue_pos_ q + n) /\
  (enqueued answers + enqueued [a] < SIZE_MOD ->
   enqueue_pos_ q <= enqueue_pos_ q' /\ dequeue_pos_ q <= dequeue_pos_ q').
Proof.
  intros Hn Hq Hrun Hstep. pose proof (ctor_Inv T0 n q0 Hn Hq) as HI0.
  destruct (run_simulation n cs q0 0 0 [] fuel answers q HI0 Hrun) as [_ HI].
  rewrite !Z.add_0_l in HI.
  set (E := enqueued answers) in *. set (D := dequeued answers) in *.
  set (l := fifo_items _) in HI.
  destruct (step_simulation n q E D l c fuel a q' HI Hstep) as (_ & _ & HI').
  pose proof (enqueued_single_range a) as He.
  pose proof (dequeued_single_range a) as Hd.
  set (e := enqueued [a]) in *. set (d := dequeued [a]) in *.
  pose proof (inv_order _ _ _ _ _ HI) as Ho.
  pose proof (inv_order _ _ _ _ _ HI') as Ho'.
  pose proof (inv_enqueue_pos _ _ _ _ _ HI) as Hep.
  pose proof (inv_dequeue_pos _ _ _ _ _ HI) as Hdp.
  pose proof (inv_enqueue_pos _ _ _ _ _ HI') as Hep'.
  pose proof (inv_dequeue_pos _ _ _ _ _ HI') as Hdp'.
  pose proof (Inv_resident n q E D l HI) as Hres.
  split; [split; assumption|]. split; [lia|].
  split; [unfold resident; fold E D; lia|].
  split; [rewrite Hep, Hdp, !wrap_add_l; auto|].
  split.
  - intros Hlt. rewrite Hep, Hdp, !wrap_small by (unfold is_size_t; lia). lia.
  - intros Hlt. rewrite Hep, Hdp, Hep', Hdp', !wrap_small by (unfold is_size_t; lia).
    lia.
Qed.

Lemma counters_bounded_until_wrap_witness :
  let q0 := mkQueue [mkCell 0 0; mkCell 1 0] 1 0 0 in
  let q := mkQueue [mkCell 1 5; mkCell 1 0] 1 1 0 in
  let q' := mkQueue [mkCell 2 5; mkCell 1 0] 1 1 1 in
  let answers : list (answer Z) := [Enqueued true] in
  let a : answer Z := Dequeued (Some 5) in
  (enqueue_pos_ q = wrap (enqueued answers) /\
   dequeue_pos_ q = wrap (dequeued answers)) /\
  (0 <= dequeued answers <= enqueued answers /\
   enqueued answers <= dequeued answers + 2) /\
  (wrap (enqueue_pos_ q - dequeue_pos_ q) = resident answers /\
   0 <= resident answers <= 2) /\
  (enqueue_pos_ q' = wrap (enqueue_pos_ q + enqueued [a]) /\
   dequeue_pos_ q' = wrap (dequeue_pos_ q + dequeued [a]) /\
   0 <= enqueued [a] <= 1 /\ 0 <= dequeued [a] <= 1) /\
  (enqueued answers < SIZE_MOD ->
   dequeue_pos_ q <= enqueue_pos_ q <= dequeue_pos_ q + 2) /\
  (enqueued answers + enqueued [a] < SIZE_MOD ->
   enqueue_pos_ q <= enqueue_pos_ q' /\ dequeue_pos_ q <= dequeue_pos_ q').
Proof.
  apply (counters_bounded_until_wrap 0 2
           (mkQueue [mkCell 0 0; mkCell 1 0] 1 0 0) 1 [Enqueue 5 0]
           [Enqueued true] (mkQueue [mkCell 1 5; mkCell 1 0] 1 1 0)
           (Dequeue 0 0) (Dequeued (Some 5))
           (mkQueue [mkCell 2 5; mkCell 1 0] 1 1 1)).
  - size_t_range.
  - reflexivity.
  - reflexivity.
  - reflexivity.
Defined.

(** ** Further properties: conservation and frames *)

Lemma fifo_run_conservation {T : Type} (n : Z) (cs : list (call T)) : forall l,
  l ++ accepted cs (fst (fifo_run (mkFifo n l) cs)) =
  delivered (fst (fifo_run (mkFifo n l) cs)) ++
  fifo_items (snd (fifo_run (mkFifo n l) cs)).
Proof.
  induction cs as [|c cs IH]; intros l.
  - simpl. apply app_nil_r.
  - destruct c as [v s|out s]; simpl.
    + unfold fifo_tryEnqueue. simpl.
      destruct (Z.of_nat (length l) <? n).
      * specialize (IH (l ++ [v])).
        destruct (fifo_run (mkFifo n (l ++ [v])) cs) as [rest f]. simpl in *.
        rewrite <- IH, <- app_assoc. reflexivity.
      * specialize (IH l).
        destruct (fifo_run (mkFifo n l) cs) as [rest f]. simpl in *. exact IH.
    + unfold fifo_tryDequeue. simpl. destruct l as [|x l].
      * specialize (IH []).
        destruct (fifo_run (mkFifo n []) cs) as [rest f]. simpl in *. exact IH.
      * specialize (IH l).
        destruct (fifo_run (mkFifo n l) cs) as [rest f]. simpl in *.
        f_equal. exact IH.
Qed.

(** X1. Nothing is lost, duplicated or reordered by a single thread:
    after any run of calls on a fresh queue, the values whose [enqueue]
    returned true are, in call order, the values handed out by the
    successful [dequeue] calls followed by the values still in the
    ring. *)
Theorem sequential_conservation {T : Type} (T0 : T) (n : Z) (q0 : MPMCQueue T)
    (cs : list (call T)) (fuel : nat) (answers : list (answer T))
    (q : MPMCQueue T) :
  is_size_t n ->
  MPMCQueue_ctor T0 n = Some q0 ->
  run fuel q0 cs = Done (answers, q) ->
  accepted cs answers = delivered answers ++ contents q.
Proof.
  intros Hn Hq Hrun. pose proof (ctor_Inv T0 n q0 Hn Hq) as HI.
  destruct (run_simulation n cs q0 0 0 [] fuel answers q HI Hrun) as [-> HI'].
  rewrite (Inv_contents _ _ _ _ _ HI').
  exact (fifo_run_conservation n cs []).
Qed.

Lemma sequential_conservation_witness :
  let cs := [Enqueue 10 0; Enqueue 20 1; Enqueue 30 0; Dequeue 0 0; Enqueue 40 0] in
  let answers : list (answer Z) :=
    [Enqueued true; Enqueued true; Enqueued false; Dequeued (Some 10);
     Enqueued true] in
  let q := mkQueue [mkCell 3 40; mkCell 2 20] 1 3 1 in
  accepted cs answers = delivered answers ++ contents q.
Proof.
  apply (sequential_conservation 0 2 (mkQueue [mkCell 0 0; mkCell 1 0] 1 0 0)
           _ 2 _ _).
  - size_t_range.
  - reflexivity.
  - vm_compute. reflexivity.
Defined.

(** X2. Whatever the state, an [enqueue] that returns true has touched
    the producer counter and one slot only: the counter went up by one,
    the slot that the counter's old value maps to holds the published
    sequence and the value, and the mask, the consumer counter, the
    number of slots and every other slot are as before. *)
Theorem enqueue_frame {T : Type} (fuel spurious : nat) (q : MPMCQueue T)
    (v : T) (q' : MPMCQueue T) :
  enqueue fuel spurious q v = Done (true, q') ->
  let idx := Z.to_nat (Z.land (enqueue_pos_ q) (buffer_mask_ q)) in
  enqueue_pos_ q' = wrap (enqueue_pos_ q + 1) /\
  dequeue_pos_ q' = dequeue_pos_ q /\
  buffer_mask_ q' = buffer_mask_ q /\
  length (buffer_ q') = length (buffer_ q) /\
  buffer_ q' !! idx = Some (mkCell (wrap (enqueue_pos_ q + 1)) v) /\
  (forall j, j <> idx -> buffer_ q' !! j = buffer_ q !! j).
Proof.
  intros H idx. apply enqueue_loop_result in H. destruct H as [[c Hc] ->]. simpl.
  split; [reflexivity|]. split; [reflexivity|]. split; [reflexivity|].
  split; [|split].
  - unfold store_sequence, store_data. rewrite !length_alter. reflexivity.
  - eapply store_lookup_eq, Hc.
  - intros j Hj. apply store_lookup_ne. intros E. apply Hj. symmetry. exact E.
Qed.

Lemma enqueue_frame_witness :
  let q := mkQueue [mkCell 0 0; mkCell 1 0; mkCell 2 0; mkCell 3 0] 3 0 0 in
  let q' := mkQueue [mkCell 1 7; mkCell 1 0; mkCell 2 0; mkCell 3 0] 3 1 0 in
  let idx := Z.to_nat (Z.land (enqueue_pos_ q) (buffer_mask_ q)) in
  enqueue_pos_ q' = wrap (enqueue_pos_ q + 1) /\
  dequeue_pos_ q' = dequeue_pos_ q /\
  buffer_mask_ q' = buffer_mask_ q /\
  length (buffer_ q') = length (buffer_ q) /\
  buffer_ q' !! idx = Some (mkCell (wrap (enqueue_pos_ q + 1)) 7) /\
  (forall j, j <> idx -> buffer_ q' !! j = buffer_ q !! j).
Proof.
  exact (enqueue_frame 1 0
           (mkQueue [mkCell 0 0; mkCell 1 0; mkCell 2 0; mkCell 3 0] 3 0 0) 7
           (mkQueue [mkCell 1 7; mkCell 1 0; mkCell 2 0; mkCell 3 0] 3 1 0)
           eq_refl).
Defined.

(** X3. Whatever the state, a [dequeue] that returns true copies the
    value out and erases nothing: every slot keeps its data, the claimed
    slot included, which still holds the value handed out; only that
    slot's sequence and the consumer counter change. *)
Theorem dequeue_keeps_slot_data {T : Type} (fuel spurious : nat)
    (q : MPMCQueue T) (out out' : T) (q' : MPMCQueue T) :
  dequeue fuel spurious q out = Done (true, out', q') ->
  let idx := Z.to_nat (Z.land (dequeue_pos_ q) (buffer_mask_ q)) in
  (forall j, data <$> buffer_ q' !! j = data <$> buffer_ q !! j) /\
  data <$> buffer_ q' !! idx = Some out' /\
  (forall j, j <> idx -> buffer_ q' !! j = buffer_ q !! j) /\
  length (buffer_ q') = length (buffer_ q) /\
  enqueue_pos_ q' = enqueue_pos_ q /\
  buffer_mask_ q' = buffer_mask_ q /\
  dequeue_pos_ q' = wrap (dequeue_pos_ q + 1).
Proof.
  intros H idx. apply dequeue_loop_result in H.
  destruct H as [(c & Hc & ->) ->]. simpl. fold idx. unfold store_sequence.
  split; [|split; [|split; [|split]]].
  - intros j. destruct (decide (j = idx)) as [->|Hj].
    + rewrite list_lookup_alter_eq. destruct (buffer_ q !! idx); reflexivity.
    + rewrite list_lookup_alter_ne; [reflexivity|].
      intros E. apply Hj. symmetry. exact E.
  - rewrite list_lookup_alter_eq. fold idx in Hc. rewrite Hc. reflexivity.
  - intros j Hj. apply list_lookup_alter_ne. intros E. apply Hj. symmetry. exact E.
  - apply length_alter.
  - repeat split.
Qed.

Lemma dequeue_keeps_slot_data_witness :
  let q := mkQueue [mkCell 1 7; mkCell 1 0] 1 1 0 in
  let q' := mkQueue [mkCell 2 7; mkCell 1 0] 1 1 1 in
  let idx := Z.to_nat (Z.land (dequeue_pos_ q) (buffer_mask_ q)) in
  (forall j, data <$> buffer_ q' !! j = data <$> buffer_ q !! j) /\
  data <$> buffer_ q' !! idx = Some 7 /\
  (forall j, j <> idx -> buffer_ q' !! j = buffer_ q !! j) /\
  length (buffer_ q') = length (buffer_ q) /\
  enqueue_pos_ q' = enqueue_pos_ q /\
  buffer_mask_ q' = buffer_mask_ q /\
  dequeue_pos_ q' = wrap (dequeue_pos_ q + 1).
Proof.
  exact (dequeue_keeps_slot_data 1 0 (mkQueue [mkCell 1 7; mkCell 1 0] 1 1 0)
           0 7 (mkQueue [mkCell 2 7; mkCell 1 0] 1 1 1) eq_refl).
Defined.

(** ** Further properties: the loops by the state of the slot *)

Section BySlot.
Context {T : Type}.
Implicit Types (q : MPMCQueue T) (v out : T) (cell : Cell T).

(** Whatever the rest of the state, [enqueue] succeeds on a slot whose
    sequence passes its [dif == 0] test. *)
Lemma enqueue_on_ready_slot fuel : forall spurious q v cell,
  buffer_ q !! Z.to_nat (Z.land (enqueue_pos_ q) (buffer_mask_ q)) = Some cell ->
  intptr_sub (to_intptr (sequence cell)) (to_intptr (enqueue_pos_ q)) = 0 ->
  (spurious < fuel)%nat ->
  enqueue fuel spurious q v =
  Done (true,
        let idx := Z.to_nat (Z.land (enqueue_pos_ q) (buffer_mask_ q)) in
        mkQueue
          (store_sequence (store_data (buffer_ q) idx v) idx
             (wrap (enqueue_pos_ q + 1)))
          (buffer_mask_ q) (wrap (enqueue_pos_ q + 1)) (dequeue_pos_ q)).
Proof.
  unfold enqueue.
  induction fuel as [|fuel IH]; intros spurious q v cell Hc Hdif Hf; [lia|].
  simpl enqueue_loop. rewrite Hc, Hdif. simpl.
  unfold compare_exchange_weak. rewrite Z.eqb_refl.
  destruct spurious as [|s]; simpl; [reflexivity|].
  apply (IH s q v cell); [assumption|assumption|lia].
Qed.

(** A slot whose sequence is ahead of what the consumer looks for makes
    [dequeue] reload the counter and retry without end. *)
Lemma dequeue_on_slot_ahead fuel : forall spurious q out cell,
  buffer_ q !! Z.to_nat (Z.land (dequeue_pos_ q) (buffer_mask_ q)) = Some cell ->
  0 < intptr_sub (to_intptr (sequence cell))
                 (to_intptr (wrap (dequeue_pos_ q + 1))) ->
  dequeue fuel spurious q out = Spinning.
Proof.
  unfold dequeue.
  induction fuel as [|fuel IH]; intros spurious q out cell Hc Hdif; [reflexivity|].
  simpl dequeue_loop. rewrite Hc.
  destruct (Z.eqb_spec (intptr_sub (to_intptr (sequence cell))
                          (to_intptr (wrap (dequeue_pos_ q + 1)))) 0); [lia|].
  destruct (Z.ltb_spec (intptr_sub (to_intptr (sequence cell))
                          (to_intptr (wrap (dequeue_pos_ q + 1)))) 0); [lia|].
  apply (IH spurious q out cell); assumption.
Qed.

End BySlot.

Lemma land_one_even m : Z.land 1 (2 * m) = 0.
Proof.
  rewrite Z.land_comm. change 1 with (Z.ones 1).
  rewrite Z.land_ones by lia. change (2 ^ 1) with 2.
  rewrite Z.mul_comm. apply Z_mod_mult.
Qed.

(** X4. What the assertion of the constructor guards against: built with
    the assertion compiled out and an odd [buffer_size] from 3 up, the
    queue maps positions 0 and 1 to the same slot; two calls of
    [enqueue] both return true, the second overwriting the value of the
    first in slot 0, and from then on no [dequeue] returns. *)
Theorem odd_capacity_loses_values {T : Type} (T0 : T) (n : Z) (a b : T)
    (fuel spurious1 spurious2 : nat) :
  is_size_t n -> 3 <= n -> n mod 2 = 1 ->
  (spurious1 < fuel)%nat -> (spurious2 < fuel)%nat ->
  exists q1 q2,
    enqueue fuel spurious1 (MPMCQueue_ctor_NDEBUG T0 n) a = Done (true, q1) /\
    buffer_ q1 !! 0%nat = Some (mkCell 1 a) /\
    enqueue fuel spurious2 q1 b = Done (true, q2) /\
    buffer_ q2 !! 0%nat = Some (mkCell 2 b) /\
    forall fuel' spurious out, dequeue fuel' spurious q2 out = Spinning.
Proof.
  intros Hn H3 Hodd Hs1 Hs2.
  assert (Hone : wrap 1 = 1).
  { apply wrap_small. unfold is_size_t. rewrite SIZE_MOD_eq. lia. }
  assert (Htwo : wrap 2 = 2).
  { apply wrap_small. unfold is_size_t. rewrite SIZE_MOD_eq. lia. }
  assert (Hmask : wrap (n - 1) = n - 1).
  { apply wrap_small. unfold is_size_t in *. lia. }
  assert (Heven : exists m, n - 1 = 2 * m).
  { exists (n / 2). pose proof (Z.div_mod n 2 ltac:(lia)). lia. }
  destruct Heven as [m Hm].
  set (q0 := MPMCQueue_ctor_NDEBUG T0 n).
  assert (Hc0 : buffer_ q0 !! 0%nat = Some (mkCell 0 T0)).
  { unfold q0, MPMCQueue_ctor_NDEBUG. simpl. rewrite init_sequences_lookup.
    destruct (decide (0 < Z.to_nat n)%nat); [|lia].
    rewrite lookup_replicate_2 by assumption. reflexivity. }
  pose proof (enqueue_on_ready_slot fuel spurious1 q0 a (mkCell 0 T0)) as He1.
  change (enqueue_pos_ q0) with 0 in He1. change (buffer_mask_ q0) with (wrap (n - 1)) in He1.
  rewrite Z.land_0_l in He1. change (Z.to_nat 0) with 0%nat in He1.
  specialize (He1 Hc0 eq_refl Hs1). cbv zeta in He1.
  change (0 + 1) with 1 in He1. rewrite Hone in He1.
  set (q1 := mkQueue _ _ _ _) in He1.
  assert (Hc1 : buffer_ q1 !! 0%nat = Some (mkCell 1 a)).
  { unfold q1. simpl. eapply store_lookup_eq, Hc0. }
  pose proof (enqueue_on_ready_slot fuel spurious2 q1 b (mkCell 1 a)) as He2.
  change (enqueue_pos_ q1) with 1 in He2. change (buffer_mask_ q1) with (wrap (n - 1)) in He2.
  rewrite Hmask, Hm, land_one_even in He2. change (Z.to_nat 0) with 0%nat in He2.
  specialize (He2 Hc1 eq_refl Hs2). cbv zeta in He2.
  change (1 + 1) with 2 in He2. rewrite Htwo in He2.
  set (q2 := mkQueue _ _ _ _) in He2.
  assert (Hc2 : buffer_ q2 !! 0%nat = Some (mkCell 2 b)).
  { unfold q2. simpl. eapply store_lookup_eq, Hc1. }
  exists q1, q2. split; [exact He1|]. split; [exact Hc1|].
  split; [exact He2|]. split; [exact Hc2|].
  intros fuel' spurious out.
  apply (dequeue_on_slot_ahead fuel' spurious q2 out (mkCell 2 b)).
  - change (dequeue_pos_ q2) with 0. rewrite Z.land_0_l. exact Hc2.
  - change (dequeue_pos_ q2) with 0. cbn [sequence]. change (0 + 1) with 1.
    rewrite Hone. vm_compute. reflexivity.
Qed.

Lemma odd_capacity_loses_values_witness :
  exists q1 q2,
    enqueue 2 0 (MPMCQueue_ctor_NDEBUG 0 3) 10 = Done (true, q1) /\
    buffer_ q1 !! 0%nat = Some (mkCell 1 10) /\
    enqueue 2 1 q1 20 = Done (true, q2) /\
    buffer_ q2 !! 0%nat = Some (mkCell 2 20) /\
    forall fuel' spurious out, dequeue fuel' spurious q2 out = Spinning.
Proof.
  apply (odd_capacity_loses_values 0 3 10 20 2 0 1).
  - size_t_range.
  - lia.
  - reflexivity.
  - lia.
  - lia.
Defined.

(** ** Further properties: the blocking queue *)

Section BlockingFacts.
Context {T : Type}.
Implicit Types (l : list T) (cs : list (call T)).

Lemma fifo_run_bound n cs : forall l,
  Z.of_nat (length l) <= n ->
  Z.of_nat (length (fifo_items (snd (fifo_run (mkFifo n l) cs)))) <= n.
Proof.
  induction cs as [|c cs IH]; intros l Hl; [exact Hl|].
  destruct c as [v s|out s]; simpl.
  - unfold fifo_tryEnqueue. simpl.
    destruct (Z.ltb_spec (Z.of_nat (length l)) n) as [Hlt|Hge].
    + specialize (IH (l ++ [v])).
      destruct (fifo_run (mkFifo n (l ++ [v])) cs) as [rest f]. simpl in *.
      apply IH. rewrite length_app. simpl. lia.
    + specialize (IH l Hl).
      destruct (fifo_run (mkFifo n l) cs) as [rest f]. exact IH.
  - unfold fifo_tryDequeue. simpl. destruct l as [|x l].
    + specialize (IH [] Hl).
      destruct (fifo_run (mkFifo n []) cs) as [rest f]. exact IH.
    + specialize (IH l).
      destruct (fifo_run (mkFifo n l) cs) as [rest f]. simpl in *.
      apply IH. lia.
Qed.

(** The blocking queue answers as the abstract FIFO does, up to the
    first [enqueue] the FIFO rejects, where it blocks. *)
Lemma blocking_run_fifo n cs : forall l,
  blocking_run (mkBlocking l n) cs =
  if existsb rejected (fst (fifo_run (mkFifo n l) cs))
  then Blocked
  else Returned (fst (fifo_run (mkFifo n l) cs),
                 mkBlocking (fifo_items (snd (fifo_run (mkFifo n l) cs))) n).
Proof.
  induction cs as [|c cs IH]; intros l; [reflexivity|].
  destruct c as [v s|out s]; simpl.
  - unfold blocking_enqueue, fifo_tryEnqueue, cv_wait. simpl.
    destruct (Z.of_nat (length l) <? n); simpl.
    + rewrite IH. destruct (fifo_run (mkFifo n (l ++ [v])) cs) as [rest f]. simpl.
      destruct (existsb rejected rest); reflexivity.
    + destruct (fifo_run (mkFifo n l) cs) as [rest f]. reflexivity.
  - unfold blocking_dequeue, fifo_tryDequeue. simpl. destruct l as [|x l]; simpl.
    + rewrite IH. destruct (fifo_run (mkFifo n []) cs) as [rest f]. simpl.
      destruct (existsb rejected rest); reflexivity.
    + rewrite IH. destruct (fifo_run (mkFifo n l) cs) as [rest f]. simpl.
      destruct (existsb rejected rest); reflexivity.
Qed.

End BlockingFacts.

(** X5. The blocking queue takes any capacity, zero and numbers that are
    no power of two included.  When a single thread's run of calls on a
    fresh one returns, no [enqueue] has answered false, the queue holds
    at most [capacity] values, and the values enqueued are, in order,
    the values dequeued followed by the values still queued; an
    [enqueue] on a queue that holds [capacity] values or more never
    returns, and a [dequeue] on an empty queue returns false and leaves
    the caller's variable alone. *)
Theorem blocking_queue_bounded_fifo {T : Type} (capacity : Z)
    (cs : list (call T)) (answers : list (answer T)) (b : BlockingQueue T) :
  is_size_t capacity ->
  blocking_run (BlockingQueue_ctor capacity) cs = Returned (answers, b) ->
  existsb rejected answers = false /\
  capacity_ b = capacity /\
  Z.of_nat (length (queue_ b)) <= capacity /\
  accepted cs answers = delivered answers ++ queue_ b /\
  (forall v, blocking_enqueue b v = Blocked <->
             capacity <= Z.of_nat (length (queue_ b))) /\
  (forall out, queue_ b = [] -> blocking_dequeue b out = Returned (false, out, b)).
Proof.
  intros Hc. unfold BlockingQueue_ctor. rewrite blocking_run_fifo.
  pose proof (fifo_run_conservation capacity cs []) as Hcons.
  pose proof (fifo_run_bound capacity cs []) as Hb.
  destruct (fifo_run (mkFifo capacity []) cs) as [rest f]. simpl in *.
  destruct (existsb rejected rest) eqn:Hrej; [discriminate|].
  intros [= <- <-]. simpl.
  split; [exact Hrej|]. split; [reflexivity|].
  split; [apply Hb; unfold is_size_t in Hc; lia|]. split; [exact Hcons|]. split.
  - intros v. unfold blocking_enqueue, cv_wait. simpl.
    destruct (Z.ltb_spec (Z.of_nat (length (fifo_items f))) capacity) as [Hlt|Hge];
      simpl; split; intros Hx; try discriminate; try lia; reflexivity.
  - intros out Hempty. unfold blocking_dequeue. simpl. rewrite Hempty. reflexivity.
Qed.

Lemma blocking_queue_bounded_fifo_witness :
  let cs := [Enqueue 10 0; Enqueue 20 0; Dequeue 0 0; Enqueue 30 0; Enqueue 40 0] in
  let answers : list (answer Z) :=
    [Enqueued true; Enqueued true; Dequeued (Some 10); Enqueued true;
     Enqueued true] in
  let b := mkBlocking [20; 30; 40] 3 in
  existsb rejected answers = false /\
  capacity_ b = 3 /\
  Z.of_nat (length (queue_ b)) <= 3 /\
  accepted cs answers = delivered answers ++ queue_ b /\
  (forall v, blocking_enqueue b v = Blocked <->
             3 <= Z.of_nat (length (queue_ b))) /\
  (forall out, queue_ b = [] -> blocking_dequeue b out = Returned (false, out, b)).
Proof.
  apply (blocking_queue_bounded_fifo 3).
  - size_t_range.
  - reflexivity.
Defined.

(** X6. The two queues of the benchmark agree on what a single thread
    sees.  On a fresh queue of a capacity the lock-free constructor
    accepts, every run of calls on the lock-free queue returns; the
    same calls on a fresh blocking queue of that capacity block exactly
    when the lock-free queue answers false to some [enqueue], and
    otherwise return the same answers and hold the same values in the
    same order. *)
Theorem lock_free_agrees_with_blocking {T : Type} (T0 : T) (n : Z)
    (q0 : MPMCQueue T) (cs : list (call T)) (fuel : nat) :
  is_size_t n ->
  MPMCQueue_ctor T0 n = Some q0 ->
  Forall (fun c => (call_spurious c < fuel)%nat) cs ->
  exists answers q,
    run fuel q0 cs = Done (answers, q) /\
    blocking_run (BlockingQueue_ctor n) cs =
    if existsb rejected answers then Blocked
    else Returned (answers, mkBlocking (contents q) n).
Proof.
  intros Hn Hq Hf. pose proof (ctor_Inv T0 n q0 Hn Hq) as HI.
  destruct (run_total n cs q0 0 0 [] fuel HI Hf) as (answers & q & Hrun).
  destruct (run_simulation n cs q0 0 0 [] fuel answers q HI Hrun) as [Ha HI'].
  exists answers, q. split; [exact Hrun|].
  unfold BlockingQueue_ctor. rewrite blocking_run_fifo.
  rewrite (Inv_contents _ _ _ _ _ HI'), <- Ha. reflexivity.
Qed.

Lemma lock_free_agrees_with_blocking_witness :
  let cs := [Enqueue 10 0; Enqueue 20 1; Dequeue 0 0; Enqueue 30 2; Dequeue 0 0] in
  exists answers q,
    run 3 (mkQueue [mkCell 0 0; mkCell 1 0] 1 0 0) cs = Done (answers, q) /\
    blocking_run (BlockingQueue_ctor 2) cs =
    if existsb rejected answers then Blocked
    else Returned (answers, mkBlocking (contents q) 2).
Proof.
  apply (lock_free_agrees_with_blocking 0 2).
  - size_t_range.
  - reflexivity.
  - repeat constructor.
Defined.

(** ** Further properties: the harness *)

Lemma INT_HALF_eq : INT_HALF = 2147483648.
Proof. reflexivity. Qed.

Lemma to_int_small z : is_int z -> to_int z = z.
Proof.
  unfold is_int, to_int. rewrite INT_HALF_eq. intros Hz.
  rewrite Z.mod_small by lia. lia.
Qed.

Lemma to_int_range z : is_int (to_int z).
Proof.
  unfold is_int, to_int. rewrite INT_HALF_eq.
  pose proof (Z.mod_pos_bound (z + 2147483648) (2 * 2147483648) ltac:(lia)). lia.
Qed.

(** With the assertion passed, the constructor builds what it builds
    without it. *)
Lemma ctor_NDEBUG_valid {T : Type} (T0 : T) n :
  valid_buffer_size n = true ->
  MPMCQueue_ctor T0 n = Some (MPMCQueue_ctor_NDEBUG T0 n).
Proof. intros Hv. unfold MPMCQueue_ctor. rewrite Hv. reflexivity. Qed.

Section HarnessFacts.
Variable h : harness.
Variable fuel : nat.
Variable spur : nat -> nat.
Hypothesis spur_fuel : forall k, (spur k < fuel)%nat.
Implicit Types (q : MPMCQueue Z) (l : list Z).

Lemma enqueue_retry_room n q E D l v patience calls :
  Inv n q E D l -> E < D + n ->
  enqueue_retry fuel spur (S patience) calls q v =
  Done (S calls, enqueue_post n q E v).
Proof.
  intros HI Hroom. simpl.
  rewrite (enqueue_total n q E D l v fuel (spur calls) HI (spur_fuel calls)).
  rewrite (proj2 (Z.ltb_lt _ _) Hroom). reflexivity.
Qed.

Lemma enqueue_retry_full n q E D l v patience : forall calls,
  Inv n q E D l -> E = D + n ->
  enqueue_retry fuel spur patience calls q v = Spinning.
Proof.
  induction patience as [|patience IH]; intros calls HI Hfull; [reflexivity|].
  simpl.
  rewrite (enqueue_total n q E D l v fuel (spur calls) HI (spur_fuel calls)).
  rewrite (proj2 (Z.ltb_ge _ _)) by lia. simpl. apply IH; assumption.
Qed.

Lemma producer_loop_fits n id patience steps : forall i calls q E D l,
  Inv n q E D l ->
  ITEMS_PER_PRODUCER h < INT_HALF ->
  0 <= i <= ITEMS_PER_PRODUCER h ->
  ITEMS_PER_PRODUCER h - i <= n - (E - D) ->
  (Z.to_nat (ITEMS_PER_PRODUCER h - i) < steps)%nat ->
  exists q',
    producer_loop h fuel spur steps (S patience) calls q id i =
    Done ((calls + Z.to_nat (ITEMS_PER_PRODUCER h - i))%nat, q') /\
    Inv n q' (E + (ITEMS_PER_PRODUCER h - i)) D
        (l ++ map (producer_value h id) (seqZ i (ITEMS_PER_PRODUCER h - i))).
Proof.
  induction steps as [|steps IH]; intros i calls q E D l HI Hint Hi Hfit Hsteps;
    [lia|].
  cbn [producer_loop].
  destruct (Z.ltb_spec i (ITEMS_PER_PRODUCER h)) as [Hlt|Hge].
  - rewrite (enqueue_retry_room n q E D l) by (assumption || lia).
    cbn [outcome_bind].
    rewrite to_int_small by (unfold is_int; rewrite INT_HALF_eq in *; lia).
    destruct (IH (i + 1) (S calls) (enqueue_post n q E (producer_value h id i))
                (E + 1) D (l ++ [producer_value h id i])) as (q' & Hrun & HI').
    + apply enqueue_post_Inv; [assumption|lia].
    + assumption.
    + lia.
    + lia.
    + lia.
    + exists q'. split.
      * rewrite Hrun. do 2 f_equal. lia.
      * rewrite (seqZ_cons i) by lia. simpl map.
        replace (Z.succ i) with (i + 1) by lia.
        replace (Z.pred (ITEMS_PER_PRODUCER h - i))
          with (ITEMS_PER_PRODUCER h - (i + 1)) by lia.
        rewrite <- app_assoc in HI'. simpl app in HI'.
        replace (E + (ITEMS_PER_PRODUCER h - i))
          with (E + 1 + (ITEMS_PER_PRODUCER h - (i + 1))) by lia.
        exact HI'.
  - exists q. replace (ITEMS_PER_PRODUCER h - i) with 0 by lia. split.
    + do 2 f_equal. simpl. lia.
    + rewrite seqZ_nil by lia. simpl. rewrite app_nil_r, Z.add_0_r. exact HI.
Qed.

Lemma producer_loop_stuck n id patience steps : forall i calls q E D l,
  Inv n q E D l ->
  ITEMS_PER_PRODUCER h < INT_HALF ->
  0 <= i ->
  n - (E - D) < ITEMS_PER_PRODUCER h - i ->
  producer_loop h fuel spur steps patience calls q id i = Spinning.
Proof.
  induction steps as [|steps IH]; intros i calls q E D l HI Hint Hi Hfit;
    [reflexivity|].
  pose proof (inv_order _ _ _ _ _ HI) as Ho.
  cbn [producer_loop].
  rewrite (proj2 (Z.ltb_lt i (ITEMS_PER_PRODUCER h))) by lia.
  destruct (Inv_full_or_room n q E D l HI) as [Hroom|Hfull].
  - destruct patience as [|patience]; [reflexivity|].
    rewrite (enqueue_retry_room n q E D l) by assumption.
    cbn [outcome_bind].
    rewrite to_int_small by (unfold is_int; rewrite INT_HALF_eq in *; lia).
    apply (IH (i + 1) (S calls) _ (E + 1) D (l ++ [producer_value h id i])).
    + apply enqueue_post_Inv; assumption.
    + assumption.
    + lia.
    + lia.
  - rewrite (enqueue_retry_full n q E D l) by assumption. reflexivity.
Qed.

Lemma consumer_loop_fits n steps : forall (k calls : nat) q E D l c val count,
  Inv n q E D l ->
  k = Z.to_nat (to_int (NUM_PRODUCERS h * ITEMS_PER_PRODUCER h) - c) ->
  - INT_HALF <= c -> 0 <= count -> count + Z.of_nat k < INT_HALF ->
  (k <= length l)%nat -> (k < steps)%nat ->
  exists q' val',
    consumer_loop h fuel spur steps calls q c val count =
    Done (mkExit q' (Z.max c (to_int (NUM_PRODUCERS h * ITEMS_PER_PRODUCER h)))
                 val' (count + Z.of_nat k)) /\
    Inv n q' E (D + Z.of_nat k) (drop k l).
Proof.
  set (N := to_int (NUM_PRODUCERS h * ITEMS_PER_PRODUCER h)).
  pose proof (to_int_range (NUM_PRODUCERS h * ITEMS_PER_PRODUCER h)) as HN.
  fold N in HN. unfold is_int in HN.
  induction steps as [|steps IH];
    intros k calls q E D l c val count HI Hk Hc Hcount Hsum Hlen Hsteps; [lia|].
  cbn [consumer_loop]. fold N.
  destruct (Z.ltb_spec c N) as [Hlt|Hge].
  - destruct k as [|k]; [lia|]. destruct l as [|x l]; [simpl in Hlen; lia|].
    rewrite (dequeue_total n q E D (x :: l) val fuel (spur calls) HI (spur_fuel calls)).
    cbn [outcome_bind].
    rewrite !to_int_small by (unfold is_int; lia).
    destruct (IH k (S calls) (dequeue_post n q D) E (D + 1) l (c + 1) x (count + 1))
      as (q' & val' & Hrun & HI').
    + apply (dequeue_post_Inv n q E D x l). exact HI.
    + lia.
    + lia.
    + lia.
    + lia.
    + simpl in Hlen. lia.
    + lia.
    + exists q', val'. split.
      * rewrite Hrun. do 2 f_equal; lia.
      * simpl drop. replace (D + Z.of_nat (S k)) with (D + 1 + Z.of_nat k) by lia.
        exact HI'.
  - replace k with 0%nat by lia. exists q, val. split.
    + do 2 f_equal; lia.
    + rewrite drop_0. replace (D + Z.of_nat 0) with D by lia. exact HI.
Qed.

Lemma consumer_loop_stuck n steps : forall calls q E D l c val count,
  Inv n q E D l ->
  - INT_HALF <= c -> 0 <= count ->
  count + (to_int (NUM_PRODUCERS h * ITEMS_PER_PRODUCER h) - c) < INT_HALF ->
  Z.of_nat (length l) < to_int (NUM_PRODUCERS h * ITEMS_PER_PRODUCER h) - c ->
  consumer_loop h fuel spur steps calls q c val count = Spinning.
Proof.
  set (N := to_int (NUM_PRODUCERS h * ITEMS_PER_PRODUCER h)).
  pose proof (to_int_range (NUM_PRODUCERS h * ITEMS_PER_PRODUCER h)) as HN.
  fold N in HN. unfold is_int in HN.
  induction steps as [|steps IH];
    intros calls q E D l c val count HI Hc Hcount Hsum Hlen; [reflexivity|].
  cbn [consumer_loop]. fold N.
  rewrite (proj2 (Z.ltb_lt c N)) by lia.
  rewrite (dequeue_total n q E D l val fuel (spur calls) HI (spur_fuel calls)).
  destruct l as [|x l]; cbn [outcome_bind].
  - apply (IH (S calls) q E D [] c val count); assumption.
  - rewrite !to_int_small by (unfold is_int; lia).
    apply (IH (S calls) (dequeue_post n q D) E (D + 1) l (c + 1) x (count + 1)).
    + apply (dequeue_post_Inv n q E D x l). exact HI.
    + lia.
    + lia.
    + lia.
    + simpl length in Hlen. lia.
Qed.

End HarnessFacts.

(** X7. The values the producers enqueue are distinct tags: as long as
    [NUM_PRODUCERS * ITEMS_PER_PRODUCER] fits an [int] (it does for the
    constants of the test harness and of the benchmark), the value of
    producer [id] for its item [i] is [id * ITEMS_PER_PRODUCER + i]
    without overflow, lies below the total number of items, and
    determines [id] and [i]. *)
Theorem producer_values_distinct (h : harness) (id i id' i' : Z) :
  0 <= ITEMS_PER_PRODUCER h ->
  NUM_PRODUCERS h * ITEMS_PER_PRODUCER h < INT_HALF ->
  0 <= id < NUM_PRODUCERS h -> 0 <= i < ITEMS_PER_PRODUCER h ->
  0 <= id' < NUM_PRODUCERS h -> 0 <= i' < ITEMS_PER_PRODUCER h ->
  producer_value h id i = id * ITEMS_PER_PRODUCER h + i /\
  0 <= producer_value h id i < NUM_PRODUCERS h * ITEMS_PER_PRODUCER h /\
  (producer_value h id i = producer_value h id' i' -> id = id' /\ i = i').
Proof.
  intros Hitems Hfit Hid Hi Hid' Hi'.
  set (items := ITEMS_PER_PRODUCER h) in *. set (P := NUM_PRODUCERS h) in *.
  assert (Hval : forall a b, 0 <= a < P -> 0 <= b < items ->
            producer_value h a b = a * items + b /\ 0 <= a * items + b < P * items).
  { intros a b Ha Hb. unfold producer_value. fold items.
    assert (0 <= a * items) by nia.
    assert (a * items + items <= P * items) by nia.
    rewrite INT_HALF_eq in Hfit.
    rewrite (to_int_small (a * items)) by (unfold is_int; rewrite INT_HALF_eq; lia).
    rewrite to_int_small by (unfold is_int; rewrite INT_HALF_eq; lia). lia. }
  destruct (Hval id i Hid Hi) as [E1 R1]. destruct (Hval id' i' Hid' Hi') as [E2 _].
  split; [exact E1|]. split; [rewrite E1; exact R1|].
  rewrite E1, E2. intros Heq.
  assert (id = id') by (destruct (Z.lt_trichotomy id id') as [|[|]]; nia).
  subst id'. lia.
Qed.

Lemma producer_values_distinct_witness :
  producer_value test_harness 3 99999 = 3 * ITEMS_PER_PRODUCER test_harness + 99999 /\
  0 <= producer_value test_harness 3 99999
    < NUM_PRODUCERS test_harness * ITEMS_PER_PRODUCER test_harness /\
  (producer_value test_harness 3 99999 = producer_value test_harness 2 0 ->
   3 = 2 /\ 99999 = 0).
Proof.
  apply (producer_values_distinct test_harness 3 99999 2 0);
    vm_compute; try split; try discriminate; reflexivity.
Defined.

(** X8. The producer of the harness depends on a consumer running beside
    it.  Run alone by a single thread from any reachable state of the
    queue, it returns exactly when its [ITEMS_PER_PRODUCER] items fit the
    free slots, after one call of [enqueue] per item and with its values
    appended in order; when they do not fit, as with the 100000 items
    and 1024 slots of the test harness, its yield loop never ends. *)
Theorem producer_alone (h : harness) (fuel : nat) (spur : nat -> nat) (n : Z)
    (q : MPMCQueue Z) (id : Z) (steps patience : nat) :
  reachable 0 n q ->
  (forall k, (spur k < fuel)%nat) ->
  0 <= ITEMS_PER_PRODUCER h < INT_HALF ->
  (ITEMS_PER_PRODUCER h <= n - Z.of_nat (length (contents q)) ->
   (Z.to_nat (ITEMS_PER_PRODUCER h) < steps)%nat -> (0 < patience)%nat ->
   exists q',
     producer h fuel spur steps patience q id =
     Done (Z.to_nat (ITEMS_PER_PRODUCER h), q') /\
     contents q' =
     contents q ++ map (producer_value h id) (seqZ 0 (ITEMS_PER_PRODUCER h))) /\
  (n - Z.of_nat (length (contents q)) < ITEMS_PER_PRODUCER h ->
   producer h fuel spur steps patience q id = Spinning).
Proof.
  intros Hr Hspur Hitems. destruct (reachable_Inv 0 n q Hr) as (E & D & l & HI).
  rewrite (Inv_contents n q E D l HI).
  pose proof (inv_items _ _ _ _ _ HI) as Hl. unfold producer. split.
  - intros Hfit Hsteps Hpat. destruct patience as [|patience]; [lia|].
    destruct (producer_loop_fits h fuel spur Hspur n id patience steps
                0 0%nat q E D l HI) as (q' & Hrun & HI');
      try rewrite Z.sub_0_r; try lia.
    rewrite Z.sub_0_r in Hrun, HI'. exists q'. split; [exact Hrun|].
    apply (Inv_contents _ _ _ _ _ HI').
  - intros Hfit.
    apply (producer_loop_stuck h fuel spur Hspur n id patience steps
             0 0%nat q E D l HI); lia.
Qed.

Lemma producer_alone_witness :
  let h := test_harness in
  let q := MPMCQueue_ctor_NDEBUG 0 (QUEUE_SIZE h) in
  reachable 0 (QUEUE_SIZE h) q /\
  ((ITEMS_PER_PRODUCER h <= QUEUE_SIZE h - Z.of_nat (length (contents q)) ->
    (Z.to_nat (ITEMS_PER_PRODUCER h) < 7)%nat -> (0 < 5)%nat ->
    exists q',
      producer h 1 (fun _ => 0%nat) 7 5 q 2 =
      Done (Z.to_nat (ITEMS_PER_PRODUCER h), q') /\
      contents q' =
      contents q ++ map (producer_value h 2) (seqZ 0 (ITEMS_PER_PRODUCER h))) /\
   (QUEUE_SIZE h - Z.of_nat (length (contents q)) < ITEMS_PER_PRODUCER h ->
    producer h 1 (fun _ => 0%nat) 7 5 q 2 = Spinning)).
Proof.
  assert (H : reachable 0 1024 (MPMCQueue_ctor_NDEBUG 0 1024)).
  { apply reach_ctor; [size_t_range|].
    apply ctor_NDEBUG_valid. vm_compute. reflexivity. }
  split; [exact H|].
  apply (producer_alone test_harness 1 (fun _ => 0%nat) 1024 _ 2 7 5 H).
  - intros k. lia.
  - vm_compute. split; [discriminate|reflexivity].
Defined.

(** X9. The consumer of the harness stops when the shared counter has
    reached [NUM_PRODUCERS * ITEMS_PER_PRODUCER], and only then.  Run
    alone by a single thread from any reachable state of the queue, with
    the counter at [total_consumed], it returns exactly when the queue
    holds the items still missing: it has then removed that many, the
    oldest ones, counted them, and left the counter at the total (or
    where it was, when it was there already); when the queue holds
    fewer, it empties the queue and its yield loop never ends. *)
Theorem consumer_alone (h : harness) (fuel : nat) (spur : nat -> nat) (n : Z)
    (q : MPMCQueue Z) (total_consumed val : Z) (steps : nat) :
  reachable 0 n q ->
  (forall k, (spur k < fuel)%nat) ->
  0 <= total_consumed < INT_HALF ->
  let total := to_int (NUM_PRODUCERS h * ITEMS_PER_PRODUCER h) in
  let missing := Z.to_nat (total - total_consumed) in
  ((missing <= length (contents q))%nat -> (missing < steps)%nat ->
   exists e,
     consumer h fuel spur steps q total_consumed val = Done e /\
     exit_total_consumed e = Z.max total_consumed total /\
     exit_count e = Z.of_nat missing /\
     contents (exit_queue e) = drop missing (contents q)) /\
  ((length (contents q) < missing)%nat ->
   consumer h fuel spur steps q total_consumed val = Spinning).
Proof.
  intros Hr Hspur Hc total missing.
  destruct (reachable_Inv 0 n q Hr) as (E & D & l & HI).
  rewrite (Inv_contents n q E D l HI).
  pose proof (to_int_range (NUM_PRODUCERS h * ITEMS_PER_PRODUCER h)) as HN.
  fold total in HN. unfold is_int in HN. unfold consumer. split.
  - intros Hfit Hsteps.
    destruct (consumer_loop_fits h fuel spur Hspur n steps missing 0%nat
                q E D l total_consumed val 0 HI eq_refl)
      as (q' & val' & Hrun & HI'); try lia.
    exists (mkExit q' (Z.max total_consumed total) val' (0 + Z.of_nat missing)).
    split; [exact Hrun|]. simpl.
    split; [reflexivity|]. split; [lia|]. apply (Inv_contents _ _ _ _ _ HI').
  - intros Hfit.
    apply (consumer_loop_stuck h fuel spur Hspur n steps 0%nat q E D l
             total_consumed val 0 HI); fold total; unfold missing in Hfit; lia.
Qed.

Lemma consumer_alone_witness :
  let h := test_harness in
  let q := MPMCQueue_ctor_NDEBUG 0 (QUEUE_SIZE h) in
  let total := to_int (NUM_PRODUCERS h * ITEMS_PER_PRODUCER h) in
  let missing := Z.to_nat (total - 0) in
  reachable 0 (QUEUE_SIZE h) q /\
  (((missing <= length (contents q))%nat -> (missing < 9)%nat ->
    exists e,
      consumer h 1 (fun _ => 0%nat) 9 q 0 (-1) = Done e /\
      exit_total_consumed e = Z.max 0 total /\
      exit_count e = Z.of_nat missing /\
      contents (exit_queue e) = drop missing (contents q)) /\
   ((length (contents q) < missing)%nat ->
    consumer h 1 (fun _ => 0%nat) 9 q 0 (-1) = Spinning)).
Proof.
  assert (H : reachable 0 1024 (MPMCQueue_ctor_NDEBUG 0 1024)).
  { apply reach_ctor; [size_t_range|].
    apply ctor_NDEBUG_valid. vm_compute. reflexivity. }
  split; [exact H|].
  apply (consumer_alone test_harness 1 (fun _ => 0%nat) 1024 _ 0 (-1) 9 H).
  - intros k. lia.
  - vm_compute. split; [discriminate|reflexivity].
Defined.

(** ** Interleaved executions *)

(** *** Lists of threads *)

Lemma sum_with_insert {A : Type} (f : A -> Z) (l : list A) : forall i t t',
  l !! i = Some t -> sum_with f (<[i := t']> l) = sum_with f l - f t + f t'.
Proof.
  induction l as [|x l IH]; intros [|i] t t' H; try discriminate; simpl in *.
  - injection H as ->. lia.
  - rewrite (IH i t t' H). lia.
Qed.

Lemma sum_with_nonneg {A : Type} (f : A -> Z) (l : list A) :
  (forall i t, l !! i = Some t -> 0 <= f t) -> 0 <= sum_with f l.
Proof.
  induction l as [|x l IH]; intros H; simpl; [lia|].
  pose proof (H 0%nat x eq_refl). 
  assert (0 <= sum_with f l) by (apply IH; intros i t Hi; apply (H (S i) t Hi)).
  lia.
Qed.

Lemma concat_map_insert {A B : Type} (f : A -> list B) (l : list A) : forall i t t',
  l !! i = Some t ->
  concat (map f (<[i := t']> l)) ++ f t ≡ₚ concat (map f l) ++ f t'.
Proof.
  induction l as [|x l IH]; intros [|i] t t' H; try discriminate; simpl in *.
  - injection H as ->.
    rewrite <- !app_assoc. rewrite (Permutation_app_comm (concat (map f l)) (f t)).
    rewrite (Permutation_app_comm (concat (map f l)) (f t')).
    rewrite !app_assoc. rewrite (Permutation_app_comm (f t') (f t)). reflexivity.
  - rewrite <- !app_assoc. rewrite (IH i t t' H). reflexivity.
Qed.

Lemma map_insert_same {A B : Type} (f : A -> B) (l : list A) : forall i t t',
  l !! i = Some t -> f t' = f t -> map f (<[i := t']> l) = map f l.
Proof.
  induction l as [|x l IH]; intros [|i] t t' H E; try discriminate; simpl in *.
  - injection H as ->. rewrite E. reflexivity.
  - rewrite (IH i t t' H E). reflexivity.
Qed.

Lemma sum_with_insert_same {A : Type} (f : A -> Z) (l : list A) i t t' :
  l !! i = Some t -> f t' = f t -> sum_with f (<[i := t']> l) = sum_with f l.
Proof. intros H E. rewrite (sum_with_insert f l i t t' H). lia. Qed.

Section Holders.
Context {A : Type}.
Variable holds : A -> option Z.
Implicit Types (threads : list A) (t : A).

Lemma held_insert threads i t t' pos :
  threads !! i = Some t ->
  held holds (<[i := t']> threads) pos <->
  holds t' = Some pos \/
  exists j tj, j <> i /\ threads !! j = Some tj /\ holds tj = Some pos.
Proof.
  intros Hi. pose proof (lookup_lt_Some _ _ _ Hi) as Hlt. split.
  - intros (j & tj & Hj & Hh).
    apply list_lookup_insert_Some in Hj as [(-> & -> & _)|(Hne & Hj)].
    + left. exact Hh.
    + right. exists j, tj. auto.
  - intros [Hh|(j & tj & Hne & Hj & Hh)].
    + exists i, t'. split; [|exact Hh]. apply list_lookup_insert_eq. exact Hlt.
    + exists j, tj. split; [|exact Hh].
      rewrite list_lookup_insert_ne by auto. exact Hj.
Qed.

Lemma held_insert_same threads i t t' pos :
  threads !! i = Some t -> holds t' = holds t ->
  held holds (<[i := t']> threads) pos <-> held holds threads pos.
Proof.
  intros Hi E. rewrite (held_insert threads i t t' pos Hi). split.
  - intros [Hh|(j & tj & _ & Hj & Hh)].
    + exists i, t. split; [exact Hi|]. rewrite <- E. exact Hh.
    + exists j, tj. auto.
  - intros (j & tj & Hj & Hh). destruct (decide (j = i)) as [->|Hne].
    + left. rewrite E. congruence.
    + right. exists j, tj. auto.
Qed.

Lemma held_insert_acquire threads i t t' p pos :
  threads !! i = Some t -> holds t = None -> holds t' = Some p ->
  held holds (<[i := t']> threads) pos <-> pos = p \/ held holds threads pos.
Proof.
  intros Hi Hn Hp. rewrite (held_insert threads i t t' pos Hi). split.
  - intros [Hh|(j & tj & _ & Hj & Hh)].
    + left. congruence.
    + right. exists j, tj. auto.
  - intros [->|(j & tj & Hj & Hh)]; [left; exact Hp|].
    right. exists j, tj. split; [|auto]. intros ->. congruence.
Qed.

Lemma held_insert_release threads i t t' p pos :
  threads !! i = Some t -> holds t = Some p -> holds t' = None ->
  exclusive holds threads ->
  held holds (<[i := t']> threads) pos <-> pos <> p /\ held holds threads pos.
Proof.
  intros Hi Hp Hn Hex. rewrite (held_insert threads i t t' pos Hi). split.
  - intros [Hh|(j & tj & Hne & Hj & Hh)]; [congruence|].
    split; [|exists j, tj; auto].
    intros ->. apply Hne. apply (Hex j i tj t p); assumption.
  - intros [Hne (j & tj & Hj & Hh)]. right. exists j, tj.
    split; [|auto]. intros ->. congruence.
Qed.

Lemma exclusive_insert threads i t t' :
  threads !! i = Some t -> exclusive holds threads ->
  (forall pos, holds t' = Some pos ->
     holds t = Some pos \/ ~ held holds threads pos) ->
  exclusive holds (<[i := t']> threads).
Proof.
  intros Hi Hex Hnew j k tj tk pos Hj Hk Hhj Hhk.
  apply list_lookup_insert_Some in Hj as [(-> & -> & _)|(Hnej & Hj)];
    apply list_lookup_insert_Some in Hk as [(-> & -> & _)|(Hnek & Hk)].
  - reflexivity.
  - destruct (Hnew pos Hhj) as [Ht|Hnot].
    + apply (Hex j k t tk pos); assumption.
    + exfalso. apply Hnot. exists k, tk. auto.
  - destruct (Hnew pos Hhk) as [Ht|Hnot].
    + apply (Hex j k tj t pos); assumption.
    + exfalso. apply Hnot. exists j, tj. auto.
  - apply (Hex j k tj tk pos); assumption.
Qed.

End Holders.

(** *** Arithmetic of positions and slots *)

Lemma mod_succ_ne n a : 2 <= n -> (a + 1) mod n <> a mod n.
Proof.
  intros Hn H.
  assert (Hd : (a + 1 - a) mod n = 0).
  { rewrite Zminus_mod, H, Z.sub_diag. apply Z.mod_0_l. lia. }
  replace (a + 1 - a) with 1 in Hd by ring.
  rewrite Z.mod_small in Hd; lia.
Qed.

Lemma mod_index_eq n a b :
  0 < n -> Z.to_nat (a mod n) = Z.to_nat (b mod n) -> a mod n = b mod n.
Proof.
  intros Hn H. pose proof (Z.mod_pos_bound a n Hn). pose proof (Z.mod_pos_bound b n Hn).
  lia.
Qed.

Lemma mod_add_cap n a : 0 < n -> (a + n) mod n = a mod n.
Proof.
  intros Hn. replace (a + n) with (a + 1 * n) by ring. apply Z_mod_plus_full.
Qed.

Lemma slot_phase_iff n E D (hp hp' hc hc' : Z -> Prop) seq cur :
  (hp cur <-> hp' cur) -> (hc cur <-> hc' cur) ->
  slot_phase n E D hp hc seq cur -> slot_phase n E D hp' hc' seq cur.
Proof. unfold slot_phase. tauto. Qed.

(** The test [dif == 0] on values that have not wrapped. *)
Lemma dif_zero a b :
  is_size_t a -> is_size_t b ->
  (intptr_sub (to_intptr a) (to_intptr b) =? 0) = (a =? b).
Proof.
  intros Ha Hb. pose proof (intptr_sub_zero a b Ha Hb) as H.
  destruct (Z.eqb_spec (intptr_sub (to_intptr a) (to_intptr b)) 0) as [E|E];
    destruct (Z.eqb_spec a b) as [E'|E']; tauto.
Qed.

Section SystemFacts.
Context {T : Type}.
Variables (n total : Z) (all : list T).
Implicit Types (s : system T) (q : MPMCQueue T).

Lemma stored_at_free i (c : Cell T) :
  2 <= n -> sequence c mod n = Z.of_nat i mod n -> stored_at n i c = [].
Proof.
  intros Hn H. unfold stored_at.
  destruct (Z.eqb_spec (sequence c mod n) ((Z.of_nat i + 1) mod n)) as [E|]; [|reflexivity].
  exfalso. apply (mod_succ_ne n (Z.of_nat i) Hn). congruence.
Qed.

Lemma stored_at_published i (c : Cell T) :
  sequence c mod n = (Z.of_nat i + 1) mod n -> stored_at n i c = [data c].
Proof. intros H. unfold stored_at. rewrite H, Z.eqb_refl. reflexivity. Qed.

Lemma stored_alter (f : Cell T -> Cell T) (buf : list (Cell T)) : forall i c,
  buf !! i = Some c ->
  stored n (alter f i buf) ++ stored_at n i c ≡ₚ stored n buf ++ stored_at n i (f c).
Proof.
  unfold stored.
  assert (G : forall (g : nat -> Cell T -> list T) (buf : list (Cell T)) i c,
            buf !! i = Some c ->
            concat (imap g (alter f i buf)) ++ g i c ≡ₚ concat (imap g buf) ++ g i (f c)).
  { clear buf. intros g buf. revert g.
    induction buf as [|x buf IH]; intros g [|i] c H; try discriminate; simpl in *.
    - injection H as ->.
      rewrite <- !app_assoc.
      rewrite (Permutation_app_comm (concat (imap (g ∘ S) buf)) (g 0%nat c)).
      rewrite (Permutation_app_comm (concat (imap (g ∘ S) buf)) (g 0%nat (f c))).
      rewrite !app_assoc.
      rewrite (Permutation_app_comm (g 0%nat (f c)) (g 0%nat c)). reflexivity.
    - rewrite <- !app_assoc. rewrite (IH (g ∘ S) i c H). reflexivity. }
  intros i c. apply G.
Qed.

Section WithInv.
Variable s : system T.
Hypothesis HI : SysInv n total all s.

Lemma SysInv_capacity : 2 <= n <= INTPTR_HALF.
Proof. apply capacity_ok_bounds, HI. Qed.

Lemma SysInv_unclaimed i t :
  sys_producers s !! i = Some t -> 0 <= unclaimed t.
Proof.
  intros Hi. pose proof (si_producers _ _ _ _ HI i t Hi) as Hok.
  unfold unclaimed, producer_ok, p_holds in *.
  destruct (p_pc t); try lia.
  - destruct Hok as (_ & Hv & _). destruct (p_values t); [contradiction|simpl; lia].
  - destruct Hok as (_ & c & _ & _ & Hv). destruct (p_values t); [discriminate|simpl; lia].
Qed.

Lemma SysInv_bounds :
  0 <= dequeue_pos_ (sys_queue s) <= enqueue_pos_ (sys_queue s) /\
  enqueue_pos_ (sys_queue s) <= total /\
  enqueue_pos_ (sys_queue s) + n + 1 < SIZE_MOD.
Proof.
  pose proof SysInv_capacity as Hn.
  pose proof (si_order _ _ _ _ HI) as Ho.
  pose proof (si_claimed _ _ _ _ HI) as Hc.
  pose proof (si_total _ _ _ _ HI) as [_ Ht].
  pose proof (sum_with_nonneg unclaimed (sys_producers s) SysInv_unclaimed) as Hs.
  rewrite INT_HALF_eq in Ht. rewrite INTPTR_HALF_eq in Hn. rewrite SIZE_MOD_eq.
  lia.
Qed.

Lemma SysInv_index pos :
  0 <= pos <= enqueue_pos_ (sys_queue s) + n ->
  cell_index (sys_queue s) pos = Z.to_nat (pos mod n).
Proof.
  intros Hp. pose proof SysInv_bounds as Hb. unfold cell_index.
  rewrite (si_mask _ _ _ _ HI), <- (wrap_small pos) at 1 by (unfold is_size_t; lia).
  rewrite land_mask by apply HI. reflexivity.
Qed.

Lemma SysInv_wrap pos :
  0 <= pos <= enqueue_pos_ (sys_queue s) + n -> wrap pos = pos.
Proof.
  intros Hp. pose proof SysInv_bounds as Hb. apply wrap_small. unfold is_size_t. lia.
Qed.

Lemma SysInv_slot pos :
  exists cell cur,
    buffer_ (sys_queue s) !! Z.to_nat (pos mod n) = Some cell /\
    cur mod n = pos mod n /\ 0 <= cur /\
    slot_phase n (enqueue_pos_ (sys_queue s)) (dequeue_pos_ (sys_queue s))
      (held p_holds (sys_producers s)) (held c_holds (sys_consumers s))
      (sequence cell) cur.
Proof.
  pose proof SysInv_capacity as Hn.
  apply (si_slots _ _ _ _ HI). apply Z.mod_pos_bound. lia.
Qed.

Lemma SysInv_lookup pos :
  is_Some (buffer_ (sys_queue s) !! Z.to_nat (pos mod n)).
Proof. destruct (SysInv_slot pos) as (cell & _ & H & _). eauto. Qed.

Lemma SysInv_sequence pos cell :
  buffer_ (sys_queue s) !! Z.to_nat (pos mod n) = Some cell ->
  0 <= sequence cell <= enqueue_pos_ (sys_queue s) + n.
Proof.
  intros Hc. pose proof SysInv_capacity as Hn.
  pose proof (si_order _ _ _ _ HI) as Ho.
  destruct (SysInv_slot pos) as (cell' & cur & Hc' & _ & Hcur & Hph).
  assert (cell' = cell) as -> by congruence.
  destruct Hph as [(-> & ? & _)|(-> & ? & _)]; lia.
Qed.

(** A slot whose sequence is a position of the slot is free or being
    written at that position; one whose sequence is one past a position
    of the slot is published or being read at it. *)
Lemma slot_of_writer pos cell :
  buffer_ (sys_queue s) !! Z.to_nat (pos mod n) = Some cell ->
  sequence cell = pos ->
  dequeue_pos_ (sys_queue s) <= pos < dequeue_pos_ (sys_queue s) + n /\
  (held p_holds (sys_producers s) pos <-> pos < enqueue_pos_ (sys_queue s)).
Proof.
  intros Hc Hs. pose proof SysInv_capacity as Hn.
  destruct (SysInv_slot pos) as (cell' & cur & Hc' & Hm & _ & Hph).
  assert (cell' = cell) as -> by congruence.
  destruct Hph as [(E & ? & ?)|(E & _)].
  - assert (cur = pos) as -> by lia. auto.
  - exfalso. apply (mod_succ_ne n cur); [lia|]. rewrite <- E, Hs. auto.
Qed.

Lemma slot_of_reader pos cell :
  buffer_ (sys_queue s) !! Z.to_nat (pos mod n) = Some cell ->
  sequence cell = pos + 1 ->
  pos < enqueue_pos_ (sys_queue s) /\ enqueue_pos_ (sys_queue s) <= pos + n /\
  ~ held p_holds (sys_producers s) pos /\
  (held c_holds (sys_consumers s) pos <-> pos < dequeue_pos_ (sys_queue s)).
Proof.
  intros Hc Hs. pose proof SysInv_capacity as Hn.
  destruct (SysInv_slot pos) as (cell' & cur & Hc' & Hm & _ & Hph).
  assert (cell' = cell) as -> by congruence.
  destruct Hph as [(E & _)|(E & ? & ? & ? & ?)].
  - exfalso. apply (mod_succ_ne n pos); [lia|]. rewrite <- Hs, E. auto.
  - assert (cur = pos) as -> by lia. auto.
Qed.

(** The slot of the producer counter, once its sequence has been seen
    to reach the counter, is free. *)
Lemma slot_at_enqueue_pos cell :
  buffer_ (sys_queue s) !! Z.to_nat (enqueue_pos_ (sys_queue s) mod n) = Some cell ->
  enqueue_pos_ (sys_queue s) <= sequence cell ->
  sequence cell = enqueue_pos_ (sys_queue s) /\
  enqueue_pos_ (sys_queue s) < dequeue_pos_ (sys_queue s) + n /\
  ~ held p_holds (sys_producers s) (enqueue_pos_ (sys_queue s)).
Proof.
  intros Hc Hs. pose proof SysInv_capacity as Hn.
  pose proof (si_order _ _ _ _ HI) as Ho.
  destruct (SysInv_slot (enqueue_pos_ (sys_queue s))) as (cell' & cur & Hc' & Hm & _ & Hph).
  assert (cell' = cell) as -> by congruence.
  destruct Hph as [(E & ? & Hh)|(E & ? & _)].
  - assert (Hcur : cur = enqueue_pos_ (sys_queue s)).
    { symmetry. apply (mod_window_inj n (enqueue_pos_ (sys_queue s))); try lia; auto. }
    rewrite Hcur in *. split; [exact E|]. split; [lia|]. rewrite Hh. lia.
  - exfalso. assert (Hcur : cur = enqueue_pos_ (sys_queue s) - 1) by lia.
    rewrite Hcur in Hm.
    apply (mod_succ_ne n (enqueue_pos_ (sys_queue s) - 1)); [lia|].
    rewrite Hm. f_equal. lia.
Qed.

(** The slot of the consumer counter, once its sequence has been seen
    to pass the counter, is published. *)
Lemma slot_at_dequeue_pos cell :
  buffer_ (sys_queue s) !! Z.to_nat (dequeue_pos_ (sys_queue s) mod n) = Some cell ->
  dequeue_pos_ (sys_queue s) + 1 <= sequence cell ->
  sequence cell = dequeue_pos_ (sys_queue s) + 1 /\
  dequeue_pos_ (sys_queue s) < enqueue_pos_ (sys_queue s) /\
  ~ held c_holds (sys_consumers s) (dequeue_pos_ (sys_queue s)).
Proof.
  intros Hc Hs. pose proof SysInv_capacity as Hn.
  pose proof (si_order _ _ _ _ HI) as Ho.
  destruct (SysInv_slot (dequeue_pos_ (sys_queue s))) as (cell' & cur & Hc' & Hm & _ & Hph).
  assert (cell' = cell) as -> by congruence.
  destruct Hph as [(E & ? & _)|(E & ? & ? & _ & Hh)].
  - exfalso. assert (cur = dequeue_pos_ (sys_queue s)).
    { symmetry. apply (mod_window_inj n (dequeue_pos_ (sys_queue s))); try lia; auto. }
    lia.
  - assert (Hcur : cur = dequeue_pos_ (sys_queue s)).
    { symmetry. apply (mod_window_inj n (dequeue_pos_ (sys_queue s))); try lia; auto. }
    rewrite Hcur in *. split; [lia|]. split; [lia|]. rewrite Hh. lia.
Qed.

End WithInv.
End SystemFacts.

(** *** Moving one value between the lists of the conservation law *)

Lemma concat_map_insert_cons {A B : Type} (f : A -> list B) (l : list A) i t t' v :
  l !! i = Some t -> f t = v :: f t' ->
  concat (map f l) ≡ₚ v :: concat (map f (<[i := t']> l)).
Proof.
  intros Hi E. pose proof (concat_map_insert f l i t t' Hi) as H.
  rewrite E in H.
  apply (Permutation_app_inv_r (f t')).
  rewrite <- H. simpl.
  rewrite (Permutation_middle (concat (map f (<[i:=t']> l))) (f t') v). reflexivity.
Qed.

Lemma concat_map_insert_snoc {A B : Type} (f : A -> list B) (l : list A) i t t' v :
  l !! i = Some t -> f t' = f t ++ [v] ->
  concat (map f (<[i := t']> l)) ≡ₚ v :: concat (map f l).
Proof.
  intros Hi E. pose proof (concat_map_insert f l i t t' Hi) as H.
  rewrite E in H.
  apply (Permutation_app_inv_r (f t)).
  rewrite H. rewrite app_assoc.
  rewrite <- (Permutation_cons_append (concat (map f l) ++ f t) v). reflexivity.
Qed.

Section StoredFacts.
Context {T : Type}.
Variable n : Z.
Implicit Types (buf : list (Cell T)) (c : Cell T).

Lemma stored_unchanged (f : Cell T -> Cell T) buf i c :
  buf !! i = Some c -> stored_at n i (f c) = stored_at n i c ->
  stored n (alter f i buf) ≡ₚ stored n buf.
Proof.
  intros Hi E. pose proof (stored_alter n f buf i c Hi) as H. rewrite E in H.
  apply (Permutation_app_inv_r _ _ _ H).
Qed.

Lemma stored_publish (f : Cell T -> Cell T) buf i c v :
  buf !! i = Some c -> stored_at n i c = [] -> stored_at n i (f c) = [v] ->
  stored n (alter f i buf) ≡ₚ v :: stored n buf.
Proof.
  intros Hi E E'. pose proof (stored_alter n f buf i c Hi) as H.
  rewrite E, E', app_nil_r in H. rewrite H.
  symmetry. apply Permutation_cons_append.
Qed.

Lemma stored_release (f : Cell T -> Cell T) buf i c v :
  buf !! i = Some c -> stored_at n i c = [v] -> stored_at n i (f c) = [] ->
  stored n buf ≡ₚ v :: stored n (alter f i buf).
Proof.
  intros Hi E E'. pose proof (stored_alter n f buf i c Hi) as H.
  rewrite E, E', app_nil_r in H. rewrite <- H.
  symmetry. apply Permutation_cons_append.
Qed.

Lemma stored_at_writer pos c :
  2 <= n -> sequence c = pos -> stored_at n (Z.to_nat (pos mod n)) c = [].
Proof.
  intros Hn E. apply stored_at_free; [assumption|].
  pose proof (Z.mod_pos_bound pos n ltac:(lia)).
  rewrite Z2Nat.id by lia. rewrite Zmod_mod. congruence.
Qed.

Lemma stored_at_reader pos c :
  2 <= n -> sequence c = pos + 1 -> stored_at n (Z.to_nat (pos mod n)) c = [data c].
Proof.
  intros Hn E. apply stored_at_published.
  pose proof (Z.mod_pos_bound pos n ltac:(lia)).
  rewrite Z2Nat.id by lia. rewrite E. rewrite Zplus_mod_idemp_l. reflexivity.
Qed.

End StoredFacts.

(** *** What the other threads know survives a step *)

Section Frames.
Context {T : Type}.
Variable n : Z.
Implicit Types (q : MPMCQueue T).

Lemma producer_ok_counter q q' (t : producer_thread T) :
  producer_ok n q t -> buffer_ q' = buffer_ q ->
  enqueue_pos_ q <= enqueue_pos_ q' -> producer_ok n q' t.
Proof.
  unfold producer_ok. intros H Hb He. rewrite Hb.
  destruct (p_pc t); try exact H.
  - lia.
  - destruct H as [? H]. split; [lia|exact H].
  - destruct H as [? H]. split; [lia|exact H].
  - destruct H as [? H]. split; [lia|exact H].
Qed.

Lemma consumer_ok_counter q q' (t : consumer_thread T) :
  consumer_ok n q t -> buffer_ q' = buffer_ q ->
  dequeue_pos_ q <= dequeue_pos_ q' -> consumer_ok n q' t.
Proof.
  unfold consumer_ok. intros H Hb He. rewrite Hb.
  destruct (c_pc t); try exact H.
  - lia.
  - destruct H as [? H]. split; [lia|exact H].
  - destruct H as [? H]. split; [lia|exact H].
  - destruct H as [? H]. split; [lia|exact H].
Qed.

(** A store to the slot at [idx] that does not lower its sequence, by a
    thread other than the one that holds the slot. *)
Lemma producer_ok_frame q (f : Cell T -> Cell T) idx (t : producer_thread T) :
  producer_ok n q t ->
  (forall c, buffer_ q !! idx = Some c -> sequence c <= sequence (f c)) ->
  (forall pos c, p_holds t = Some pos -> Z.to_nat (pos mod n) = idx ->
     buffer_ q !! idx = Some c -> sequence c <> pos) ->
  producer_ok n (with_buffer q (alter f idx (buffer_ q))) t.
Proof.
  unfold producer_ok, p_holds. intros H Hf Hh. simpl.
  destruct (p_pc t) as [|pos|pos|pos|pos]; try exact H.
  - destruct H as (Hb & c & Hc & Hs). split; [exact Hb|].
    destruct (decide (idx = Z.to_nat (pos mod n))) as [->|Hne].
    + exists (f c). rewrite list_lookup_alter_eq, Hc. split; [reflexivity|].
      specialize (Hf c Hc). lia.
    + exists c. rewrite list_lookup_alter_ne by exact Hne. auto.
  - destruct H as (Hb & Hv & c & Hc & Hs). split; [exact Hb|]. split; [exact Hv|].
    destruct (decide (idx = Z.to_nat (pos mod n))) as [->|Hne].
    + exfalso. apply (Hh pos c); auto.
    + exists c. rewrite list_lookup_alter_ne by exact Hne. auto.
  - destruct H as (Hb & c & Hc & Hs & Hd). split; [exact Hb|].
    destruct (decide (idx = Z.to_nat (pos mod n))) as [->|Hne].
    + exfalso. apply (Hh pos c); auto.
    + exists c. rewrite list_lookup_alter_ne by exact Hne. auto.
Qed.

Lemma consumer_ok_frame q (f : Cell T -> Cell T) idx (t : consumer_thread T) :
  consumer_ok n q t ->
  (forall c, buffer_ q !! idx = Some c -> sequence c <= sequence (f c)) ->
  (forall pos c, c_holds t = Some pos -> Z.to_nat (pos mod n) = idx ->
     buffer_ q !! idx = Some c -> sequence c <> pos + 1) ->
  consumer_ok n (with_buffer q (alter f idx (buffer_ q))) t.
Proof.
  unfold consumer_ok, c_holds. intros H Hf Hh. simpl.
  destruct (c_pc t) as [| |pos|pos|pos|pos| |]; try exact H.
  - destruct H as (Hb & c & Hc & Hs). split; [exact Hb|].
    destruct (decide (idx = Z.to_nat (pos mod n))) as [->|Hne].
    + exists (f c). rewrite list_lookup_alter_eq, Hc. split; [reflexivity|].
      specialize (Hf c Hc). lia.
    + exists c. rewrite list_lookup_alter_ne by exact Hne. auto.
  - destruct H as (Hb & c & Hc & Hs). split; [exact Hb|].
    destruct (decide (idx = Z.to_nat (pos mod n))) as [->|Hne].
    + exfalso. apply (Hh pos c); auto.
    + exists c. rewrite list_lookup_alter_ne by exact Hne. auto.
  - destruct H as (Hb & c & Hc & Hs & Hd). split; [exact Hb|].
    destruct (decide (idx = Z.to_nat (pos mod n))) as [->|Hne].
    + exfalso. apply (Hh pos c); auto.
    + exists c. rewrite list_lookup_alter_ne by exact Hne. auto.
Qed.

End Frames.

(** *** The steps of a producer keep the invariant *)

Ltac system_fields :=
  split; cbn [sys_queue sys_total_consumed sys_producers sys_consumers].

Section ProducerSteps.
Context {T : Type}.
Variables (n total : Z) (all : list T).
Variable s : system T.
Hypothesis HI : SysInv n total all s.
Variables (i : nat) (t : producer_thread T).
Hypothesis Hi : sys_producers s !! i = Some t.

(** A step that touches neither the shared memory nor what the thread
    holds. *)
Lemma producer_local t' :
  p_values t' = p_values t -> p_holds t' = p_holds t ->
  producer_ok n (sys_queue s) t' ->
  SysInv n total all
    (mkSystem (sys_queue s) (sys_total_consumed s)
       (<[i := t']> (sys_producers s)) (sys_consumers s)).
Proof.
  intros Hv Hh Hok. system_fields.
  - apply HI.
  - apply HI.
  - apply HI.
  - apply HI.
  - apply HI.
  - rewrite (sum_with_insert_same unclaimed _ i t t' Hi); [apply HI|].
    unfold unclaimed. rewrite Hv, Hh. reflexivity.
  - intros j Hj.
    destruct (si_slots _ _ _ _ HI j Hj) as (cell & cur & Hc & Hm & Hcur & Hph).
    exists cell, cur. split; [exact Hc|]. split; [exact Hm|]. split; [exact Hcur|].
    eapply slot_phase_iff; [| |exact Hph]; [|reflexivity].
    symmetry. apply (held_insert_same p_holds _ i t t'); assumption.
  - intros j tj Hj.
    apply list_lookup_insert_Some in Hj as [(_ & <- & _)|(_ & Hj)];
      [exact Hok|apply (si_producers _ _ _ _ HI j tj Hj)].
  - apply HI.
  - apply (exclusive_insert p_holds _ i t t' Hi); [apply HI|].
    intros pos Hp. left. rewrite <- Hh. exact Hp.
  - apply HI.
  - unfold unsent, received. simpl.
    rewrite (map_insert_same p_values _ i t t' Hi Hv). apply HI.
  - apply HI.
  - apply HI.
Qed.

(** The compare-exchange that claims the position of the counter. *)
Lemma producer_cas :
  p_pc t = PCas (enqueue_pos_ (sys_queue s)) -> p_values t <> [] ->
  SysInv n total all
    (mkSystem (with_enqueue_pos (sys_queue s) (enqueue_pos_ (sys_queue s) + 1))
       (sys_total_consumed s)
       (<[i := mkProducer (p_values t) (PWriteData (enqueue_pos_ (sys_queue s)))]>
          (sys_producers s))
       (sys_consumers s)).
Proof.
  intros Hpc Hv. pose proof (SysInv_capacity n total all s HI) as Hn.
  pose proof (si_order _ _ _ _ HI) as Ho.
  pose proof (si_producers _ _ _ _ HI i t Hi) as Hok.
  unfold producer_ok in Hok. rewrite Hpc in Hok.
  destruct Hok as (_ & cell & Hcell & Hseq).
  destruct (slot_at_enqueue_pos n total all s HI cell Hcell Hseq) as (Hs & Hroom & Hfree).
  set (E := enqueue_pos_ (sys_queue s)) in *.
  set (t' := mkProducer (p_values t) (PWriteData E)).
  assert (Hnone : p_holds t = None) by (unfold p_holds; rewrite Hpc; reflexivity).
  assert (Hheld : forall pos,
            held p_holds (<[i := t']> (sys_producers s)) pos <->
            pos = E \/ held p_holds (sys_producers s) pos).
  { intros pos. apply (held_insert_acquire p_holds _ i t t' E pos Hi Hnone). reflexivity. }
  system_fields.
  - apply HI.
  - apply HI.
  - apply HI.
  - apply HI.
  - simpl. fold E. lia.
  - simpl. fold E. rewrite (sum_with_insert unclaimed _ i t t' Hi).
    pose proof (si_claimed _ _ _ _ HI) as Hc. fold E in Hc.
    unfold unclaimed at 2 3. rewrite Hnone. simpl. lia.
  - intros j Hj. simpl. fold E.
    destruct (si_slots _ _ _ _ HI j Hj) as (c & cur & Hc & Hm & Hcur & Hph).
    exists c, cur. split; [exact Hc|]. split; [exact Hm|]. split; [exact Hcur|].
    fold E in Hph.
    destruct Hph as [(Hsq & Hw & Hh)|(Hsq & Hlt & Hle & Hnh & Hhc)].
    + left. split; [exact Hsq|]. split; [exact Hw|]. rewrite Hheld, Hh. lia.
    + right. split; [exact Hsq|]. split; [lia|]. split; [|split; [|exact Hhc]].
      * destruct (Z.eq_dec E (cur + n)) as [Heq|]; [exfalso|lia].
        assert (Hj' : E mod n = j).
        { rewrite Heq, mod_add_cap by lia. exact Hm. }
        rewrite Hj' in Hcell. assert (c = cell) by congruence. subst c. lia.
      * rewrite Hheld. intros [->|Hh]; [lia|contradiction].
  - intros j tj Hj.
    apply list_lookup_insert_Some in Hj as [(_ & <- & _)|(_ & Hj)].
    + unfold producer_ok. simpl. fold E. split; [lia|]. split; [exact Hv|].
      exists cell. auto.
    + apply (producer_ok_counter n (sys_queue s)).
      * apply (si_producers _ _ _ _ HI j tj Hj).
      * reflexivity.
      * simpl. fold E. lia.
  - intros j tj Hj. apply (consumer_ok_counter n (sys_queue s)).
    + apply (si_consumers _ _ _ _ HI j tj Hj).
    + reflexivity.
    + simpl. lia.
  - apply (exclusive_insert p_holds _ i t t' Hi); [apply HI|].
    intros pos [= <-]. right. exact Hfree.
  - apply HI.
  - unfold unsent, received. simpl.
    rewrite (map_insert_same p_values _ i t t' Hi eq_refl). apply HI.
  - apply HI.
  - apply HI.
Qed.

(** The write of the value into the claimed slot. *)
Lemma producer_write_data pos v rest :
  p_pc t = PWriteData pos -> p_values t = v :: rest ->
  SysInv n total all
    (mkSystem
       (with_buffer (sys_queue s)
          (store_data (buffer_ (sys_queue s)) (cell_index (sys_queue s) pos) v))
       (sys_total_consumed s)
       (<[i := mkProducer (p_values t) (PStoreSeq pos)]> (sys_producers s))
       (sys_consumers s)).
Proof.
  intros Hpc Hv. pose proof (SysInv_capacity n total all s HI) as Hn.
  pose proof (si_order _ _ _ _ HI) as Ho.
  pose proof (si_producers _ _ _ _ HI i t Hi) as Hok.
  unfold producer_ok in Hok. rewrite Hpc in Hok.
  destruct Hok as (Hpos & _ & cell & Hcell & Hseq).
  rewrite (SysInv_index n total all s HI pos) by lia.
  set (idx := Z.to_nat (pos mod n)) in *.
  set (t' := mkProducer (p_values t) (PStoreSeq pos)).
  set (f := fun c : Cell T => mkCell (sequence c) v).
  assert (Hsome : p_holds t = Some pos) by (unfold p_holds; rewrite Hpc; reflexivity).
  assert (Hheld : forall p,
            held p_holds (<[i := t']> (sys_producers s)) p <->
            held p_holds (sys_producers s) p).
  { intros p. apply (held_insert_same p_holds _ i t t' p Hi). symmetry. exact Hsome. }
  unfold store_data. fold f.
  system_fields.
  - apply HI.
  - simpl. rewrite length_alter. apply HI.
  - apply HI.
  - apply HI.
  - apply HI.
  - simpl. rewrite (sum_with_insert_same unclaimed _ i t t' Hi); [apply HI|].
    unfold unclaimed. rewrite Hsome. reflexivity.
  - intros j Hj. simpl.
    destruct (si_slots _ _ _ _ HI j Hj) as (c & cur & Hc & Hm & Hcur & Hph).
    destruct (decide (idx = Z.to_nat j)) as [Heq|Hne].
    + exists (f c), cur. rewrite <- Heq, list_lookup_alter_eq. rewrite Heq, Hc.
      split; [reflexivity|]. split; [exact Hm|]. split; [exact Hcur|].
      simpl. eapply slot_phase_iff; [| |exact Hph]; [|reflexivity].
      symmetry. apply Hheld.
    + exists c, cur. rewrite list_lookup_alter_ne by exact Hne.
      split; [exact Hc|]. split; [exact Hm|]. split; [exact Hcur|].
      eapply slot_phase_iff; [| |exact Hph]; [|reflexivity].
      symmetry. apply Hheld.
  - intros j tj Hj.
    apply list_lookup_insert_Some in Hj as [(_ & <- & _)|(Hne & Hj)].
    + unfold producer_ok. simpl. split; [exact Hpos|].
      exists (f cell). fold idx. rewrite list_lookup_alter_eq, Hcell.
      split; [reflexivity|]. split; [exact Hseq|]. rewrite Hv. reflexivity.
    + apply (producer_ok_frame n (sys_queue s) f idx tj).
      * apply (si_producers _ _ _ _ HI j tj Hj).
      * intros c _. simpl. lia.
      * intros p c Hp _ Hc Hs. apply Hne.
        assert (c = cell) by congruence. subst c.
        apply (si_producers_exclusive _ _ _ _ HI i j t tj pos); congruence.
  - intros j tj Hj. apply (consumer_ok_frame n (sys_queue s) f idx tj).
    + apply (si_consumers _ _ _ _ HI j tj Hj).
    + intros c _. simpl. lia.
    + intros p c Hp Hidx Hc Hs.
      assert (c = cell) by congruence. subst c.
      apply (mod_succ_ne n p); [lia|].
      rewrite <- Hs, Hseq. symmetry. apply mod_index_eq; [lia|exact Hidx].
  - apply (exclusive_insert p_holds _ i t t' Hi); [apply HI|].
    intros p Hp. left. rewrite Hsome. exact Hp.
  - apply HI.
  - unfold unsent, received. simpl.
    rewrite (map_insert_same p_values _ i t t' Hi eq_refl).
    rewrite (stored_unchanged n f _ idx cell Hcell).
    + apply HI.
    + unfold idx. rewrite !stored_at_writer by (simpl; lia || assumption). reflexivity.
  - apply HI.
  - apply HI.
Qed.

(** The store that publishes the slot, and the return from [enqueue]. *)
Lemma producer_store_seq pos v rest :
  p_pc t = PStoreSeq pos -> p_values t = v :: rest ->
  SysInv n total all
    (mkSystem
       (with_buffer (sys_queue s)
          (store_sequence (buffer_ (sys_queue s)) (cell_index (sys_queue s) pos)
             (wrap (pos + 1))))
       (sys_total_consumed s)
       (<[i := mkProducer rest PLoadPos]> (sys_producers s))
       (sys_consumers s)).
Proof.
  intros Hpc Hv. pose proof (SysInv_capacity n total all s HI) as Hn.
  pose proof (si_order _ _ _ _ HI) as Ho.
  pose proof (si_producers _ _ _ _ HI i t Hi) as Hok.
  unfold producer_ok in Hok. rewrite Hpc in Hok.
  destruct Hok as (Hpos & cell & Hcell & Hseq & Hdata).
  rewrite Hv in Hdata. injection Hdata as Hdata.
  rewrite (SysInv_index n total all s HI pos) by lia.
  rewrite (SysInv_wrap n total all s HI (pos + 1)) by lia.
  destruct (slot_of_writer n total all s HI pos cell Hcell Hseq) as (Hwin & _).
  set (idx := Z.to_nat (pos mod n)) in *.
  set (t' := mkProducer rest PLoadPos).
  set (f := fun c : Cell T => mkCell (pos + 1) (data c)).
  assert (Hsome : p_holds t = Some pos) by (unfold p_holds; rewrite Hpc; reflexivity).
  assert (Hheld : forall p,
            held p_holds (<[i := t']> (sys_producers s)) p <->
            p <> pos /\ held p_holds (sys_producers s) p).
  { intros p. apply (held_insert_release p_holds _ i t t' pos p Hi Hsome); [reflexivity|].
    apply HI. }
  unfold store_sequence. fold f.
  system_fields.
  - apply HI.
  - simpl. rewrite length_alter. apply HI.
  - apply HI.
  - apply HI.
  - apply HI.
  - simpl. rewrite (sum_with_insert unclaimed _ i t t' Hi).
    pose proof (si_claimed _ _ _ _ HI) as Hc.
    unfold unclaimed at 2 3. rewrite Hsome, Hv. simpl. lia.
  - intros j Hj. simpl.
    destruct (si_slots _ _ _ _ HI j Hj) as (c & cur & Hc & Hm & Hcur & Hph).
    destruct (decide (idx = Z.to_nat j)) as [Heq|Hne].
    + assert (Hjm : pos mod n = j).
      { unfold idx in Heq. pose proof (Z.mod_pos_bound pos n ltac:(lia)). lia. }
      rewrite <- Heq in Hc. assert (c = cell) by congruence. subst c.
      exists (f cell), pos. rewrite <- Heq, list_lookup_alter_eq, Hcell.
      split; [reflexivity|]. split; [exact Hjm|]. split; [lia|].
      right. simpl. split; [reflexivity|]. split; [lia|]. split; [lia|].
      split; [rewrite Hheld; tauto|].
      split; [|lia]. intros (k & tk & Hk & Hh).
      pose proof (si_consumers _ _ _ _ HI k tk Hk) as Hokc.
      unfold consumer_ok, c_holds in *.
      destruct (c_pc tk); try discriminate; injection Hh as ->; lia.
    + assert (Hcur' : cur <> pos).
      { intros ->. apply Hne. unfold idx. rewrite Hm. reflexivity. }
      exists c, cur. rewrite list_lookup_alter_ne by exact Hne.
      split; [exact Hc|]. split; [exact Hm|]. split; [exact Hcur|].
      eapply slot_phase_iff; [| |exact Hph]; [|reflexivity].
      rewrite Hheld. tauto.
  - intros j tj Hj.
    apply list_lookup_insert_Some in Hj as [(_ & <- & _)|(Hne & Hj)].
    + exact I.
    + apply (producer_ok_frame n (sys_queue s) f idx tj).
      * apply (si_producers _ _ _ _ HI j tj Hj).
      * intros c Hc. assert (c = cell) by congruence. subst c. simpl. lia.
      * intros p c Hp _ Hc Hs. apply Hne.
        assert (c = cell) by congruence. subst c.
        apply (si_producers_exclusive _ _ _ _ HI i j t tj pos); congruence.
  - intros j tj Hj. apply (consumer_ok_frame n (sys_queue s) f idx tj).
    + apply (si_consumers _ _ _ _ HI j tj Hj).
    + intros c Hc. assert (c = cell) by congruence. subst c. simpl. lia.
    + intros p c Hp Hidx Hc Hs.
      assert (c = cell) by congruence. subst c.
      apply (mod_succ_ne n p); [lia|].
      rewrite <- Hs, Hseq. symmetry. apply mod_index_eq; [lia|exact Hidx].
  - apply (exclusive_insert p_holds _ i t t' Hi); [apply HI|].
    intros p [=].
  - apply HI.
  - unfold unsent, received. simpl.
    pose proof (si_conservation _ _ _ _ HI) as Hcons. unfold unsent, received in Hcons.
    rewrite Hcons.
    rewrite (concat_map_insert_cons p_values _ i t t' v Hi Hv).
    rewrite (stored_publish n f _ idx cell v Hcell).
    + simpl. rewrite <- Permutation_middle. reflexivity.
    + unfold idx. apply stored_at_writer; [lia|assumption].
    + unfold idx. rewrite stored_at_reader by (simpl; lia). simpl. congruence.
  - apply HI.
  - apply HI.
Qed.

End ProducerSteps.

(** *** The steps of a consumer keep the invariant *)

Section ConsumerSteps.
Context {T : Type}.
Variables (n total : Z) (all : list T).
Variable s : system T.
Hypothesis HI : SysInv n total all s.
Variables (j : nat) (t : consumer_thread T).
Hypothesis Hj : sys_consumers s !! j = Some t.

Lemma received_bound : Z.of_nat (length (received s)) <= total.
Proof.
  pose proof (si_conservation _ _ _ _ HI) as H. apply Permutation_length in H.
  rewrite !length_app in H. pose proof (si_total _ _ _ _ HI) as [-> _]. lia.
Qed.

(** A step that touches neither the shared memory nor what the thread
    holds. *)
Lemma consumer_local t' :
  c_received t' = c_received t -> c_holds t' = c_holds t ->
  uncounted t' = uncounted t ->
  consumer_ok n (sys_queue s) t' ->
  (c_pc t' = CReturned -> total <= sys_total_consumed s) ->
  SysInv n total all
    (mkSystem (sys_queue s) (sys_total_consumed s)
       (sys_producers s) (<[j := t']> (sys_consumers s))).
Proof.
  intros Hv Hh Hu Hok Hret. system_fields.
  - apply HI.
  - apply HI.
  - apply HI.
  - apply HI.
  - apply HI.
  - apply HI.
  - intros i Hi.
    destruct (si_slots _ _ _ _ HI i Hi) as (cell & cur & Hc & Hm & Hcur & Hph).
    exists cell, cur. split; [exact Hc|]. split; [exact Hm|]. split; [exact Hcur|].
    eapply slot_phase_iff; [| |exact Hph]; [reflexivity|].
    symmetry. apply (held_insert_same c_holds _ j t t'); assumption.
  - apply HI.
  - intros k tk Hk.
    apply list_lookup_insert_Some in Hk as [(_ & <- & _)|(_ & Hk)];
      [exact Hok|apply (si_consumers _ _ _ _ HI k tk Hk)].
  - apply HI.
  - apply (exclusive_insert c_holds _ j t t' Hj); [apply HI|].
    intros pos Hp. left. rewrite <- Hh. exact Hp.
  - unfold unsent, received. simpl.
    rewrite (map_insert_same c_received _ j t t' Hj Hv). apply HI.
  - unfold received. simpl.
    rewrite (map_insert_same c_received _ j t t' Hj Hv).
    rewrite (sum_with_insert_same uncounted _ j t t' Hj Hu). apply HI.
  - intros k tk Hk.
    apply list_lookup_insert_Some in Hk as [(_ & <- & _)|(_ & Hk)];
      [exact Hret|apply (si_returned _ _ _ _ HI k tk Hk)].
Qed.

(** The compare-exchange that claims the position of the counter. *)
Lemma consumer_cas :
  c_pc t = CCas (dequeue_pos_ (sys_queue s)) ->
  SysInv n total all
    (mkSystem (with_dequeue_pos (sys_queue s) (dequeue_pos_ (sys_queue s) + 1))
       (sys_total_consumed s) (sys_producers s)
       (<[j := mkConsumer (c_val t) (c_count t) (c_received t)
                 (CReadData (dequeue_pos_ (sys_queue s)))]>
          (sys_consumers s))).
Proof.
  intros Hpc. pose proof (SysInv_capacity n total all s HI) as Hn.
  pose proof (si_order _ _ _ _ HI) as Ho.
  pose proof (si_consumers _ _ _ _ HI j t Hj) as Hok.
  unfold consumer_ok in Hok. rewrite Hpc in Hok.
  destruct Hok as (_ & cell & Hcell & Hseq).
  destruct (slot_at_dequeue_pos n total all s HI cell Hcell Hseq) as (Hs & Hsome & Hfree).
  set (D := dequeue_pos_ (sys_queue s)) in *.
  set (t' := mkConsumer (c_val t) (c_count t) (c_received t) (CReadData D)).
  assert (Hnone : c_holds t = None) by (unfold c_holds; rewrite Hpc; reflexivity).
  assert (Hunc : uncounted t' = uncounted t)
    by (unfold uncounted; rewrite Hpc; reflexivity).
  assert (Hheld : forall pos,
            held c_holds (<[j := t']> (sys_consumers s)) pos <->
            pos = D \/ held c_holds (sys_consumers s) pos).
  { intros pos. apply (held_insert_acquire c_holds _ j t t' D pos Hj Hnone). reflexivity. }
  system_fields.
  - apply HI.
  - apply HI.
  - apply HI.
  - apply HI.
  - simpl. fold D. lia.
  - apply HI.
  - intros i Hi. simpl. fold D.
    destruct (si_slots _ _ _ _ HI i Hi) as (c & cur & Hc & Hm & Hcur & Hph).
    exists c, cur. split; [exact Hc|]. split; [exact Hm|]. split; [exact Hcur|].
    fold D in Hph.
    destruct Hph as [(Hsq & Hw & Hh)|(Hsq & Hlt & Hle & Hnh & Hhc)].
    + left. split; [exact Hsq|]. split; [|exact Hh].
      destruct (Z.eq_dec cur D) as [Heq|]; [exfalso|lia].
      assert (Hi' : D mod n = i) by (rewrite <- Heq; exact Hm).
      rewrite Hi' in Hcell. assert (c = cell) by congruence. subst c. lia.
    + right. split; [exact Hsq|]. split; [exact Hlt|]. split; [exact Hle|].
      split; [exact Hnh|]. rewrite Hheld, Hhc. lia.
  - intros k tk Hk. apply (producer_ok_counter n (sys_queue s)).
    + apply (si_producers _ _ _ _ HI k tk Hk).
    + reflexivity.
    + simpl. lia.
  - intros k tk Hk.
    apply list_lookup_insert_Some in Hk as [(_ & <- & _)|(_ & Hk)].
    + unfold consumer_ok. simpl. fold D. split; [lia|]. exists cell. auto.
    + apply (consumer_ok_counter n (sys_queue s)).
      * apply (si_consumers _ _ _ _ HI k tk Hk).
      * reflexivity.
      * simpl. fold D. lia.
  - apply HI.
  - apply (exclusive_insert c_holds _ j t t' Hj); [apply HI|].
    intros pos [= <-]. right. exact Hfree.
  - unfold unsent, received. simpl.
    rewrite (map_insert_same c_received _ j t t' Hj eq_refl). apply HI.
  - unfold received. simpl.
    rewrite (map_insert_same c_received _ j t t' Hj eq_refl).
    rewrite (sum_with_insert_same uncounted _ j t t' Hj Hunc). apply HI.
  - intros k tk Hk.
    apply list_lookup_insert_Some in Hk as [(_ & <- & _)|(_ & Hk)];
      [discriminate|apply (si_returned _ _ _ _ HI k tk Hk)].
Qed.

(** The store that releases the slot, and the return from [dequeue]. *)
Lemma consumer_store_seq pos :
  c_pc t = CStoreSeq pos ->
  SysInv n total all
    (mkSystem
       (with_buffer (sys_queue s)
          (store_sequence (buffer_ (sys_queue s)) (cell_index (sys_queue s) pos)
             (wrap (pos + buffer_mask_ (sys_queue s) + 1))))
       (sys_total_consumed s) (sys_producers s)
       (<[j := mkConsumer (c_val t) (c_count t) (c_received t ++ [c_val t]) CFetchAdd]>
          (sys_consumers s))).
Proof.
  intros Hpc. pose proof (SysInv_capacity n total all s HI) as Hn.
  pose proof (si_order _ _ _ _ HI) as Ho.
  pose proof (si_consumers _ _ _ _ HI j t Hj) as Hok.
  unfold consumer_ok in Hok. rewrite Hpc in Hok.
  destruct Hok as (Hpos & cell & Hcell & Hseq & Hdata).
  rewrite (SysInv_index n total all s HI pos) by lia.
  rewrite (si_mask _ _ _ _ HI).
  replace (pos + (n - 1) + 1) with (pos + n) by ring.
  rewrite (SysInv_wrap n total all s HI (pos + n)) by lia.
  destruct (slot_of_reader n total all s HI pos cell Hcell Hseq) as (HltE & HleE & _ & _).
  set (idx := Z.to_nat (pos mod n)) in *.
  set (t' := mkConsumer (c_val t) (c_count t) (c_received t ++ [c_val t]) CFetchAdd).
  set (f := fun c : Cell T => mkCell (pos + n) (data c)).
  assert (Hsome : c_holds t = Some pos) by (unfold c_holds; rewrite Hpc; reflexivity).
  assert (Hheld : forall p,
            held c_holds (<[j := t']> (sys_consumers s)) p <->
            p <> pos /\ held c_holds (sys_consumers s) p).
  { intros p. apply (held_insert_release c_holds _ j t t' pos p Hj Hsome); [reflexivity|].
    apply HI. }
  assert (Hrecv : concat (map c_received (<[j := t']> (sys_consumers s))) ≡ₚ
                  c_val t :: concat (map c_received (sys_consumers s))).
  { apply (concat_map_insert_snoc c_received _ j t t' (c_val t) Hj). reflexivity. }
  unfold store_sequence. fold f.
  system_fields.
  - apply HI.
  - simpl. rewrite length_alter. apply HI.
  - apply HI.
  - apply HI.
  - apply HI.
  - apply HI.
  - intros i Hi. simpl.
    destruct (si_slots _ _ _ _ HI i Hi) as (c & cur & Hc & Hm & Hcur & Hph).
    destruct (decide (idx = Z.to_nat i)) as [Heq|Hne].
    + assert (Him : pos mod n = i).
      { unfold idx in Heq. pose proof (Z.mod_pos_bound pos n ltac:(lia)). lia. }
      exists (f cell), (pos + n). rewrite <- Heq, list_lookup_alter_eq, Hcell.
      split; [reflexivity|]. split; [rewrite mod_add_cap by lia; exact Him|].
      split; [lia|].
      left. simpl. split; [reflexivity|]. split; [lia|].
      split; [|lia]. intros (k & tk & Hk & Hh).
      pose proof (si_producers _ _ _ _ HI k tk Hk) as Hokp.
      unfold producer_ok, p_holds in *.
      destruct (p_pc tk); try discriminate; injection Hh as ->; lia.
    + assert (Hcur' : cur <> pos).
      { intros ->. apply Hne. unfold idx. rewrite Hm. reflexivity. }
      exists c, cur. rewrite list_lookup_alter_ne by exact Hne.
      split; [exact Hc|]. split; [exact Hm|]. split; [exact Hcur|].
      eapply slot_phase_iff; [| |exact Hph]; [reflexivity|].
      rewrite Hheld. tauto.
  - intros k tk Hk. apply (producer_ok_frame n (sys_queue s) f idx tk).
    + apply (si_producers _ _ _ _ HI k tk Hk).
    + intros c Hc. assert (c = cell) by congruence. subst c. simpl. lia.
    + intros p c Hp Hidx Hc Hs.
      assert (c = cell) by congruence. subst c.
      apply (mod_succ_ne n pos); [lia|].
      rewrite <- Hseq, Hs. apply mod_index_eq; [lia|exact Hidx].
  - intros k tk Hk.
    apply list_lookup_insert_Some in Hk as [(_ & <- & _)|(Hne & Hk)].
    + exact I.
    + apply (consumer_ok_frame n (sys_queue s) f idx tk).
      * apply (si_consumers _ _ _ _ HI k tk Hk).
      * intros c Hc. assert (c = cell) by congruence. subst c. simpl. lia.
      * intros p c Hp _ Hc Hs. apply Hne.
        assert (c = cell) by congruence. subst c.
        apply (si_consumers_exclusive _ _ _ _ HI j k t tk pos); try assumption.
        rewrite Hp. f_equal. lia.
  - apply HI.
  - apply (exclusive_insert c_holds _ j t t' Hj); [apply HI|].
    intros p [=].
  - unfold unsent, received. simpl.
    pose proof (si_conservation _ _ _ _ HI) as Hcons. unfold unsent, received in Hcons.
    rewrite Hcons, Hrecv.
    rewrite (stored_release n f _ idx cell (c_val t) Hcell).
    + simpl. rewrite <- !Permutation_middle. reflexivity.
    + unfold idx. rewrite stored_at_reader by (lia || assumption). congruence.
    + unfold idx. apply stored_at_free; [lia|]. simpl.
      pose proof (Z.mod_pos_bound pos n ltac:(lia)).
      rewrite Z2Nat.id by lia. rewrite Zmod_mod. apply mod_add_cap. lia.
  - unfold received. simpl. rewrite Hrecv. simpl length.
    rewrite (sum_with_insert uncounted _ j t t' Hj).
    pose proof (si_counted _ _ _ _ HI) as [H0 Hc]. unfold received in Hc.
    unfold uncounted at 2 3. rewrite Hpc. simpl. lia.
  - intros k tk Hk.
    apply list_lookup_insert_Some in Hk as [(_ & <- & _)|(_ & Hk)];
      [discriminate|apply (si_returned _ _ _ _ HI k tk Hk)].
Qed.

(** The [fetch_add] on the counter. *)
Lemma consumer_fetch_add :
  c_pc t = CFetchAdd ->
  SysInv n total all
    (mkSystem (sys_queue s) (to_int (sys_total_consumed s + 1)) (sys_producers s)
       (<[j := mkConsumer (c_val t) (to_int (c_count t + 1)) (c_received t) CLoadTotal]>
          (sys_consumers s))).
Proof.
  intros Hpc.
  set (t' := mkConsumer (c_val t) (to_int (c_count t + 1)) (c_received t) CLoadTotal).
  assert (Hh : c_holds t' = c_holds t) by (unfold c_holds; rewrite Hpc; reflexivity).
  pose proof (si_counted _ _ _ _ HI) as [H0 Hc].
  pose proof received_bound as Hb.
  pose proof (si_total _ _ _ _ HI) as [_ Ht].
  pose proof (sum_with_insert uncounted _ j t t' Hj) as Hsum.
  unfold uncounted at 3 4 in Hsum. rewrite Hpc in Hsum. simpl in Hsum.
  assert (Hnn : 0 <= sum_with uncounted (<[j := t']> (sys_consumers s))).
  { apply sum_with_nonneg. intros k tk _. unfold uncounted. destruct (c_pc tk); lia. }
  assert (Hint : to_int (sys_total_consumed s + 1) = sys_total_consumed s + 1).
  { apply to_int_small. unfold is_int. pose proof INT_HALF_eq. lia. }
  rewrite Hint.
  system_fields.
  - apply HI.
  - apply HI.
  - apply HI.
  - apply HI.
  - apply HI.
  - apply HI.
  - intros i Hi.
    destruct (si_slots _ _ _ _ HI i Hi) as (cell & cur & Hcl & Hm & Hcur & Hph).
    exists cell, cur. split; [exact Hcl|]. split; [exact Hm|]. split; [exact Hcur|].
    eapply slot_phase_iff; [| |exact Hph]; [reflexivity|].
    symmetry. apply (held_insert_same c_holds _ j t t'); assumption.
  - apply HI.
  - intros k tk Hk.
    apply list_lookup_insert_Some in Hk as [(_ & <- & _)|(_ & Hk)];
      [exact I|apply (si_consumers _ _ _ _ HI k tk Hk)].
  - apply HI.
  - apply (exclusive_insert c_holds _ j t t' Hj); [apply HI|].
    intros pos Hp. left. rewrite <- Hh. exact Hp.
  - unfold unsent, received. simpl.
    rewrite (map_insert_same c_received _ j t t' Hj eq_refl). apply HI.
  - unfold received in *. simpl.
    rewrite (map_insert_same c_received _ j t t' Hj eq_refl). lia.
  - intros k tk Hk.
    apply list_lookup_insert_Some in Hk as [(_ & <- & _)|(_ & Hk)];
      [discriminate|].
    intros Hr. pose proof (si_returned _ _ _ _ HI k tk Hk Hr). lia.
Qed.

End ConsumerSteps.

(** *** Every step, every schedule *)

Section Schedules.
Context {T : Type}.
Variables (n total : Z) (all : list T).
Implicit Types (s : system T).

Lemma producer_step_SysInv s i t spurious q' t' :
  SysInv n total all s -> sys_producers s !! i = Some t ->
  producer_step spurious (sys_queue s) t = (q', t') ->
  SysInv n total all
    (mkSystem q' (sys_total_consumed s) (<[i := t']> (sys_producers s))
       (sys_consumers s)).
Proof.
  intros HI Hi. pose proof (SysInv_capacity n total all s HI) as Hn.
  pose proof (SysInv_bounds n total all s HI) as Hb.
  pose proof (si_producers _ _ _ _ HI i t Hi) as Hok.
  assert (Hstay : SysInv n total all
            (mkSystem (sys_queue s) (sys_total_consumed s)
               (<[i := t]> (sys_producers s)) (sys_consumers s))).
  { apply (producer_local n total all s HI i t Hi); auto. }
  unfold producer_step.
  destruct (p_values t) as [|v rest] eqn:Hv; [intros [= <- <-]; exact Hstay|].
  destruct (p_pc t) as [|pos|pos|pos|pos] eqn:Hpc.
  - intros [= <- <-]. apply (producer_local n total all s HI i t Hi).
    + simpl. congruence.
    + unfold p_holds. rewrite Hpc. reflexivity.
    + unfold producer_ok. simpl. lia.
  - unfold producer_ok in Hok. rewrite Hpc in Hok.
    rewrite (SysInv_index n total all s HI pos) by lia.
    destruct (buffer_ (sys_queue s) !! Z.to_nat (pos mod n)) as [cell|] eqn:Hcell;
      [|intros [= <- <-]; exact Hstay].
    pose proof (SysInv_sequence n total all s HI pos cell Hcell) as Hseq.
    rewrite dif_zero by (unfold is_size_t; lia).
    destruct (Z.eqb_spec (sequence cell) pos) as [Heq|Hne].
    + intros [= <- <-]. apply (producer_local n total all s HI i t Hi).
      * simpl. congruence.
      * unfold p_holds. rewrite Hpc. reflexivity.
      * unfold producer_ok. simpl. split; [lia|]. exists cell. split; [exact Hcell|lia].
    + assert (Hload : SysInv n total all
                (mkSystem (sys_queue s) (sys_total_consumed s)
                   (<[i := mkProducer (v :: rest) PLoadPos]> (sys_producers s))
                   (sys_consumers s))).
      { apply (producer_local n total all s HI i t Hi).
        - simpl. congruence.
        - unfold p_holds. rewrite Hpc. reflexivity.
        - exact I. }
      destruct (_ <? 0); intros [= <- <-]; exact Hload.
  - unfold producer_ok in Hok. rewrite Hpc in Hok. destruct Hok as [Hpos _].
    unfold compare_exchange_weak.
    destruct (Z.eqb_spec (enqueue_pos_ (sys_queue s)) pos) as [Heq|Hne].
    + destruct spurious; simpl.
      * intros [= <- <-]. apply (producer_local n total all s HI i t Hi).
        -- simpl. congruence.
        -- unfold p_holds. rewrite Hpc. reflexivity.
        -- unfold producer_ok. simpl. lia.
      * intros [= <- <-]. subst pos.
        rewrite (SysInv_wrap n total all s HI) by lia.
        pose proof (producer_cas n total all s HI i t Hi Hpc) as H.
        rewrite Hv in H. apply H. discriminate.
    + simpl. intros [= <- <-]. apply (producer_local n total all s HI i t Hi).
      * simpl. congruence.
      * unfold p_holds. rewrite Hpc. reflexivity.
      * unfold producer_ok. simpl. lia.
  - intros [= <- <-].
    pose proof (producer_write_data n total all s HI i t Hi pos v rest Hpc Hv) as H.
    rewrite Hv in H. exact H.
  - intros [= <- <-].
    exact (producer_store_seq n total all s HI i t Hi pos v rest Hpc Hv).
Qed.

Lemma consumer_step_SysInv s j t spurious q' total_consumed' t' :
  SysInv n total all s -> sys_consumers s !! j = Some t ->
  consumer_step total spurious (sys_queue s) (sys_total_consumed s) t =
    (q', total_consumed', t') ->
  SysInv n total all
    (mkSystem q' total_consumed' (sys_producers s) (<[j := t']> (sys_consumers s))).
Proof.
  intros HI Hj. pose proof (SysInv_capacity n total all s HI) as Hn.
  pose proof (SysInv_bounds n total all s HI) as Hb.
  pose proof (si_consumers _ _ _ _ HI j t Hj) as Hok.
  assert (Hstay : SysInv n total all
            (mkSystem (sys_queue s) (sys_total_consumed s)
               (sys_producers s) (<[j := t]> (sys_consumers s)))).
  { apply (consumer_local n total all s HI j t Hj); auto.
    apply (si_returned _ _ _ _ HI j t Hj). }
  unfold consumer_step.
  destruct (c_pc t) as [| |pos|pos|pos|pos| |] eqn:Hpc.
  - destruct (Z.ltb_spec (sys_total_consumed s) total) as [Hlt|Hge];
      intros [= <- <- <-]; apply (consumer_local n total all s HI j t Hj);
      try reflexivity; try exact I;
      try (unfold c_holds; rewrite Hpc; reflexivity);
      try (unfold uncounted; rewrite Hpc; reflexivity).
    + discriminate.
    + intros _. exact Hge.
  - intros [= <- <- <-]. apply (consumer_local n total all s HI j t Hj);
      try reflexivity;
      try (unfold c_holds; rewrite Hpc; reflexivity);
      try (unfold uncounted; rewrite Hpc; reflexivity).
    + unfold consumer_ok. simpl. lia.
    + discriminate.
  - unfold consumer_ok in Hok. rewrite Hpc in Hok.
    rewrite (SysInv_index n total all s HI pos) by lia.
    destruct (buffer_ (sys_queue s) !! Z.to_nat (pos mod n)) as [cell|] eqn:Hcell;
      [|intros [= <- <- <-]; exact Hstay].
    pose proof (SysInv_sequence n total all s HI pos cell Hcell) as Hseq.
    rewrite (SysInv_wrap n total all s HI (pos + 1)) by lia.
    rewrite dif_zero by (unfold is_size_t; lia).
    destruct (Z.eqb_spec (sequence cell) (pos + 1)) as [Heq|Hne].
    + intros [= <- <- <-]. apply (consumer_local n total all s HI j t Hj);
        try reflexivity;
        try (unfold c_holds; rewrite Hpc; reflexivity);
        try (unfold uncounted; rewrite Hpc; reflexivity).
      * unfold consumer_ok. simpl. split; [lia|]. exists cell. split; [exact Hcell|lia].
      * discriminate.
    + destruct (_ <? 0); intros [= <- <- <-];
        apply (consumer_local n total all s HI j t Hj);
        try reflexivity; try exact I; try discriminate;
        try (unfold c_holds; rewrite Hpc; reflexivity);
        try (unfold uncounted; rewrite Hpc; reflexivity).
  - unfold consumer_ok in Hok. rewrite Hpc in Hok. destruct Hok as [Hpos _].
    unfold compare_exchange_weak.
    destruct (Z.eqb_spec (dequeue_pos_ (sys_queue s)) pos) as [Heq|Hne].
    + destruct spurious; simpl.
      * intros [= <- <- <-]. apply (consumer_local n total all s HI j t Hj);
          try reflexivity; try discriminate;
          try (unfold c_holds; rewrite Hpc; reflexivity);
          try (unfold uncounted; rewrite Hpc; reflexivity).
        unfold consumer_ok. simpl. lia.
      * intros [= <- <- <-]. subst pos.
        rewrite (SysInv_wrap n total all s HI) by lia.
        exact (consumer_cas n total all s HI j t Hj Hpc).
    + simpl. intros [= <- <- <-]. apply (consumer_local n total all s HI j t Hj);
        try reflexivity; try discriminate;
        try (unfold c_holds; rewrite Hpc; reflexivity);
        try (unfold uncounted; rewrite Hpc; reflexivity).
      unfold consumer_ok. simpl. lia.
  - unfold consumer_ok in Hok. rewrite Hpc in Hok.
    destruct Hok as (Hpos & cell & Hcell & Hseq).
    rewrite (SysInv_index n total all s HI pos) by lia. rewrite Hcell.
    intros [= <- <- <-]. apply (consumer_local n total all s HI j t Hj);
      try reflexivity; try discriminate;
      try (unfold c_holds; rewrite Hpc; reflexivity);
      try (unfold uncounted; rewrite Hpc; reflexivity).
    unfold consumer_ok. simpl. split; [lia|]. exists cell. auto.
  - intros [= <- <- <-]. exact (consumer_store_seq n total all s HI j t Hj pos Hpc).
  - intros [= <- <- <-]. exact (consumer_fetch_add n total all s HI j t Hj Hpc).
  - intros [= <- <- <-]. exact Hstay.
Qed.

Lemma system_step_SysInv s turn :
  SysInv n total all s -> SysInv n total all (system_step total s turn).
Proof.
  intros HI. destruct turn as [[i|j] spurious]; simpl.
  - destruct (sys_producers s !! i) as [t|] eqn:Hi; [|exact HI].
    destruct (producer_step spurious (sys_queue s) t) as [q' t'] eqn:Hstep.
    eapply producer_step_SysInv; eassumption.
  - destruct (sys_consumers s !! j) as [t|] eqn:Hj; [|exact HI].
    destruct (consumer_step total spurious (sys_queue s) (sys_total_consumed s) t)
      as [[q' total_consumed'] t'] eqn:Hstep.
    eapply consumer_step_SysInv; eassumption.
Qed.

Lemma system_run_SysInv schedule : forall s,
  SysInv n total all s -> SysInv n total all (system_run total s schedule).
Proof.
  unfold system_run. induction schedule as [|turn schedule IH]; intros s HI.
  - exact HI.
  - simpl. apply IH, system_step_SysInv, HI.
Qed.

End Schedules.

(** *** The start *)

Lemma lookup_map_Some {A B : Type} (f : A -> B) (l : list A) : forall i y,
  map f l !! i = Some y -> exists x, l !! i = Some x /\ y = f x.
Proof.
  induction l as [|x l IH]; intros [|i] y H; try discriminate; simpl in *.
  - injection H as <-. eauto.
  - apply IH, H.
Qed.

Lemma concat_imap_nil {A B : Type} (l : list A) : forall (g : nat -> A -> list B),
  (forall i x, l !! i = Some x -> g i x = []) -> concat (imap g l) = [].
Proof.
  induction l as [|x l IH]; intros g H; [reflexivity|]. simpl.
  rewrite (H 0%nat x eq_refl), IH; [reflexivity|].
  intros i y Hi. apply (H (S i) y Hi).
Qed.

Section Start.
Context {T : Type}.
Variable T0 : T.

Lemma system_start_SysInv n (q0 : MPMCQueue T) (values : list (list T)) (vals : list T) :
  is_size_t n -> MPMCQueue_ctor T0 n = Some q0 ->
  Z.of_nat (length (concat values)) < INT_HALF ->
  SysInv n (Z.of_nat (length (concat values))) (concat values)
    (system_start q0 values vals).
Proof.
  intros Hn Hq Htotal. pose proof (ctor_Inv T0 n q0 Hn Hq) as HI0.
  pose proof (capacity_ok_bounds n (inv_capacity _ _ _ _ _ HI0)) as Hb.
  pose proof (ctor_Some T0 n q0 Hq) as [_ Eq].
  assert (HE : enqueue_pos_ q0 = 0) by (rewrite Eq; reflexivity).
  assert (HD : dequeue_pos_ q0 = 0) by (rewrite Eq; reflexivity).
  assert (Hnp : forall pos,
            ~ held p_holds (map (fun vs => mkProducer vs PLoadPos) values) pos).
  { intros pos (i & t & Hi & Hh). apply lookup_map_Some in Hi as (vs & _ & ->).
    discriminate. }
  assert (Hnc : forall pos,
            ~ held c_holds (map (fun val => mkConsumer val 0 [] CLoadTotal) vals) pos).
  { intros pos (i & t & Hi & Hh). apply lookup_map_Some in Hi as (vs & _ & ->).
    discriminate. }
  assert (Hunsent : concat (map p_values (map (fun vs => mkProducer vs PLoadPos) values))
                    = concat values).
  { rewrite map_map. simpl. rewrite map_id. reflexivity. }
  assert (Hrecv : concat (map c_received
                     (map (fun val => mkConsumer val 0 [] CLoadTotal) vals)) = []).
  { rewrite map_map. simpl. clear. induction vals as [|x l IH]; [reflexivity|exact IH]. }
  split; unfold system_start; cbn [sys_queue sys_total_consumed sys_producers sys_consumers].
  - apply HI0.
  - apply HI0.
  - apply HI0.
  - split; [reflexivity|exact Htotal].
  - rewrite HE, HD. lia.
  - rewrite HE. simpl. clear. induction values as [|vs l IH]; [reflexivity|].
    simpl. rewrite length_app. unfold unclaimed at 1. simpl. lia.
  - intros i Hi. exists (mkCell i T0), i.
    split; [apply (ctor_lookup T0 n q0 i Hq Hi)|].
    split; [apply Z.mod_small; exact Hi|]. split; [lia|].
    left. simpl. rewrite HE, HD. split; [reflexivity|]. split; [lia|].
    split; [intros H; exfalso; exact (Hnp i H)|lia].
  - intros i t Hi. apply lookup_map_Some in Hi as (vs & _ & ->). exact I.
  - intros j t Hj. apply lookup_map_Some in Hj as (vs & _ & ->). exact I.
  - intros i j t t' pos Hi _ Hh _. exfalso. apply (Hnp pos). exists i, t. auto.
  - intros i j t t' pos Hi _ Hh _. exfalso. apply (Hnc pos). exists i, t. auto.
  - unfold unsent, received. simpl. rewrite Hunsent, Hrecv, app_nil_r.
    unfold stored. rewrite concat_imap_nil; [rewrite app_nil_r; reflexivity|].
    intros i c Hc.
    assert (Hlt : (i < Z.to_nat n)%nat).
    { rewrite <- (inv_length _ _ _ _ _ HI0). eapply lookup_lt_Some, Hc. }
    pose proof (ctor_lookup T0 n q0 (Z.of_nat i) Hq ltac:(lia)) as Hc'.
    rewrite Nat2Z.id in Hc'. assert (c = mkCell (Z.of_nat i) T0) by congruence. subst c.
    apply stored_at_free; [lia|reflexivity].
  - unfold received. simpl. rewrite Hrecv. simpl. split; [lia|].
    clear. induction vals as [|x l IH]; [reflexivity|]. simpl. unfold uncounted at 1.
    simpl. exact IH.
  - intros j t Hj. apply lookup_map_Some in Hj as (val & _ & ->). discriminate.
Qed.

End Start.

(** *** A thread that runs alone through a call *)

Section Solo.
Context {T : Type}.
Variable total : Z.
Implicit Types (q : MPMCQueue T) (s : system T).

Lemma system_run_app s schedule1 schedule2 :
  system_run total s (schedule1 ++ schedule2) =
  system_run total (system_run total s schedule1) schedule2.
Proof. apply fold_left_app. Qed.

Lemma system_step_producer q total_consumed producers consumers i b t q' t' :
  producers !! i = Some t -> producer_step b q t = (q', t') ->
  system_step total (mkSystem q total_consumed producers consumers) (Producer i, b) =
  mkSystem q' total_consumed (<[i := t']> producers) consumers.
Proof. intros Hi Hs. simpl. rewrite Hi, Hs. reflexivity. Qed.

Lemma system_step_consumer q total_consumed producers consumers j b t q' total_consumed' t' :
  consumers !! j = Some t ->
  consumer_step total b q total_consumed t = (q', total_consumed', t') ->
  system_step total (mkSystem q total_consumed producers consumers) (Consumer j, b) =
  mkSystem q' total_consumed' producers (<[j := t']> consumers).
Proof. intros Hj Hs. simpl. rewrite Hj, Hs. reflexivity. Qed.

(** Five uninterrupted steps of a producer do what a call of [enqueue]
    that returns true at once does. *)
Lemma producer_solo q total_consumed producers consumers i v rest q' :
  producers !! i = Some (mkProducer (v :: rest) PLoadPos) ->
  enqueue 1 0 q v = Done (true, q') ->
  system_run total (mkSystem q total_consumed producers consumers)
    (replicate 5 (Producer i, false)) =
  mkSystem q' total_consumed (<[i := mkProducer rest PLoadPos]> producers) consumers.
Proof.
  intros Hi He. pose proof (lookup_lt_Some _ _ _ Hi) as Hlt.
  unfold enqueue in He. simpl in He.
  destruct (buffer_ q !! Z.to_nat (Z.land (enqueue_pos_ q) (buffer_mask_ q)))
    as [cell|] eqn:Hcell; [|discriminate].
  destruct (intptr_sub (to_intptr (sequence cell)) (to_intptr (enqueue_pos_ q)) =? 0)
    eqn:Hdif; [|destruct (_ <? 0); discriminate].
  unfold compare_exchange_weak in He. rewrite Z.eqb_refl in He. simpl in He.
  injection He as <-.
  unfold system_run. cbn [replicate fold_left].
  rewrite (system_step_producer _ _ _ _ i false _ q
             (mkProducer (v :: rest) (PLoadSeq (enqueue_pos_ q))) Hi eq_refl).
  rewrite (system_step_producer _ _ _ _ i false _ q
             (mkProducer (v :: rest) (PCas (enqueue_pos_ q)))
             (list_lookup_insert_eq _ _ _ Hlt));
    [|unfold producer_step, cell_index; simpl; rewrite Hcell, Hdif; reflexivity].
  rewrite list_insert_insert_eq.
  rewrite (system_step_producer _ _ _ _ i false _
             (with_enqueue_pos q (wrap (enqueue_pos_ q + 1)))
             (mkProducer (v :: rest) (PWriteData (enqueue_pos_ q)))
             (list_lookup_insert_eq _ _ _ Hlt));
    [|unfold producer_step, compare_exchange_weak; simpl; rewrite Z.eqb_refl;
      reflexivity].
  rewrite list_insert_insert_eq.
  erewrite (system_step_producer _ _ _ _ i false _ _ _
             (list_lookup_insert_eq _ _ _ Hlt)); [|reflexivity].
  rewrite list_insert_insert_eq.
  erewrite (system_step_producer _ _ _ _ i false _ _ _
             (list_lookup_insert_eq _ _ _ Hlt)); [|reflexivity].
  rewrite list_insert_insert_eq. reflexivity.
Qed.

(** Five uninterrupted steps of a consumer from the start of [dequeue]
    do what a call of [dequeue] that returns true at once does. *)
Lemma consumer_solo q total_consumed producers consumers j val count rcv x q' :
  consumers !! j = Some (mkConsumer val count rcv CLoadPos) ->
  dequeue 1 0 q val = Done (true, x, q') ->
  system_run total (mkSystem q total_consumed producers consumers)
    (replicate 5 (Consumer j, false)) =
  mkSystem q' total_consumed producers
    (<[j := mkConsumer x count (rcv ++ [x]) CFetchAdd]> consumers).
Proof.
  intros Hj Hd. pose proof (lookup_lt_Some _ _ _ Hj) as Hlt.
  unfold dequeue in Hd. simpl in Hd.
  destruct (buffer_ q !! Z.to_nat (Z.land (dequeue_pos_ q) (buffer_mask_ q)))
    as [cell|] eqn:Hcell; [|discriminate].
  destruct (intptr_sub (to_intptr (sequence cell))
              (to_intptr (wrap (dequeue_pos_ q + 1))) =? 0)
    eqn:Hdif; [|destruct (_ <? 0); discriminate].
  unfold compare_exchange_weak in Hd. rewrite Z.eqb_refl in Hd. simpl in Hd.
  injection Hd as <- <-.
  unfold system_run. cbn [replicate fold_left].
  rewrite (system_step_consumer _ _ _ _ j false _ q total_consumed
             (mkConsumer val count rcv (CLoadSeq (dequeue_pos_ q))) Hj eq_refl).
  rewrite (system_step_consumer _ _ _ _ j false _ q total_consumed
             (mkConsumer val count rcv (CCas (dequeue_pos_ q)))
             (list_lookup_insert_eq _ _ _ Hlt));
    [|unfold consumer_step, cell_index; simpl; rewrite Hcell, Hdif; reflexivity].
  rewrite list_insert_insert_eq.
  rewrite (system_step_consumer _ _ _ _ j false _
             (with_dequeue_pos q (wrap (dequeue_pos_ q + 1))) total_consumed
             (mkConsumer val count rcv (CReadData (dequeue_pos_ q)))
             (list_lookup_insert_eq _ _ _ Hlt));
    [|unfold consumer_step, compare_exchange_weak; simpl; rewrite Z.eqb_refl;
      reflexivity].
  rewrite list_insert_insert_eq.
  rewrite (system_step_consumer _ _ _ _ j false _
             (with_dequeue_pos q (wrap (dequeue_pos_ q + 1))) total_consumed
             (mkConsumer (data cell) count rcv (CStoreSeq (dequeue_pos_ q)))
             (list_lookup_insert_eq _ _ _ Hlt));
    [|unfold consumer_step, cell_index; simpl; rewrite Hcell; reflexivity].
  rewrite list_insert_insert_eq.
  erewrite (system_step_consumer _ _ _ _ j false _ _ _ _
             (list_lookup_insert_eq _ _ _ Hlt)); [|reflexivity].
  rewrite list_insert_insert_eq. reflexivity.
Qed.

End Solo.

(** *** A schedule that reaches the total *)

Lemma concat_map_nonempty {A B : Type} (f : A -> list B) (l : list A) :
  concat (map f l) <> [] -> exists i t, l !! i = Some t /\ f t <> [].
Proof.
  induction l as [|x l IH]; intros H; [contradiction|]. simpl in H.
  destruct (f x) as [|y ys] eqn:E.
  - destruct (IH H) as (i & t & Hi & Ht). exists (S i), t. auto.
  - exists 0%nat, x. split; [reflexivity|]. rewrite E. discriminate.
Qed.

Section Handoff.
Context {T : Type}.
Variables (n total : Z).
Hypothesis total_int : total < INT_HALF.

(** On an empty ring, a producer hands one value to the first consumer. *)
Lemma handoff_run (q : MPMCQueue T) k producers consumers i v rest val count rcv :
  Inv n q k k [] -> k < total ->
  producers !! i = Some (mkProducer (v :: rest) PLoadPos) ->
  consumers !! 0%nat = Some (mkConsumer val count rcv CLoadTotal) ->
  exists q',
    Inv n q' (k + 1) (k + 1) [] /\
    system_run total (mkSystem q k producers consumers) (handoff_schedule i) =
    mkSystem q' (k + 1)
      (<[i := mkProducer rest PLoadPos]> producers)
      (<[0%nat := mkConsumer v (to_int (count + 1)) (rcv ++ [v]) CLoadTotal]> consumers).
Proof.
  intros HI Hk Hp Hc.
  pose proof (inv_order _ _ _ _ _ HI) as Ho.
  pose proof (capacity_ok_bounds n (inv_capacity _ _ _ _ _ HI)) as Hb.
  pose proof (lookup_lt_Some _ _ _ Hc) as Hlt.
  assert (HI1 : Inv n (enqueue_post n q k v) (k + 1) k ([] ++ [v]))
    by (apply enqueue_post_Inv; [assumption|lia]).
  assert (HI2 : Inv n (dequeue_post n (enqueue_post n q k v) k) (k + 1) (k + 1) [])
    by (apply (dequeue_post_Inv n _ (k + 1) k v []); exact HI1).
  assert (He : enqueue 1 0 q v = Done (true, enqueue_post n q k v)).
  { rewrite (enqueue_total n q k k [] v 1 0 HI) by lia.
    rewrite (proj2 (Z.ltb_lt k (k + n))) by lia. reflexivity. }
  assert (Hd : dequeue 1 0 (enqueue_post n q k v) val =
               Done (true, v, dequeue_post n (enqueue_post n q k v) k)).
  { apply (dequeue_total n _ (k + 1) k [v] val 1 0 HI1). lia. }
  exists (dequeue_post n (enqueue_post n q k v) k). split; [exact HI2|].
  unfold handoff_schedule. rewrite system_run_app.
  rewrite (producer_solo total q k producers consumers i v rest _ Hp He).
  change (replicate 7 (Consumer 0%nat, false))
    with ([(Consumer 0%nat, false)] ++ replicate 5 (Consumer 0%nat, false) ++
          [(Consumer 0%nat, false)]).
  rewrite !system_run_app.
  unfold system_run at 3. cbn [fold_left].
  rewrite (system_step_consumer total _ _ _ _ 0%nat false _ (enqueue_post n q k v) k
             (mkConsumer val count rcv CLoadPos) Hc);
    [|unfold consumer_step; simpl; rewrite (proj2 (Z.ltb_lt k total)) by lia;
      reflexivity].
  rewrite (consumer_solo total _ _ _ _ 0%nat val count rcv v _
             (list_lookup_insert_eq _ _ _ Hlt) Hd).
  rewrite list_insert_insert_eq.
  unfold system_run. cbn [fold_left].
  erewrite (system_step_consumer total _ _ _ _ 0%nat false _ _ _ _
              (list_lookup_insert_eq _ _ _ Hlt)); [|reflexivity].
  simpl. rewrite list_insert_insert_eq, to_int_small; [reflexivity|].
  unfold is_int. pose proof INT_HALF_eq. lia.
Qed.

(** From an empty ring with every producer between two calls and the
    first consumer at the test of its loop, handing over the values
    one by one brings the counter to the total. *)
Lemma handoff_completes (m : nat) : forall (s : system T) k,
  length (unsent s) = m ->
  Inv n (sys_queue s) k k [] ->
  sys_total_consumed s = k ->
  k + Z.of_nat m = total ->
  (forall i t, sys_producers s !! i = Some t -> p_pc t = PLoadPos) ->
  (exists val count rcv,
     sys_consumers s !! 0%nat = Some (mkConsumer val count rcv CLoadTotal)) ->
  exists schedule, sys_total_consumed (system_run total s schedule) = total.
Proof.
  induction m as [|m IH]; intros s k Hlen HI Htc Hk Hpc (val & count & rcv & Hc).
  - exists []. simpl. lia.
  - destruct (concat_map_nonempty p_values (sys_producers s)) as (i & t & Hi & Hv).
    { unfold unsent in Hlen. intros E. rewrite E in Hlen. discriminate. }
    pose proof (Hpc i t Hi) as Hti. destruct t as [vs pc]. simpl in Hv, Hti. subst pc.
    destruct vs as [|v rest]; [contradiction|].
    destruct s as [q tc producers consumers]. simpl in *. subst tc.
    destruct (handoff_run q k producers consumers i v rest val count rcv HI
                ltac:(lia) Hi Hc) as (q' & HI' & Hrun).
    destruct (IH (mkSystem q' (k + 1)
                    (<[i := mkProducer rest PLoadPos]> producers)
                    (<[0%nat := mkConsumer v (to_int (count + 1)) (rcv ++ [v]) CLoadTotal]>
                       consumers)) (k + 1)) as (schedule & Hs).
    + unfold unsent in *. simpl in Hlen. simpl.
      pose proof (concat_map_insert_cons p_values producers i
                    (mkProducer (v :: rest) PLoadPos) (mkProducer rest PLoadPos) v
                    Hi eq_refl) as Hperm.
      apply Permutation_length in Hperm. simpl in Hperm. lia.
    + exact HI'.
    + reflexivity.
    + lia.
    + intros j tj Hj. simpl in Hj.
      apply list_lookup_insert_Some in Hj as [(_ & <- & _)|(_ & Hj)];
        [reflexivity|apply (Hpc j tj Hj)].
    + simpl. eexists _, _, _. apply list_lookup_insert_eq.
      eapply lookup_lt_Some, Hc.
    + exists (handoff_schedule i ++ schedule).
      rewrite system_run_app, Hrun. exact Hs.
Qed.

End Handoff.

(** From the start, with at least one consumer, some schedule brings
    the counter to the total. *)
Lemma system_start_completes {T : Type} (T0 : T) n (q0 : MPMCQueue T)
    (values : list (list T)) (vals : list T) :
  is_size_t n -> MPMCQueue_ctor T0 n = Some q0 ->
  Z.of_nat (length (concat values)) < INT_HALF ->
  vals <> [] ->
  exists schedule,
    sys_total_consumed
      (system_run (Z.of_nat (length (concat values)))
         (system_start q0 values vals) schedule) =
    Z.of_nat (length (concat values)).
Proof.
  intros Hn Hq Htotal Hvals.
  apply (handoff_completes n _ Htotal (length (concat values)) _ 0).
  - unfold unsent. simpl. rewrite map_map. simpl. rewrite map_id. reflexivity.
  - apply (ctor_Inv T0 n q0 Hn Hq).
  - reflexivity.
  - lia.
  - intros i t Hi. simpl in Hi. apply lookup_map_Some in Hi as (vs & _ & ->).
    reflexivity.
  - destruct vals as [|val vals']; [contradiction|]. simpl. eauto.
Qed.

(** ** The claim on concurrent executions *)

(** C8. Producer threads that each enqueue their list of values,
    retrying until [enqueue] succeeds, and consumer threads that call
    [dequeue] until the shared counter has reached the total number of
    values, interleaved at their accesses to shared memory by any
    schedule, with any spurious failures of the compare-exchange, on a
    queue constructed with a valid capacity (the total number of values
    is an [int], as the counter is).  At every point of the execution
    every value is in exactly one place: still to be enqueued by its
    producer, in a published slot of the ring, or returned by a
    [dequeue]; so the values returned so far are a sub-multiset of the
    producers' values, none twice when the producers' values are
    distinct, and the counter never runs ahead of them.  Once the
    counter has reached the total, the values returned by the calls of
    [dequeue] are, as a multiset, exactly the producers' values, nothing
    is left to enqueue and nothing is left in the ring; and a consumer
    returns only when the counter has reached the total.  With at least
    one consumer, there are schedules under which the counter does
    reach the total. *)
Theorem concurrent_no_loss_no_duplication {T : Type} (T0 : T) (n : Z)
    (q0 : MPMCQueue T) (values : list (list T)) (vals : list T) :
  is_size_t n ->
  MPMCQueue_ctor T0 n = Some q0 ->
  Z.of_nat (length (concat values)) < INT_HALF ->
  let total := Z.of_nat (length (concat values)) in
  (forall schedule : list (thread_id * bool),
     let s := system_run total (system_start q0 values vals) schedule in
     concat values ≡ₚ unsent s ++ stored n (buffer_ (sys_queue s)) ++ received s /\
     received s ⊆+ concat values /\
     (NoDup (concat values) -> NoDup (received s)) /\
     0 <= sys_total_consumed s <= Z.of_nat (length (received s)) /\
     (total <= sys_total_consumed s ->
      received s ≡ₚ concat values /\
      unsent s = [] /\ stored n (buffer_ (sys_queue s)) = [] /\
      sys_total_consumed s = total) /\
     (forall j t, sys_consumers s !! j = Some t -> c_pc t = CReturned ->
        total <= sys_total_consumed s)) /\
  (vals <> [] ->
   exists schedule : list (thread_id * bool),
     sys_total_consumed (system_run total (system_start q0 values vals) schedule) =
     total).
Proof.
  intros Hn Hq Htotal total.
  split; [|intros Hvals; apply (system_start_completes T0 n); assumption].
  intros schedule s.
  assert (HI : SysInv n total (concat values) s).
  { apply system_run_SysInv, (system_start_SysInv T0); assumption. }
  pose proof (si_conservation _ _ _ _ HI) as Hcons.
  pose proof (si_counted _ _ _ _ HI) as [H0 Hcount].
  assert (Hsub : received s ⊆+ concat values).
  { rewrite Hcons. apply submseteq_inserts_l, submseteq_inserts_l. reflexivity. }
  assert (Hun : 0 <= sum_with uncounted (sys_consumers s)).
  { apply sum_with_nonneg. intros k tk _. unfold uncounted. destruct (c_pc tk); lia. }
  split; [exact Hcons|]. split; [exact Hsub|].
  split.
  { intros Hnd. rewrite Hcons in Hnd.
    apply NoDup_app in Hnd as (_ & _ & Hnd). apply NoDup_app in Hnd as (_ & _ & Hnd).
    exact Hnd. }
  split; [lia|]. split; [|apply HI].
  intros Hreached.
  pose proof (Permutation_length Hcons) as Hlen. rewrite !length_app in Hlen.
  fold total in Hlen.
  assert (Hu : unsent s = []) by (apply length_zero_iff_nil; lia).
  assert (Hs : stored n (buffer_ (sys_queue s)) = []) by (apply length_zero_iff_nil; lia).
  split; [|split; [exact Hu|split; [exact Hs|lia]]].
  rewrite Hcons, Hu, Hs. reflexivity.
Qed.

(** Two producers with the values 1, 2, 3 and 4, 5 and two consumers
    on a queue of capacity 2, under [example_schedule]: the counter
    reaches 5, both consumers return, and they have received 1, 5 and
    4, 2, 3. *)
Lemma concurrent_no_loss_no_duplication_witness :
  let q0 := mkQueue [mkCell 0 0; mkCell 1 0] 1 0 0 in
  let values := [[1; 2; 3]; [4; 5]] in
  let vals := [0; 0] in
  (let s := system_run 5 (system_start q0 values vals) example_schedule in
   sys_total_consumed s = 5 /\
   map c_received (sys_consumers s) = [[1; 5]; [4; 2; 3]] /\
   map c_pc (sys_consumers s) = [CReturned; CReturned] /\
   map p_values (sys_producers s) = [[]; []]) /\
  ((forall schedule : list (thread_id * bool),
      let s := system_run 5 (system_start q0 values vals) schedule in
      concat values ≡ₚ unsent s ++ stored 2 (buffer_ (sys_queue s)) ++ received s /\
      received s ⊆+ concat values /\
      (NoDup (concat values) -> NoDup (received s)) /\
      0 <= sys_total_consumed s <= Z.of_nat (length (received s)) /\
      (5 <= sys_total_consumed s ->
       received s ≡ₚ concat values /\
       unsent s = [] /\ stored 2 (buffer_ (sys_queue s)) = [] /\
       sys_total_consumed s = 5) /\
      (forall j t, sys_consumers s !! j = Some t -> c_pc t = CReturned ->
         5 <= sys_total_consumed s)) /\
   (vals <> [] ->
    exists schedule : list (thread_id * bool),
      sys_total_consumed (system_run 5 (system_start q0 values vals) schedule) = 5)).
Proof.
  split.
  - vm_compute. repeat split; reflexivity.
  - apply (concurrent_no_loss_no_duplication 0 2
             (mkQueue [mkCell 0 0; mkCell 1 0] 1 0 0) [[1; 2; 3]; [4; 5]] [0; 0]).
    + size_t_range.
    + reflexivity.
    + vm_compute. reflexivity.
Defined.

(** ** Further properties: concurrent executions *)

Section HolderFacts.
Context {T : Type}.
Variables (n total : Z) (all : list T) (s : system T).
Hypothesis HI : SysInv n total all s.

Lemma producer_holds_slot i t pos :
  sys_producers s !! i = Some t -> p_holds t = Some pos ->
  0 <= pos < enqueue_pos_ (sys_queue s) /\
  exists cell,
    buffer_ (sys_queue s) !! cell_index (sys_queue s) pos = Some cell /\
    cell_index (sys_queue s) pos = Z.to_nat (pos mod n) /\
    sequence cell = pos.
Proof.
  intros Hi Hh. pose proof (si_producers _ _ _ _ HI i t Hi) as Hok.
  pose proof (SysInv_capacity n total all s HI) as Hcap.
  unfold producer_ok, p_holds in *.
  destruct (p_pc t); try discriminate; injection Hh as ->.
  - destruct Hok as (Hp & _ & cell & Hc & Hs). split; [exact Hp|].
    exists cell. rewrite (SysInv_index n total all s HI pos) by lia. auto.
  - destruct Hok as (Hp & cell & Hc & Hs & _). split; [exact Hp|].
    exists cell. rewrite (SysInv_index n total all s HI pos) by lia. auto.
Qed.

Lemma consumer_holds_slot j t pos :
  sys_consumers s !! j = Some t -> c_holds t = Some pos ->
  0 <= pos < dequeue_pos_ (sys_queue s) /\
  exists cell,
    buffer_ (sys_queue s) !! cell_index (sys_queue s) pos = Some cell /\
    cell_index (sys_queue s) pos = Z.to_nat (pos mod n) /\
    sequence cell = pos + 1.
Proof.
  intros Hj Hh. pose proof (si_consumers _ _ _ _ HI j t Hj) as Hok.
  pose proof (si_order _ _ _ _ HI) as Ho.
  pose proof (SysInv_capacity n total all s HI) as Hcap.
  unfold consumer_ok, c_holds in *.
  destruct (c_pc t); try discriminate; injection Hh as ->.
  - destruct Hok as (Hp & cell & Hc & Hs). split; [exact Hp|].
    exists cell. rewrite (SysInv_index n total all s HI pos) by lia. auto.
  - destruct Hok as (Hp & cell & Hc & Hs & _). split; [exact Hp|].
    exists cell. rewrite (SysInv_index n total all s HI pos) by lia. auto.
Qed.

End HolderFacts.

(** X10. What the sequence protocol is for: under every schedule, the
    threads that are between their successful compare-exchange and
    their store of the slot's sequence (the producers about to write a
    slot's data or to publish it, the consumers about to read a slot's
    data or to release it) are at pairwise different slots, so no two
    threads ever access the data of one slot at the same time. *)
Theorem slot_access_exclusive {T : Type} (T0 : T) (n : Z) (q0 : MPMCQueue T)
    (values : list (list T)) (vals : list T) (schedule : list (thread_id * bool)) :
  is_size_t n ->
  MPMCQueue_ctor T0 n = Some q0 ->
  Z.of_nat (length (concat values)) < INT_HALF ->
  let s := system_run (Z.of_nat (length (concat values)))
             (system_start q0 values vals) schedule in
  (forall i i' t t' pos pos',
     sys_producers s !! i = Some t -> sys_producers s !! i' = Some t' ->
     p_holds t = Some pos -> p_holds t' = Some pos' -> i <> i' ->
     cell_index (sys_queue s) pos <> cell_index (sys_queue s) pos') /\
  (forall j j' t t' pos pos',
     sys_consumers s !! j = Some t -> sys_consumers s !! j' = Some t' ->
     c_holds t = Some pos -> c_holds t' = Some pos' -> j <> j' ->
     cell_index (sys_queue s) pos <> cell_index (sys_queue s) pos') /\
  (forall i j t t' pos pos',
     sys_producers s !! i = Some t -> sys_consumers s !! j = Some t' ->
     p_holds t = Some pos -> c_holds t' = Some pos' ->
     cell_index (sys_queue s) pos <> cell_index (sys_queue s) pos').
Proof.
  intros Hn Hq Htotal s.
  assert (HI : SysInv n (Z.of_nat (length (concat values))) (concat values) s).
  { apply system_run_SysInv, (system_start_SysInv T0); assumption. }
  pose proof (SysInv_capacity _ _ _ _ HI) as Hcap.
  split; [|split].
  - intros i i' t t' pos pos' Hi Hi' Hh Hh' Hne Heq.
    destruct (producer_holds_slot _ _ _ _ HI i t pos Hi Hh) as (_ & c & Hc & _ & Hs).
    destruct (producer_holds_slot _ _ _ _ HI i' t' pos' Hi' Hh') as (_ & c' & Hc' & _ & Hs').
    rewrite Heq in Hc. assert (c = c') by congruence. subst c'.
    apply Hne, (si_producers_exclusive _ _ _ _ HI i i' t t' pos); congruence.
  - intros j j' t t' pos pos' Hj Hj' Hh Hh' Hne Heq.
    destruct (consumer_holds_slot _ _ _ _ HI j t pos Hj Hh) as (_ & c & Hc & _ & Hs).
    destruct (consumer_holds_slot _ _ _ _ HI j' t' pos' Hj' Hh') as (_ & c' & Hc' & _ & Hs').
    rewrite Heq in Hc. assert (c = c') by congruence. subst c'.
    apply Hne, (si_consumers_exclusive _ _ _ _ HI j j' t t' pos); try assumption.
    rewrite Hh'. f_equal. lia.
  - intros i j t t' pos pos' Hi Hj Hh Hh' Heq.
    destruct (producer_holds_slot _ _ _ _ HI i t pos Hi Hh) as (_ & c & Hc & Hx & Hs).
    destruct (consumer_holds_slot _ _ _ _ HI j t' pos' Hj Hh') as (_ & c' & Hc' & Hx' & Hs').
    rewrite Heq in Hc. assert (c = c') by congruence. subst c'.
    apply (mod_succ_ne n pos'); [lia|].
    rewrite <- Hs', Hs. apply mod_index_eq; [lia|]. congruence.
Qed.

(** A state of [example_schedule] with both slots held at once: the
    second producer holds slot 1 at position 3, the second consumer
    slot 0 at position 2. *)
Lemma slot_access_exclusive_witness :
  let q0 := mkQueue [mkCell 0 0; mkCell 1 0] 1 0 0 in
  let values := [[1; 2; 3]; [4; 5]] in
  let s := system_run 5 (system_start q0 values [0; 0]) (take 64 example_schedule) in
  (map p_holds (sys_producers s) = [None; Some 3] /\
   map c_holds (sys_consumers s) = [None; Some 2]) /\
  ((forall i i' t t' pos pos',
      sys_producers s !! i = Some t -> sys_producers s !! i' = Some t' ->
      p_holds t = Some pos -> p_holds t' = Some pos' -> i <> i' ->
      cell_index (sys_queue s) pos <> cell_index (sys_queue s) pos') /\
   (forall j j' t t' pos pos',
      sys_consumers s !! j = Some t -> sys_consumers s !! j' = Some t' ->
      c_holds t = Some pos -> c_holds t' = Some pos' -> j <> j' ->
      cell_index (sys_queue s) pos <> cell_index (sys_queue s) pos') /\
   (forall i j t t' pos pos',
      sys_producers s !! i = Some t -> sys_consumers s !! j = Some t' ->
      p_holds t = Some pos -> c_holds t' = Some pos' ->
      cell_index (sys_queue s) pos <> cell_index (sys_queue s) pos')).
Proof.
  split.
  - vm_compute. split; reflexivity.
  - apply (slot_access_exclusive 0 2 (mkQueue [mkCell 0 0; mkCell 1 0] 1 0 0)
             [[1; 2; 3]; [4; 5]] [0; 0] (take 64 example_schedule)).
    + size_t_range.
    + reflexivity.
    + vm_compute. reflexivity.
Defined.

(** X11. Under every schedule the position counters stay in step: the
    consumer counter never passes the producer counter, the producer
    counter is never more than one capacity ahead, and it never exceeds
    the number of values, so that neither counter wraps; the [pos] of
    every thread inside a call is a position its counter has reached,
    and the slot it indexes with it exists. *)
Theorem interleaved_positions_bounded {T : Type} (T0 : T) (n : Z) (q0 : MPMCQueue T)
    (values : list (list T)) (vals : list T) (schedule : list (thread_id * bool)) :
  is_size_t n ->
  MPMCQueue_ctor T0 n = Some q0 ->
  Z.of_nat (length (concat values)) < INT_HALF ->
  let s := system_run (Z.of_nat (length (concat values)))
             (system_start q0 values vals) schedule in
  0 <= dequeue_pos_ (sys_queue s) <= enqueue_pos_ (sys_queue s) /\
  enqueue_pos_ (sys_queue s) <= dequeue_pos_ (sys_queue s) + n /\
  enqueue_pos_ (sys_queue s) <= Z.of_nat (length (concat values)) /\
  Z.of_nat (length (buffer_ (sys_queue s))) = n /\
  buffer_mask_ (sys_queue s) = n - 1 /\
  (forall i t pos,
     sys_producers s !! i = Some t -> p_pos t = Some pos ->
     0 <= pos <= enqueue_pos_ (sys_queue s) /\
     (cell_index (sys_queue s) pos < length (buffer_ (sys_queue s)))%nat) /\
  (forall j t pos,
     sys_consumers s !! j = Some t -> c_pos t = Some pos ->
     0 <= pos <= dequeue_pos_ (sys_queue s) /\
     (cell_index (sys_queue s) pos < length (buffer_ (sys_queue s)))%nat).
Proof.
  intros Hn Hq Htotal s.
  assert (HI : SysInv n (Z.of_nat (length (concat values))) (concat values) s).
  { apply system_run_SysInv, (system_start_SysInv T0); assumption. }
  pose proof (SysInv_capacity _ _ _ _ HI) as Hcap.
  pose proof (SysInv_bounds _ _ _ _ HI) as (Ho & Hle & _).
  pose proof (si_order _ _ _ _ HI) as [_ Hroom].
  pose proof (si_length _ _ _ _ HI) as Hlen.
  assert (Hidx : forall pos, 0 <= pos <= enqueue_pos_ (sys_queue s) ->
            (cell_index (sys_queue s) pos < length (buffer_ (sys_queue s)))%nat).
  { intros pos Hp. rewrite (SysInv_index _ _ _ _ HI pos) by lia. rewrite Hlen.
    apply mod_index_lt. lia. }
  split; [exact Ho|]. split; [exact Hroom|]. split; [exact Hle|].
  split; [rewrite Hlen; lia|]. split; [apply HI|]. split.
  - intros i t pos Hi Hp. pose proof (si_producers _ _ _ _ HI i t Hi) as Hok.
    unfold producer_ok, p_pos in *.
    assert (Hpos : 0 <= pos <= enqueue_pos_ (sys_queue s)).
    { destruct (p_pc t); try discriminate; injection Hp as ->;
        [lia|destruct Hok; lia..]. }
    split; [exact Hpos|apply Hidx; exact Hpos].
  - intros j t pos Hj Hp. pose proof (si_consumers _ _ _ _ HI j t Hj) as Hok.
    unfold consumer_ok, c_pos in *.
    assert (Hpos : 0 <= pos <= dequeue_pos_ (sys_queue s)).
    { destruct (c_pc t); try discriminate; injection Hp as ->;
        [lia|destruct Hok; lia..]. }
    split; [exact Hpos|apply Hidx; lia].
Qed.

Lemma interleaved_positions_bounded_witness :
  let q0 := mkQueue [mkCell 0 0; mkCell 1 0] 1 0 0 in
  let values := [[1; 2; 3]; [4; 5]] in
  let s := system_run 5 (system_start q0 values [0; 0]) (take 64 example_schedule) in
  (enqueue_pos_ (sys_queue s) = 4 /\ dequeue_pos_ (sys_queue s) = 3 /\
   map p_pos (sys_producers s) = [Some 3; Some 3] /\
   map c_pos (sys_consumers s) = [Some 2; Some 2]) /\
  (0 <= dequeue_pos_ (sys_queue s) <= enqueue_pos_ (sys_queue s) /\
   enqueue_pos_ (sys_queue s) <= dequeue_pos_ (sys_queue s) + 2 /\
   enqueue_pos_ (sys_queue s) <= Z.of_nat (length (concat values)) /\
   Z.of_nat (length (buffer_ (sys_queue s))) = 2 /\
   buffer_mask_ (sys_queue s) = 2 - 1 /\
   (forall i t pos,
      sys_producers s !! i = Some t -> p_pos t = Some pos ->
      0 <= pos <= enqueue_pos_ (sys_queue s) /\
      (cell_index (sys_queue s) pos < length (buffer_ (sys_queue s)))%nat) /\
   (forall j t pos,
      sys_consumers s !! j = Some t -> c_pos t = Some pos ->
      0 <= pos <= dequeue_pos_ (sys_queue s) /\
      (cell_index (sys_queue s) pos < length (buffer_ (sys_queue s)))%nat)).
Proof.
  split.
  - vm_compute. repeat split; reflexivity.
  - apply (interleaved_positions_bounded 0 2 (mkQueue [mkCell 0 0; mkCell 1 0] 1 0 0)
             [[1; 2; 3]; [4; 5]] [0; 0] (take 64 example_schedule)).
    + size_t_range.
    + reflexivity.
    + vm_compute. reflexivity.
Defined.

Section SoloFailure.
Context {T : Type}.
Variable total : Z.

(** Two uninterrupted steps of a producer whose call of [enqueue] finds
    the ring full bring it back to the start of the next call. *)
Lemma producer_solo_full (q : MPMCQueue T) total_consumed producers consumers i v rest q' :
  producers !! i = Some (mkProducer (v :: rest) PLoadPos) ->
  enqueue 1 0 q v = Done (false, q') ->
  q' = q /\
  system_run total (mkSystem q total_consumed producers consumers)
    (replicate 2 (Producer i, false)) =
  mkSystem q total_consumed producers consumers.
Proof.
  intros Hi He. pose proof (lookup_lt_Some _ _ _ Hi) as Hlt.
  unfold enqueue in He. simpl in He.
  destruct (buffer_ q !! Z.to_nat (Z.land (enqueue_pos_ q) (buffer_mask_ q)))
    as [cell|] eqn:Hcell; [|discriminate].
  destruct (intptr_sub (to_intptr (sequence cell)) (to_intptr (enqueue_pos_ q)) =? 0)
    eqn:Hdif.
  { unfold compare_exchange_weak in He. rewrite Z.eqb_refl in He. discriminate. }
  destruct (intptr_sub (to_intptr (sequence cell)) (to_intptr (enqueue_pos_ q)) <? 0)
    eqn:Hneg; [|discriminate].
  injection He as <-. split; [reflexivity|].
  unfold system_run. cbn [replicate fold_left].
  rewrite (system_step_producer total _ _ _ _ i false _ q
             (mkProducer (v :: rest) (PLoadSeq (enqueue_pos_ q))) Hi eq_refl).
  rewrite (system_step_producer total _ _ _ _ i false _ q
             (mkProducer (v :: rest) PLoadPos)
             (list_lookup_insert_eq _ _ _ Hlt));
    [|unfold producer_step, cell_index; simpl; rewrite Hcell, Hdif, Hneg; reflexivity].
  rewrite list_insert_insert_eq, list_insert_id by exact Hi. reflexivity.
Qed.

(** Two uninterrupted steps of a consumer whose call of [dequeue] finds
    the ring empty bring it back to the test of its loop. *)
Lemma consumer_solo_empty (q : MPMCQueue T) total_consumed producers consumers j
    val count rcv out' q' :
  consumers !! j = Some (mkConsumer val count rcv CLoadPos) ->
  dequeue 1 0 q val = Done (false, out', q') ->
  out' = val /\ q' = q /\
  system_run total (mkSystem q total_consumed producers consumers)
    (replicate 2 (Consumer j, false)) =
  mkSystem q total_consumed producers
    (<[j := mkConsumer val count rcv CLoadTotal]> consumers).
Proof.
  intros Hj Hd. pose proof (lookup_lt_Some _ _ _ Hj) as Hlt.
  unfold dequeue in Hd. simpl in Hd.
  destruct (buffer_ q !! Z.to_nat (Z.land (dequeue_pos_ q) (buffer_mask_ q)))
    as [cell|] eqn:Hcell; [|discriminate].
  destruct (intptr_sub (to_intptr (sequence cell))
              (to_intptr (wrap (dequeue_pos_ q + 1))) =? 0) eqn:Hdif.
  { unfold compare_exchange_weak in Hd. rewrite Z.eqb_refl in Hd. discriminate. }
  destruct (intptr_sub (to_intptr (sequence cell))
              (to_intptr (wrap (dequeue_pos_ q + 1))) <? 0) eqn:Hneg; [|discriminate].
  injection Hd as <- <-. split; [reflexivity|]. split; [reflexivity|].
  unfold system_run. cbn [replicate fold_left].
  rewrite (system_step_consumer total _ _ _ _ j false _ q total_consumed
             (mkConsumer val count rcv (CLoadSeq (dequeue_pos_ q))) Hj eq_refl).
  rewrite (system_step_consumer total _ _ _ _ j false _ q total_consumed
             (mkConsumer val count rcv CLoadTotal)
             (list_lookup_insert_eq _ _ _ Hlt));
    [|unfold consumer_step, cell_index; simpl; rewrite Hcell, Hdif, Hneg; reflexivity].
  rewrite list_insert_insert_eq. reflexivity.
Qed.

End SoloFailure.

(** X12. The interleaved model agrees with the sequential one: in any
    state of the system, a thread that takes its steps without another
    thread in between does to the queue exactly what the call does when
    run by a single thread without spurious failure.  Where [enqueue]
    returns true, five steps of the producer leave the queue of the
    call and move the producer to its next value; where it returns
    false, two steps leave everything as it was.  Where [dequeue]
    returns true, five steps of the consumer leave the queue of the
    call, with the value in the consumer's [val] and among the values
    it has received; where it returns false, two steps leave the queue
    and [val] as they were and bring the consumer back to the test of
    its loop. *)
Theorem uninterrupted_thread_runs_the_call {T : Type} (total : Z) (q : MPMCQueue T)
    (total_consumed : Z) (producers : list (producer_thread T))
    (consumers : list (consumer_thread T)) (i j : nat) (v : T) (rest : list T)
    (val : T) (count : Z) (rcv : list T) :
  producers !! i = Some (mkProducer (v :: rest) PLoadPos) ->
  consumers !! j = Some (mkConsumer val count rcv CLoadPos) ->
  let s := mkSystem q total_consumed producers consumers in
  (forall q',
     enqueue 1 0 q v = Done (true, q') ->
     system_run total s (replicate 5 (Producer i, false)) =
     mkSystem q' total_consumed (<[i := mkProducer rest PLoadPos]> producers) consumers) /\
  (forall q',
     enqueue 1 0 q v = Done (false, q') ->
     q' = q /\ system_run total s (replicate 2 (Producer i, false)) = s) /\
  (forall x q',
     dequeue 1 0 q val = Done (true, x, q') ->
     system_run total s (replicate 5 (Consumer j, false)) =
     mkSystem q' total_consumed producers
       (<[j := mkConsumer x count (rcv ++ [x]) CFetchAdd]> consumers)) /\
  (forall out' q',
     dequeue 1 0 q val = Done (false, out', q') ->
     out' = val /\ q' = q /\
     system_run total s (replicate 2 (Consumer j, false)) =
     mkSystem q total_consumed producers
       (<[j := mkConsumer val count rcv CLoadTotal]> consumers)).
Proof.
  intros Hi Hj s. split; [|split; [|split]].
  - intros q' He. exact (producer_solo total q _ _ _ i v rest q' Hi He).
  - intros q' He. exact (producer_solo_full total q _ _ _ i v rest q' Hi He).
  - intros x q' Hd. exact (consumer_solo total q _ _ _ j val count rcv x q' Hj Hd).
  - intros out' q' Hd.
    exact (consumer_solo_empty total q _ _ _ j val count rcv out' q' Hj Hd).
Qed.

(** A ring of capacity 2 that holds one value: the producer's call
    succeeds, and so does the consumer's. *)
Lemma uninterrupted_thread_runs_the_call_witness :
  let q := mkQueue [mkCell 1 10; mkCell 1 0] 1 1 0 in
  let producers := [mkProducer [20; 30] PLoadPos] in
  let consumers := [mkConsumer 0 0 [] CLoadPos] in
  let s := mkSystem q 0 producers consumers in
  (enqueue 1 0 q 20 = Done (true, mkQueue [mkCell 1 10; mkCell 2 20] 1 2 0) /\
   dequeue 1 0 q 0 = Done (true, 10, mkQueue [mkCell 2 10; mkCell 1 0] 1 1 1)) /\
  ((forall q',
      enqueue 1 0 q 20 = Done (true, q') ->
      system_run 3 s (replicate 5 (Producer 0%nat, false)) =
      mkSystem q' 0 (<[0%nat := mkProducer [30] PLoadPos]> producers) consumers) /\
   (forall q',
      enqueue 1 0 q 20 = Done (false, q') ->
      q' = q /\ system_run 3 s (replicate 2 (Producer 0%nat, false)) = s) /\
   (forall x q',
      dequeue 1 0 q 0 = Done (true, x, q') ->
      system_run 3 s (replicate 5 (Consumer 0%nat, false)) =
      mkSystem q' 0 producers
        (<[0%nat := mkConsumer x 0 ([] ++ [x]) CFetchAdd]> consumers)) /\
   (forall out' q',
      dequeue 1 0 q 0 = Done (false, out', q') ->
      out' = 0 /\ q' = q /\
      system_run 3 s (replicate 2 (Consumer 0%nat, false)) =
      mkSystem q 0 producers
        (<[0%nat := mkConsumer 0 0 [] CLoadTotal]> consumers))).
Proof.
  split.
  - split; vm_compute; reflexivity.
  - apply (uninterrupted_thread_runs_the_call 3
             (mkQueue [mkCell 1 10; mkCell 1 0] 1 1 0) 0
             [mkProducer [20; 30] PLoadPos] [mkConsumer 0 0 [] CLoadPos]
             0%nat 0%nat 20 [30] 0 0 []); reflexivity.
Defined.
